(** * Scoring core of the cybersecurity self-assessment tool

    A shallow embedding of [app/logic.py]: [calculate_scores] and
    [generate_recommendations], together with the fragment of Python
    they rely on (dict lookups that may raise [KeyError], insertion
    ordered dicts, integer true division and IEEE-754 binary64
    arithmetic).

    The two front ends are embedded after it: the dialogue of
    [app/console_app.py], with the console as explicit state, and the
    parts of [app/web_app.py] that are plain computation.

    Python's [float] is binary64; it is modelled by [spec_float], the
    executable specification of IEEE-754 arithmetic of the standard
    library, instantiated at precision 53 and maximal exponent 1024. *)

From Stdlib Require Import ZArith Lia Bool List.
From Stdlib Require Import Floats.SpecFloat.
From Stdlib Require Import Ascii DecimalString.
From stdpp Require Import gmap strings list.

Local Open Scope string_scope.
Local Open Scope list_scope.
Local Open Scope Z_scope.

(** ** Python exceptions and fallible computations *)

Module Py.

(** The built-in exceptions the scoring code can raise. *)
Inductive exn :=
| KeyError (key : string)
| ZeroDivisionError
| OverflowError.

Inductive result (A : Type) :=
| Ok (a : A)
| Raise (e : exn).
Arguments Ok {A} a.
Arguments Raise {A} e.

Definition bind {A B} (r : result A) (k : A → result B) : result B :=
  match r with
  | Ok a => k a
  | Raise e => Raise e
  end.

(** [d[key]] on a dict whose entry for [key] is [o]. *)
Definition getitem {A} (key : string) (o : option A) : result A :=
  match o with
  | Some v => Ok v
  | None => Raise (KeyError key)
  end.

Definition succeeds {A} (r : result A) : Prop := ∃ a, r = Ok a.

End Py.
Import Py.

#[global] Instance result_bind : MBind result := λ A B k r, Py.bind r k.
#[global] Instance result_ret : MRet result := @Py.Ok.

(** ** Binary64 floating point *)

Module F64.

Definition prec : Z := 53.
Definition emax : Z := 1024.

Abbreviation float := spec_float.

(** Conversion of an integer literal ([100], [80], [50]) to a float. *)
Definition of_int (z : Z) : float := binary_normalize prec emax z 0 false.

Definition zero : float := S754_zero false.

Definition add : float → float → float := SFadd prec emax.
Definition sub : float → float → float := SFsub prec emax.
Definition mul : float → float → float := SFmul prec emax.

Definition eqb : float → float → bool := SFeqb.
Definition ltb : float → float → bool := SFltb.
Definition leb : float → float → bool := SFleb.

(** [a / b] on two Python ints: the correctly rounded quotient of the
    exact integers, [ZeroDivisionError] for a zero divisor and
    [OverflowError] when the quotient is too large for a float. The
    division core of [SFdiv] works on mantissas of any size, so the
    integers are fed to it unrounded. *)
Definition int_as_float (z : Z) : float :=
  match z with
  | Z0 => S754_zero false
  | Zpos p => S754_finite false p 0
  | Zneg p => S754_finite true p 0
  end.

Definition int_true_divide (a b : Z) : result float :=
  if b =? 0 then Raise ZeroDivisionError
  else
    match SFdiv prec emax (int_as_float a) (int_as_float b) with
    | S754_infinity _ => Raise OverflowError
    | q => Ok q
    end.

End F64.

(** ** Insertion-ordered dicts with string keys

    [pillar_max], [pillar_risk] and [pillar_scores] are Python dicts
    whose iteration order (insertion order) is observable in the
    result, so they are association lists with at most one entry per
    key. *)

Module OrderedDict.

Definition t (V : Type) : Type := list (string * V).

Definition empty {V} : t V := [].

Fixpoint get {V} (d : t V) (k : string) : option V :=
  match d with
  | [] => None
  | (k', v) :: d' => if String.eqb k' k then Some v else get d' k
  end.

(** [d.get(k, dflt)] *)
Definition get_default {V} (d : t V) (k : string) (dflt : V) : V :=
  match get d k with
  | Some v => v
  | None => dflt
  end.

(** [d[k] = v]: an existing key keeps its position, a new key goes
    last. *)
Fixpoint set {V} (d : t V) (k : string) (v : V) : t V :=
  match d with
  | [] => [(k, v)]
  | (k', v') :: d' =>
      if String.eqb k' k then (k', v) :: d' else (k', v') :: set d' k v
  end.

(** [d.setdefault(k, v)] *)
Definition setdefault {V} (d : t V) (k : string) (v : V) : t V :=
  match get d k with
  | Some _ => d
  | None => set d k v
  end.

Definition keys {V} (d : t V) : list string := d.*1.

End OrderedDict.

(** ** Data model *)

(** A question record as loaded from [questions.json]: a dict in which
    any of the keys may be absent. [weight] is an int, as the
    annotations [Dict[str, int]] of the accumulators say; the display
    text plays no part in scoring. *)
Record question := {
  q_id : option string;
  q_pillar : option string;
  q_weight : option Z;
  q_good_answer : option string;
}.

Record summary := {
  risk_points : Z;
  max_risk : Z;
  risk_percentage : F64.float;
  security_score : F64.float;
  risk_level : string;
}.

(** ** [calculate_scores] *)

(** [sum(q["weight"] for q in questions)] *)
Fixpoint sum_weights (acc : Z) (questions : list question) : result Z :=
  match questions with
  | [] => Ok acc
  | q :: rest =>
      w ← getitem "weight" (q_weight q);
      sum_weights (acc + w) rest
  end.

(** [q.get("good_answer", "yes")] *)
Definition good_answer_of (q : question) : string :=
  default "yes" (q_good_answer q).

(** [user_answer is not None and user_answer != good_answer] *)
Definition is_unsafe (user_answer : option string) (good_answer : string) : bool :=
  match user_answer with
  | Some a => negb (String.eqb a good_answer)
  | None => false
  end.

(** The variables the first loop updates. *)
Record score_state := {
  st_risk_points : Z;
  st_pillar_max : OrderedDict.t Z;
  st_pillar_risk : OrderedDict.t Z;
}.

Definition init_state : score_state :=
  {| st_risk_points := 0;
     st_pillar_max := OrderedDict.empty;
     st_pillar_risk := OrderedDict.empty |}.

(** One iteration of [for q in questions]. *)
Definition score_step (answers : gmap string string)
    (st : score_state) (q : question) : result score_state :=
  pillar ← getitem "pillar" (q_pillar q);
  weight ← getitem "weight" (q_weight q);
  let good_answer := good_answer_of q in
  qid ← getitem "id" (q_id q);
  let user_answer := answers !! qid in
  let pillar_max :=
    OrderedDict.set (st_pillar_max st) pillar
      (OrderedDict.get_default (st_pillar_max st) pillar 0 + weight) in
  if is_unsafe user_answer good_answer then
    Ok {| st_risk_points := st_risk_points st + weight;
          st_pillar_max := pillar_max;
          st_pillar_risk :=
            OrderedDict.set (st_pillar_risk st) pillar
              (OrderedDict.get_default (st_pillar_risk st) pillar 0 + weight) |}
  else
    Ok {| st_risk_points := st_risk_points st;
          st_pillar_max := pillar_max;
          st_pillar_risk := OrderedDict.setdefault (st_pillar_risk st) pillar 0 |}.

Fixpoint score_loop (answers : gmap string string)
    (st : score_state) (questions : list question) : result score_state :=
  match questions with
  | [] => Ok st
  | q :: rest =>
      st' ← score_step answers st q;
      score_loop answers st' rest
  end.

Definition risk_percentage_of (risk_points max_risk : Z) : result F64.float :=
  if max_risk =? 0 then Ok F64.zero
  else
    ratio ← F64.int_true_divide risk_points max_risk;
    Ok (F64.mul ratio (F64.of_int 100)).

Definition risk_level_of (security_score : F64.float) : string :=
  if F64.leb (F64.of_int 80) security_score then "LOW"
  else if F64.leb (F64.of_int 50) security_score then "MEDIUM"
  else "HIGH".

(** The body of [for pillar, max_w in pillar_max.items()]. *)
Definition pillar_score (pillar_risk : OrderedDict.t Z)
    (pillar : string) (max_w : Z) : result F64.float :=
  let risk_w := OrderedDict.get_default pillar_risk pillar 0 in
  if max_w =? 0 then Ok (F64.of_int 100)
  else
    ratio ← F64.int_true_divide risk_w max_w;
    let pillar_risk_pct := F64.mul ratio (F64.of_int 100) in
    Ok (F64.sub (F64.of_int 100) pillar_risk_pct).

Fixpoint pillar_loop (pillar_risk : OrderedDict.t Z)
    (pillar_scores : OrderedDict.t F64.float)
    (items : list (string * Z)) : result (OrderedDict.t F64.float) :=
  match items with
  | [] => Ok pillar_scores
  | (pillar, max_w) :: rest =>
      s ← pillar_score pillar_risk pillar max_w;
      pillar_loop pillar_risk (OrderedDict.set pillar_scores pillar s) rest
  end.

Definition calculate_scores (questions : list question)
    (answers : gmap string string)
    : result (summary * OrderedDict.t F64.float) :=
  max_risk ← sum_weights 0 questions;
  st ← score_loop answers init_state questions;
  let risk_points := st_risk_points st in
  risk_percentage ← risk_percentage_of risk_points max_risk;
  let security_score := F64.sub (F64.of_int 100) risk_percentage in
  let risk_level := risk_level_of security_score in
  let summary :=
    {| risk_points := risk_points;
       max_risk := max_risk;
       risk_percentage := risk_percentage;
       security_score := security_score;
       risk_level := risk_level |} in
  pillar_scores ←
    pillar_loop (st_pillar_risk st) OrderedDict.empty (st_pillar_max st);
  Ok (summary, pillar_scores).

(** ** [generate_recommendations] *)

Definition recommendation_map : OrderedDict.t string := [
  ("Q1", "Create and keep an up-to-date list of all company devices (laptops, phones, servers, tablets) and review it regularly.");
  ("Q2", "Define an approved software list and uninstall or block software that is not needed or not approved.");
  ("Q3", "Identify where sensitive data is stored, label it (e.g. confidential), and limit where it is copied or shared.");
  ("Q4", "Enable multi-factor authentication (MFA) for all remote access, email accounts and key business systems.");
  ("Q5", "Change all default passwords on devices, routers and systems, and require strong unique passwords.");
  ("Q6", "Configure computers and mobile devices to automatically lock after a short period of inactivity (5–10 minutes).");
  ("Q7", "Limit admin accounts to a small number of trusted users and use standard accounts for day-to-day work.");
  ("Q8", "Ensure device firewalls are turned on and use a router or gateway with a firewall for your business network.");
  ("Q9", "Turn on automatic updates for operating systems and key software, and apply critical patches promptly.");
  ("Q10", "Install reputable antivirus or endpoint protection on all devices and make sure it is kept up to date.");
  ("Q11", "Enable full-disk encryption on laptops and mobile devices (e.g. BitLocker, FileVault) to protect lost or stolen devices.");
  ("Q12", "Create a separate guest Wi-Fi network that only provides internet access and cannot reach your business systems.");
  ("Q13", "Write a simple incident response plan describing who to contact and what steps to follow if an incident occurs, and review it yearly.");
  ("Q14", "Maintain an up-to-date list of emergency contacts (IT support, cloud providers, bank, legal/cyber support) and keep it easily accessible.");
  ("Q15", "Set up automatic weekly (or more frequent) backups of important business data to a secure, offsite or cloud location.");
  ("Q16", "Regularly test restoring files from your backups and document the steps so you know recovery will work in an emergency.");
  ("Q17", "Provide basic cybersecurity awareness training for all staff at induction and at least once per year, and record attendance.");
  ("Q18", "Create an offboarding checklist to immediately remove system, email and remote access when someone leaves the business.");
  ("Q19", "Assess third-party vendors for basic security (e.g. encryption, access controls, incident handling) before sharing sensitive data.");
  ("Q20", "Document how you will detect, assess and respond to privacy or data breaches in line with Australian privacy obligations.")
].

(** [text in recs] *)
Definition text_in (text : string) (recs : list string) : bool :=
  existsb (String.eqb text) recs.

(** One iteration of [for q in questions] in [generate_recommendations]. *)
Definition rec_step (answers : gmap string string)
    (recs : list string) (q : question) : result (list string) :=
  qid ← getitem "id" (q_id q);
  let good_answer := good_answer_of q in
  let user_answer := answers !! qid in
  if is_unsafe user_answer good_answer then
    match OrderedDict.get recommendation_map qid with
    | Some rec_text =>
        if negb (String.eqb rec_text "") && negb (text_in rec_text recs)
        then Ok (recs ++ [rec_text])
        else Ok recs
    | None => Ok recs
    end
  else Ok recs.

Fixpoint rec_loop (answers : gmap string string)
    (recs : list string) (questions : list question) : result (list string) :=
  match questions with
  | [] => Ok recs
  | q :: rest =>
      recs' ← rec_step answers recs q;
      rec_loop answers recs' rest
  end.

Definition generate_recommendations (questions : list question)
    (answers : gmap string string) : result (list string) :=
  rec_loop answers [] questions.

(** ** Catalogs and the quantities the claims speak about *)

Definition mkq (id pillar : string) (weight : Z) (good : string) : question :=
  {| q_id := Some id; q_pillar := Some pillar;
     q_weight := Some weight; q_good_answer := Some good |}.

(** [key in q] *)
Definition present {A} (o : option A) : bool :=
  match o with Some _ => true | None => false end.

(** The three keys [calculate_scores] subscripts are present. *)
Definition has_fields (q : question) : bool :=
  present (q_id q) && present (q_pillar q) && present (q_weight q).

Definition weight_of (q : question) : Z := default 0 (q_weight q).

(** A catalog the scorer is meant for: every record has [id], [pillar]
    and [weight], and no weight is negative. (The data model also asks
    for unique ids and a [good_answer] of "yes" or "no"; no result
    below needs them.) *)
Definition valid_question (q : question) : bool :=
  has_fields q && (0 <=? weight_of q).

Definition valid_catalog (questions : list question) : Prop :=
  Forall (λ q, valid_question q = true) questions.

(** The question was answered, and not with its good answer. *)
Definition answered_unsafely (answers : gmap string string) (q : question) : bool :=
  match q_id q with
  | Some qid => is_unsafe (answers !! qid) (good_answer_of q)
  | None => false
  end.

(** The record has its fields and its id is mapped to its good answer:
    the value of its [good_answer] field, "yes" when the record has
    none. *)
Definition answered_well (answers : gmap string string) (q : question) : Prop :=
  has_fields q = true ∧
  ∃ qid, q_id q = Some qid ∧
         answers !! qid = Some (match q_good_answer q with
                                | Some good => good
                                | None => "yes"
                                end).

(** The record has no field [k]. *)
Definition lacks (k : string) (q : question) : bool :=
  if String.eqb k "weight" then negb (present (q_weight q))
  else if String.eqb k "pillar" then negb (present (q_pillar q))
  else if String.eqb k "id" then negb (present (q_id q))
  else false.

Definition Zsum (l : list Z) : Z := foldr Z.add 0 l.

Definition risk_of (answers : gmap string string) (q : question) : Z :=
  if answered_unsafely answers q then weight_of q else 0.

Definition total_weight (questions : list question) : Z :=
  Zsum (weight_of <$> questions).

Definition total_risk (answers : gmap string string) (questions : list question) : Z :=
  Zsum (risk_of answers <$> questions).

Definition in_pillar (p : string) (q : question) : bool :=
  bool_decide (q_pillar q = Some p).

Definition pillar_weight (p : string) (questions : list question) : Z :=
  total_weight (filter (λ q, in_pillar p q = true) questions).

Definition pillar_risk_of (answers : gmap string string) (p : string)
    (questions : list question) : Z :=
  total_risk answers (filter (λ q, in_pillar p q = true) questions).

Definition pillars (questions : list question) : list string :=
  omap q_pillar questions.

(** The distinct elements of a list, in the order of their first
    occurrence. *)
Fixpoint first_occurrences (l : list string) : list string :=
  match l with
  | [] => []
  | x :: l' => x :: filter (λ y, y ≠ x) (first_occurrences l')
  end.

(** ** Notions used to state the rounding behaviour of binary64 *)

(** [rhe a P] is the integer nearest to [a / P], the even one in a tie. *)
Definition rhe (a P : Z) : Z :=
  let q := a / P in
  let r := a mod P in
  if 2 * r <? P then q
  else if P <? 2 * r then q + 1
  else if Z.even q then q else q + 1.

(** The exponent of the binary64 format for a number of [e] digits. *)
Definition fexp53 (e : Z) : Z := Z.max (e - 53) (-1074).

(** The two bits a location stands for below the mantissa. *)
Definition code (l : location) : Z :=
  match l with
  | loc_Exact => 0
  | loc_Inexact Lt => 1
  | loc_Inexact Eq => 2
  | loc_Inexact Gt => 3
  end.

(** The record holds the quotient of [c] by [4 * P], the next bit and
    whether anything nonzero lies below it. *)
Definition located (mrs : shr_record) (c P : Z) : Prop :=
  0 ≤ shr_m mrs ∧
  ∃ t, 0 ≤ t < 2 * P ∧
       c = 4 * P * shr_m mrs + (if shr_r mrs then 2 * P else 0) + t ∧
       shr_s mrs = negb (t =? 0).

(** The float made of a rounded mantissa and its exponent. *)
Definition pack (s : bool) (m e : Z) : spec_float :=
  match m with
  | 0 => S754_zero s
  | Zpos p => if e <=? 971 then S754_finite s p e else S754_infinity s
  | Zneg _ => S754_nan
  end.

(** [logic.py] declares no exception class and validates nothing: every
    exception it can raise is a built-in runtime error, none is a
    configuration or validation error. *)
Definition is_configuration_error (e : exn) : bool :=
  match e with
  | KeyError _ | ZeroDivisionError | OverflowError => false
  end.

(** The recommendation a question calls for: the text mapped to its id
    when it was answered unsafely. *)
Definition advice (answers : gmap string string) (q : question) : option string :=
  match q_id q with
  | Some qid =>
      if is_unsafe (answers !! qid) (good_answer_of q)
      then OrderedDict.get recommendation_map qid
      else None
  | None => None
  end.

(** The score the specification gives a pillar whose questions weigh
    [max] in total, [risk] of it answered unsafely. *)
Definition expected_pillar_score (risk max : Z) : result F64.float :=
  if max =? 0 then Ok (F64.of_int 100)
  else
    ratio ← F64.int_true_divide risk max;
    Ok (F64.sub (F64.of_int 100) (F64.mul ratio (F64.of_int 100))).

(** The float 100.0, [7036874417766400 * 2^-46]. *)
Definition hundred : F64.float := S754_finite false 7036874417766400 (-46).

(** The value of a mantissa and exponent, in units of [2^-1074]. *)
Definition Zval (m e : Z) : Z := m * 2 ^ (e + 1074).

(** The mantissa has the exponent binary64 prescribes for it. *)
Definition canonical (m : positive) (e : Z) : Prop :=
  fexp53 (Zpos (digits2_pos m) + e) = e ∧ e ≤ 971.

(** A canonical float between [+0] and [B] units of [2^-1074]. *)
Definition in_range (f : F64.float) (B : Z) : Prop :=
  match f with
  | S754_zero false => True
  | S754_finite false m e => canonical m e ∧ Zval (Zpos m) e ≤ B
  | _ => False
  end.

(** Neither a NaN nor an infinity. *)
Definition is_finite (f : F64.float) : bool :=
  match f with
  | S754_zero _ | S754_finite _ _ _ => true
  | _ => false
  end.

Definition is_nan (f : F64.float) : bool :=
  match f with
  | S754_nan => true
  | _ => false
  end.

(** Rounding a positive value, in units of [2^-1074], to binary64. *)
Definition RN (V : Z) : Z :=
  let g := 2 ^ Z.max (Zdigits2 V - 53) 0 in
  rhe V g * g.

(** ** Keys in order of insertion *)

Definition add_key (seen : list string) (k : string) : list string :=
  if bool_decide (k ∈ seen) then seen else seen ++ [k].

(** ** Catalogs and answers used as examples *)

Definition catalog_two : list question :=
  [mkq "Q1" "Identify" 10 "yes"; mkq "Q2" "Protect" 20 "yes"].

Definition answers_two : gmap string string :=
  <["Q1" := "no"]> (<["Q2" := "yes"]> ∅).

Definition catalog_eighty : list question :=
  [mkq "Q1" "Identify" 1 "yes"; mkq "Q2" "Protect" 4 "yes"].

Definition question_without_pillar : question :=
  {| q_id := Some "Q2"; q_pillar := None;
     q_weight := Some 20; q_good_answer := Some "yes" |}.

Definition catalog_missing_pillar : list question :=
  [mkq "Q1" "Identify" 10 "yes"; question_without_pillar].

Definition answers_good : gmap string string :=
  <["Q1" := "yes"]> (<["Q2" := "yes"]> ∅).

(** A catalog whose good answers are "yes", "no" and left out, with
    the answers that are good for it. *)
Definition question_without_good_answer : question :=
  {| q_id := Some "Q7"; q_pillar := Some "Protect";
     q_weight := Some 5; q_good_answer := None |}.

Definition catalog_mixed : list question :=
  [mkq "Q1" "Identify" 10 "yes"; mkq "Q5" "Protect" 20 "no";
   question_without_good_answer].

Definition answers_mixed : gmap string string :=
  <["Q1" := "yes"]> (<["Q5" := "no"]> (<["Q7" := "yes"]> ∅)).

Definition catalog_repeated : list question :=
  [mkq "Q2" "Identify" 5 "yes"; mkq "Q21" "Protect" 5 "yes";
   mkq "Q1" "Protect" 5 "no"; mkq "Q2" "Recover" 5 "yes"].

Definition answers_repeated : gmap string string :=
  <["Q1" := "yes"]> (<["Q2" := "no"]> (<["Q21" := "no"]> ∅)).

Definition answers_foreign : gmap string string :=
  <["Q99" := "no"]> answers_two.

(** * The front ends and the report helpers

    [console_app.py] and the parts of [web_app.py] that are plain
    computation: collecting the answers, the guard of the submitted
    form, the lines printed for a result and [clean_text]. *)

(** ** Text operations of the Python library

    [str.strip] and [str.lower] work on Unicode text; they are taken as
    they come, as operations on strings, and nothing is assumed about
    them. [ascii_str_ops] is what they do on ASCII text. *)

Class StrOps := {
  py_strip : string → string;
  py_lower : string → string;
}.

Definition is_ascii_space (c : ascii) : bool :=
  let n := nat_of_ascii c in
  ((9 <=? n) && (n <=? 13) || (28 <=? n) && (n <=? 32))%nat.

Fixpoint lstrip_ascii (s : string) : string :=
  match s with
  | EmptyString => EmptyString
  | String c s' => if is_ascii_space c then lstrip_ascii s' else s
  end.

Definition strip_ascii (s : string) : string :=
  String.rev (lstrip_ascii (String.rev (lstrip_ascii s))).

Definition lower_ascii_char (c : ascii) : ascii :=
  let n := nat_of_ascii c in
  if ((65 <=? n) && (n <=? 90))%nat then ascii_of_nat (n + 32) else c.

Fixpoint lower_ascii (s : string) : string :=
  match s with
  | EmptyString => EmptyString
  | String c s' => String (lower_ascii_char c) (lower_ascii s')
  end.

Definition ascii_str_ops : StrOps :=
  {| py_strip := strip_ascii; py_lower := lower_ascii |}.

(** The newline character and [str(n)] for an int. *)
Definition nl : string := String (ascii_of_nat 10) EmptyString.

Definition str_of_int (z : Z) : string := NilZero.string_of_int (Z.to_int z).

(** ** [f"{x:.1f}"]

    The decimal with one digit after the point nearest to the exact
    value of the float, the even one in a tie. *)

(** The absolute value times ten, rounded to an integer. *)
Definition tenths (m : positive) (e : Z) : Z :=
  if 0 <=? e then Zpos m * 10 * 2 ^ e
  else rhe (Zpos m * 10) (2 ^ (- e)).

Definition format_1f (x : F64.float) : string :=
  match x with
  | S754_nan => "nan"
  | S754_infinity s => if s then "-inf" else "inf"
  | S754_zero s => if s then "-0.0" else "0.0"
  | S754_finite s m e =>
      let n := tenths m e in
      (if s then "-" else "") +:+
      str_of_int (n / 10) +:+ "." +:+ str_of_int (n mod 10)
  end.

(** ** [web_app.py]: answers from the radio buttons *)

(** One iteration of the loop of [get_answers_from_session];
    [session_state] holds the value of the radio button of each id. *)
Definition session_step `{ops : StrOps} (session_state : gmap string string)
    (answers : gmap string string) (q : question)
    : result (gmap string string) :=
  qid ← getitem "id" (q_id q);
  match session_state !! qid with
  | None => Ok answers
  | Some raw =>
      let raw_lower := py_lower (py_strip raw) in
      if String.prefix "y" raw_lower then Ok (<[qid := "yes"]> answers)
      else if String.prefix "n" raw_lower then Ok (<[qid := "no"]> answers)
      else Ok answers
  end.

Fixpoint session_loop `{ops : StrOps} (session_state : gmap string string)
    (answers : gmap string string) (questions : list question)
    : result (gmap string string) :=
  match questions with
  | [] => Ok answers
  | q :: rest =>
      answers' ← session_step session_state answers q;
      session_loop session_state answers' rest
  end.

Definition get_answers_from_session `{ops : StrOps} (questions : list question)
    (session_state : gmap string string) : result (gmap string string) :=
  session_loop session_state ∅ questions.

(** ** [web_app.py]: the submitted form *)

Record participant := {
  p_name : string;
  p_business : string;
  p_email : string;
}.

(** How the block [if submitted:] of [main] ends: with one of its three
    error messages, or with the assessment stored in the session. *)
Inductive submit_outcome :=
| DetailsMissing
| InvalidEmail
| QuestionsUnanswered
| AssessmentStored (p : participant) (s : summary)
    (pillar_scores : OrderedDict.t F64.float) (recs : list string).

(** ["@" in s] *)
Definition contains_at (s : string) : bool :=
  match String.index 0 "@" s with
  | Some _ => true
  | None => false
  end.

(** [[q["id"] for q in questions if q["id"] not in answers]] *)
Fixpoint missing_ids (questions : list question)
    (answers : gmap string string) : result (list string) :=
  match questions with
  | [] => Ok []
  | q :: rest =>
      qid ← getitem "id" (q_id q);
      match answers !! qid with
      | Some _ => missing_ids rest answers
      | None => missing ← missing_ids rest answers; Ok (qid :: missing)
      end
  end.

Definition main_submitted `{ops : StrOps}
    (participant_name business_name participant_email : string)
    (questions : list question) (session_state : gmap string string)
    : result submit_outcome :=
  if String.eqb participant_name "" || String.eqb business_name ""
     || String.eqb participant_email ""
  then Ok DetailsMissing
  else if negb (contains_at participant_email) then Ok InvalidEmail
  else
    let participant :=
      {| p_name := py_strip participant_name;
         p_business := py_strip business_name;
         p_email := py_strip participant_email |} in
    answers ← get_answers_from_session questions session_state;
    missing ← missing_ids questions answers;
    match missing with
    | _ :: _ => Ok QuestionsUnanswered
    | [] =>
        '(summary, pillar_scores) ← calculate_scores questions answers;
        recs ← generate_recommendations questions answers;
        Ok (AssessmentStored participant summary pillar_scores recs)
    end.

(** ** [web_app.py]: the lines of "Security by area" *)

Definition explanations : OrderedDict.t string := [
  ("Identify", "This area is about knowing what devices, systems and information your business uses. If you don't know what you have, you can't protect it.");
  ("Protect", "This area covers the basic protections that keep attackers out, like strong passwords, multi-factor authentication, firewalls, updates and device security.");
  ("Detect & Respond", "This area is about noticing when something suspicious is happening and knowing what to do next.");
  ("Recover", "This area focuses on backups and recovery so you can restore important data and keep operating after an incident.");
  ("Governance & People", "This area looks at staff training, joiner/leaver processes and how you manage third-party providers.")
].

(** The texts [main] hands to [st.markdown], one per pillar;
    [explanations[pillar]] raises for a pillar without explanation. *)
Fixpoint area_markdown (pillar_scores : OrderedDict.t F64.float)
    : result (list string) :=
  match pillar_scores with
  | [] => Ok []
  | (pillar, score) :: rest =>
      explanation ← getitem pillar (OrderedDict.get explanations pillar);
      lines ← area_markdown rest;
      Ok (("**" +:+ pillar +:+ ": " +:+ format_1f score +:+ " / 100**  " +:+ nl
           +:+ explanation +:+ nl) :: lines)
  end.

(** ** [web_app.py]: [clean_text] *)

Fixpoint starts_with (p s : list ascii) : bool :=
  match p, s with
  | [], _ => true
  | a :: p', b :: s' => Ascii.eqb a b && starts_with p' s'
  | _ :: _, [] => false
  end.

(** [s.replace(old, new)] for a non-empty [old]: the occurrences are
    found from the left and do not overlap. [fuel] bounds the length
    of [s]. *)
Fixpoint replace_from (fuel : nat) (old new s : list ascii) : list ascii :=
  match fuel, s with
  | _, [] => []
  | O, _ => s
  | S fuel', c :: s' =>
      if starts_with old s
      then new ++ replace_from fuel' old new (drop (length old) s)
      else c :: replace_from fuel' old new s'
  end.

(** For an empty [old], [new] goes before every character and at the
    end. *)
Definition replace_list (old new s : list ascii) : list ascii :=
  match old with
  | [] => new ++ flat_map (λ c, c :: new) s
  | _ :: _ => replace_from (length s) old new s
  end.

Definition py_replace (old new s : string) : string :=
  String.string_of_list_ascii
    (replace_list (String.list_ascii_of_string old)
       (String.list_ascii_of_string new)
       (String.list_ascii_of_string s)).

Definition double_quote : string := String (ascii_of_nat 34) EmptyString.

Definition non_breaking_space : string :=
  String (ascii_of_nat 194) (String (ascii_of_nat 160) EmptyString).

(** The table of [clean_text], in the order of the dict. *)
Definition replacements : list (string * string) := [
  ("–", "-");
  ("—", "-");
  ("’", "'");
  ("“", double_quote);
  ("”", double_quote);
  ("•", "-");
  (non_breaking_space, " ");
  ("🛡", "[Shield]");
  ("🛡️", "[Shield]")
].

Definition clean_text (text : string) : string :=
  foldl (λ text '(bad, good), py_replace bad good text) text replacements.

(** [p] occurs in [s] as a substring. *)
Definition occurs (p s : list ascii) : Prop :=
  ∃ before after, s = before ++ p ++ after.

(** ** [console_app.py] *)

(** A question of the catalog with its display text. *)
Record catalog_entry := {
  entry_question : question;
  entry_text : option string;
}.

(** Standard input, as the lines still to be read, and what was
    written so far, one entry per call of [print] or prompt of
    [input]. *)
Record console := {
  stdin : list string;
  stdout : list string;
}.

(** [input] raises [EOFError] at the end of the input and the
    conversion of an int of too many digits to text raises
    [ValueError]; the exceptions of the scoring functions pass through
    [main] uncaught. *)
Inductive io_exn :=
| EOFError
| ValueError
| Uncaught (e : exn).

Definition io (A : Type) : Type := console → (io_exn + A) * console.

Definition io_ret {A} (a : A) : io A := λ w, (inr a, w).

Definition io_bind {A B} (m : io A) (k : A → io B) : io B :=
  λ w, match m w with
       | (inr a, w') => k a w'
       | (inl e, w') => (inl e, w')
       end.

Definition print (line : string) : io unit :=
  λ w, (inr tt, {| stdin := stdin w; stdout := stdout w ++ [line] |}).

Definition lift {A} (r : result A) : io A :=
  λ w, (match r with Ok a => inr a | Raise e => inl (Uncaught e) end, w).

(** An int in an f-string. CPython, from 3.11 on, writes no int of
    more than 4300 decimal digits, the default of
    [sys.set_int_max_str_digits]: it raises [ValueError] for an int
    whose absolute value is [10 ** 4300] or more. *)
Definition int_str_limit : Z := 10 ^ 4300.

Definition str_int (z : Z) : io string :=
  λ w, (if Z.abs z <? int_str_limit then inr (str_of_int z)
        else inl ValueError, w).

(** [ask_yes_no]: the loop reads lines until one is an answer. *)
Fixpoint ask_yes_no_from `{ops : StrOps} (prompt : string)
    (lines : list string) (out : list string) : (io_exn + string) * console :=
  let out := out ++ [prompt +:+ " (yes/no): "] in
  match lines with
  | [] => (inl EOFError, {| stdin := []; stdout := out |})
  | line :: rest =>
      let answer := py_lower (py_strip line) in
      if String.eqb answer "yes" || String.eqb answer "y"
      then (inr "yes", {| stdin := rest; stdout := out |})
      else if String.eqb answer "no" || String.eqb answer "n"
      then (inr "no", {| stdin := rest; stdout := out |})
      else ask_yes_no_from prompt rest
             (out ++ ["Please answer with 'yes' or 'no' (or y/n)."])
  end.

Definition ask_yes_no `{ops : StrOps} (prompt : string) : io string :=
  λ w, ask_yes_no_from prompt (stdin w) (stdout w).

(** One iteration of the loop of [ask_questions]. *)
Definition ask_step `{ops : StrOps} (answers : gmap string string)
    (q : catalog_entry) : io (gmap string string) :=
  io_bind (lift (getitem "id" (q_id (entry_question q)))) (λ qid,
  io_bind (lift (getitem "text" (entry_text q))) (λ text,
  io_bind (print (nl +:+ "[" +:+ qid +:+ "] " +:+ text)) (λ _,
  io_bind (ask_yes_no "Your answer") (λ user_answer,
  io_ret (<[qid := user_answer]> answers))))).

Fixpoint ask_loop `{ops : StrOps} (answers : gmap string string)
    (questions : list catalog_entry) : io (gmap string string) :=
  match questions with
  | [] => io_ret answers
  | q :: rest => io_bind (ask_step answers q) (λ answers', ask_loop answers' rest)
  end.

Definition ask_questions `{ops : StrOps} (questions : list catalog_entry)
    : io (gmap string string) :=
  io_bind (print (nl +:+ "Please answer the following questions about your business." +:+ nl))
    (λ _, ask_loop ∅ questions).

(** The loop over [pillar_scores.items()] in [print_summary]. *)
Fixpoint print_areas (pillar_scores : OrderedDict.t F64.float) : io unit :=
  match pillar_scores with
  | [] => io_ret tt
  | (pillar, score) :: rest =>
      io_bind (print (" - " +:+ pillar +:+ ": " +:+ format_1f score +:+ " / 100"))
        (λ _, print_areas rest)
  end.

(** The loop over [enumerate(recs, start=i)] in [print_summary]. *)
Fixpoint print_recs (i : Z) (recs : list string) : io unit :=
  match recs with
  | [] => io_ret tt
  | rec :: rest =>
      io_bind (str_int i) (λ number,
      io_bind (print (number +:+ ". " +:+ rec)) (λ _,
      print_recs (i + 1) rest))
  end.

(** [print_summary]: each line is put together, then printed; the two
    ints of the fourth line are written in the order they stand in. *)
Definition print_summary (s : summary)
    (pillar_scores : OrderedDict.t F64.float) (recs : list string)
    : io unit :=
  io_bind (print (nl +:+ "=== Assessment Summary ===" +:+ nl)) (λ _,
  io_bind (print ("Overall security score: " +:+ format_1f (security_score s)
                    +:+ " / 100")) (λ _,
  io_bind (print ("Overall risk level: " +:+ risk_level s)) (λ _,
  io_bind (str_int (risk_points s)) (λ points,
  io_bind (str_int (max_risk s)) (λ out_of,
  io_bind (print ("(Internal risk points: " +:+ points +:+ " out of "
                    +:+ out_of +:+ ")" +:+ nl)) (λ _,
  io_bind (print "Security by area (higher is better):") (λ _,
  io_bind (print_areas pillar_scores) (λ _,
  io_bind (print "") (λ _,
  match recs with
  | _ :: _ =>
      io_bind (print ("Priority recommendations for your business:" +:+ nl))
        (λ _, print_recs 1 recs)
  | [] =>
      print "Great job! Based on your answers, no urgent recommendations were identified."
  end))))))))).

(** [main], given what [load_questions] returned. *)
Definition console_main `{ops : StrOps} (questions : list catalog_entry) : io unit :=
  io_bind (print ("=== Cybersecurity Self-Assessment (Console Version) ===" +:+ nl)) (λ _,
  io_bind (print ("This tool will ask you a series of yes/no questions about your business." +:+ nl)) (λ _,
  io_bind (print ("Please answer honestly to get useful recommendations." +:+ nl)) (λ _,
  match questions with
  | [] => print "No questions loaded. Please check questions.json."
  | _ :: _ =>
      io_bind (ask_questions questions) (λ answers,
      io_bind (lift (calculate_scores (entry_question <$> questions) answers))
        (λ '(summary, pillar_scores),
      io_bind (lift (generate_recommendations (entry_question <$> questions) answers))
        (λ recs,
      io_bind (print_summary summary pillar_scores recs) (λ _,
      print (nl +:+ "Thank you for completing the assessment." +:+ nl)))))
  end))).

(** ** Notions used to state the behaviour of the front ends *)

(** The ids of the records that have one, in catalog order. *)
Definition ids (questions : list question) : list string :=
  omap q_id questions.

(** The answer a radio button value stands for, if any. *)
Definition radio_answer `{ops : StrOps} (raw : string) : option string :=
  let raw_lower := py_lower (py_strip raw) in
  if String.prefix "y" raw_lower then Some "yes"
  else if String.prefix "n" raw_lower then Some "no"
  else None.

(** The options of the radio button of a question in [main]. *)
Definition radio_options : list string := ["Please select..."; "Yes"; "No"].

(** The answer a line typed at the console stands for, if any. *)
Definition answer_of `{ops : StrOps} (line : string) : option string :=
  let answer := py_lower (py_strip line) in
  if String.eqb answer "yes" || String.eqb answer "y" then Some "yes"
  else if String.eqb answer "no" || String.eqb answer "n" then Some "no"
  else None.

(** A catalog whose only pillar is "Protect", one with a pillar of its
    own, and a form filled in for [catalog_two]. *)
Definition catalog_one_pillar : list question :=
  [mkq "Q1" "Protect" 3 "yes"; mkq "Q2" "Protect" 4 "no"].

Definition catalog_custom_pillar : list question :=
  [mkq "Q1" "Identify" 10 "yes"; mkq "Q2" "Cloud" 20 "yes"].

Definition session_two : gmap string string :=
  <["Q1" := "No"]> (<["Q2" := "Yes"]> ∅).

Definition session_unfinished : gmap string string :=
  <["Q1" := "No"]> (<["Q2" := "Please select..."]> ∅).

(** What [ask_yes_no] writes while it refuses the lines [junk]. *)
Definition refusals (prompt : string) (junk : list string) : list string :=
  flat_map (λ _, [prompt +:+ " (yes/no): ";
                  "Please answer with 'yes' or 'no' (or y/n)."]) junk.

(** The record can be asked: it has an [id] and a [text]. *)
Definition askable (q : catalog_entry) : bool :=
  present (q_id (entry_question q)) && present (entry_text q).

(** The answers typed at the console, in order, refused lines left out. *)
Definition typed_answers `{ops : StrOps} (lines : list string) : list string :=
  omap answer_of lines.

(** The mapping built by giving each id its answer in turn. *)
Definition answers_from (ids answers : list string) : gmap string string :=
  foldl (λ acc ka, <[ka.1 := ka.2]> acc) ∅ (zip ids answers).

(** The lines of the numbered list of recommendations, from number
    [i] on. *)
Fixpoint numbered (i : Z) (recs : list string) : list string :=
  match recs with
  | [] => []
  | rec :: rest => (str_of_int i +:+ ". " +:+ rec) :: numbered (i + 1) rest
  end.

(** The first lines of a summary: the heading, the score and the
    level. *)
Definition summary_head (s : summary) : list string :=
  [nl +:+ "=== Assessment Summary ===" +:+ nl;
   "Overall security score: " +:+ format_1f (security_score s) +:+ " / 100";
   "Overall risk level: " +:+ risk_level s].

(** The lines of a whole summary. *)
Definition summary_lines (s : summary)
    (pillar_scores : OrderedDict.t F64.float) (recs : list string)
    : list string :=
  summary_head s
  ++ ["(Internal risk points: " +:+ str_of_int (risk_points s) +:+ " out of "
        +:+ str_of_int (max_risk s) +:+ ")" +:+ nl;
      "Security by area (higher is better):"]
  ++ map (λ '(pillar, score),
            " - " +:+ pillar +:+ ": " +:+ format_1f score +:+ " / 100")
         pillar_scores
  ++ [""]
  ++ match recs with
     | _ :: _ =>
         ("Priority recommendations for your business:" +:+ nl)
         :: numbered 1 recs
     | [] =>
         ["Great job! Based on your answers, no urgent recommendations were identified."]
     end.

(** A catalog whose weights add up to an int of 4301 digits, each
    weight having 4300. *)
Definition huge_weight : Z := 9 * 10 ^ 4299.

Definition catalog_huge_entries : list catalog_entry :=
  [{| entry_question := mkq "Q1" "Identify" huge_weight "yes";
      entry_text := Some "Do you keep a list of your devices?" |};
   {| entry_question := mkq "Q2" "Protect" huge_weight "yes";
      entry_text := Some "Do you use multi-factor authentication?" |}].

(** The three lines [main] starts with. *)
Definition banner : list string :=
  ["=== Cybersecurity Self-Assessment (Console Version) ===" +:+ nl;
   "This tool will ask you a series of yes/no questions about your business." +:+ nl;
   "Please answer honestly to get useful recommendations." +:+ nl].

Definition catalog_two_entries : list catalog_entry :=
  [{| entry_question := mkq "Q1" "Identify" 10 "yes";
      entry_text := Some "Do you keep a list of your devices?" |};
   {| entry_question := mkq "Q2" "Protect" 20 "yes";
      entry_text := Some "Do you use multi-factor authentication?" |}].

(** ** Notions used to state what [clean_text] achieves *)

(** [p] occurs in the text [s]. *)
Definition occurs_in (p s : string) : Prop :=
  ∃ before after, s = before +:+ p +:+ after.

(** Texts are held as their UTF-8 encoding: an ASCII character is a
    byte below 128, and every byte of another character is 128 or
    more. *)
Definition is_ascii (c : ascii) : bool := (nat_of_ascii c <? 128)%nat.

Definition ascii_text (s : list ascii) : Prop :=
  Forall (λ c, is_ascii c = true) s.

Definition non_ascii_text (s : list ascii) : Prop :=
  Forall (λ c, is_ascii c = false) s.

(** An entry of a replacement table that trades a run of non-ASCII
    characters for some ASCII text. *)
Definition to_ascii_entry (entry : string * string) : bool :=
  let bad := String.list_ascii_of_string entry.1 in
  let good := String.list_ascii_of_string entry.2 in
  negb (Nat.eqb (length bad) 0) && forallb (λ c, negb (is_ascii c)) bad &&
  negb (Nat.eqb (length good) 0) && forallb is_ascii good.

(** The shield emoji followed by the variation selector U+FE0F, the
    last key of the table, and the selector alone. *)
Definition shield_with_selector : string := "🛡️".

Definition variation_selector : string :=
  String (ascii_of_nat 239) (String (ascii_of_nat 184)
    (String (ascii_of_nat 143) EmptyString)).

(** The float 1.0, [2^52 * 2^-52]. *)
Definition one : F64.float := S754_finite false 4503599627370496 (-52).

(** The value of a finite float, in units of [2^-1074]. *)
Definition units (x : F64.float) : Z :=
  match x with
  | S754_finite false m e => Zval (Zpos m) e
  | S754_finite true m e => - Zval (Zpos m) e
  | _ => 0
  end.

(** ** Correct rounding of a quotient *)

(** [RQ A b] is the binary64 number nearest to [A / b], for a value in
    units of [2^-1074], ties to the even mantissa. *)
Definition RQ (A b : Z) : Z :=
  let g := 2 ^ Z.max (Zdigits2 (A / b) - 53) 0 in
  rhe A (b * g) * g.

(** The score of [risk] out of [max], in units of [2^-1074], as the
    three correctly rounded operations give it. *)
Definition score_units (risk max : Z) : Z :=
  if max =? 0 then 100 * 2 ^ 1074
  else RN (100 * 2 ^ 1074 - RN (100 * RQ (risk * 2 ^ 1074) max)).

(** The record with its weight multiplied by [k]. *)
Definition scale_weight (k : Z) (q : question) : question :=
  {| q_id := q_id q; q_pillar := q_pillar q;
     q_weight := (λ w, w * k) <$> q_weight q;
     q_good_answer := q_good_answer q |}.

(** A catalog so heavy that a risk above a fifth of it is not told
    from a fifth. *)
Definition catalog_heavy : list question :=
  [mkq "Q1" "Identify" (2 ^ 52 + 1) "yes";
   mkq "Q2" "Protect" (5 * 2 ^ 52 - (2 ^ 52 + 1)) "yes"].

(** A catalog whose ids are not those of the recommendation map, and
    answers that are all unsafe. *)
Definition catalog_own_ids : list question :=
  [mkq "A1" "Identify" 10 "yes"; mkq "A2" "Protect" 20 "yes"].

Definition answers_own_ids : gmap string string :=
  <["A1" := "no"]> (<["A2" := "no"]> ∅).

(** * Properties *)

(** ** Rounding to nearest, ties to even, on integers *)

Section rhe.
Variable P : Z.
Hypothesis HP : 0 < P.

Lemma rhe_cases a :
  let q := a / P in let r := a mod P in
  a = P * q + r ∧ 0 ≤ r < P ∧
  ((2 * r < P ∧ rhe a P = q) ∨
   (P < 2 * r ∧ rhe a P = q + 1) ∨
   (2 * r = P ∧ Z.even q = true ∧ rhe a P = q) ∨
   (2 * r = P ∧ Z.even q = false ∧ rhe a P = q + 1)).
Proof.
  intros q r. split; [apply Z.div_mod; lia|].
  split; [apply Z.mod_pos_bound; lia|].
  unfold rhe. fold q r.
  destruct (Z.ltb_spec (2 * r) P); [tauto|].
  destruct (Z.ltb_spec P (2 * r)); [tauto|].
  destruct (Z.even q) eqn:E; right; right; [left | right]; repeat split; lia.
Qed.

Lemma rhe_grid B : rhe (B * P) P = B.
Proof.
  unfold rhe. rewrite Z.div_mul, Z.mod_mul by lia.
  destruct (Z.ltb_spec (2 * 0) P); [done | lia].
Qed.

Lemma rhe_mono a b : a ≤ b → rhe a P ≤ rhe b P.
Proof.
  intros Hab.
  destruct (rhe_cases a) as (Ha & Hra & Ca).
  destruct (rhe_cases b) as (Hb & Hrb & Cb).
  assert (Hq : a / P ≤ b / P) by (apply Z.div_le_mono; lia).
  destruct (Z.eq_dec (a / P) (b / P)) as [Heq|Hne].
  - rewrite Heq in *. 
    assert (a mod P ≤ b mod P) by lia.
    destruct Ca as [[? ->]|[[? ->]|[(? & ? & ->)|(? & ? & ->)]]];
    destruct Cb as [[? ->]|[[? ->]|[(? & ? & ->)|(? & ? & ->)]]]; try lia; congruence.
  - destruct Ca as [[? ->]|[[? ->]|[(? & ? & ->)|(? & ? & ->)]]];
    destruct Cb as [[? ->]|[[? ->]|[(? & ? & ->)|(? & ? & ->)]]]; lia.
Qed.

Lemma rhe_le a B : a ≤ B * P → rhe a P ≤ B.
Proof. intros H. rewrite <- (rhe_grid B). by apply rhe_mono. Qed.

Lemma rhe_ge a B : B * P ≤ a → B ≤ rhe a P.
Proof. intros H. rewrite <- (rhe_grid B). by apply rhe_mono. Qed.

(** The rounding error is at most half a step. *)
Lemma rhe_err a : - P ≤ 2 * (rhe a P * P - a) ≤ P.
Proof.
  destruct (rhe_cases a) as (Ha & Hra & Ca).
  destruct Ca as [[? ->]|[[? ->]|[(? & ? & ->)|(? & ? & ->)]]]; nia.
Qed.

(** Within half a step of an even grid point, that point is chosen. *)
Lemma rhe_near_even a B :
  Z.even B = true → - P ≤ 2 * (a - B * P) ≤ P → rhe a P = B.
Proof.
  intros HB Hnear.
  destruct (rhe_cases a) as (Ha & Hra & Ca).
  set (q := a / P) in *. set (r := a mod P) in *.
  assert (Hq : q = B ∨ q = B - 1 ∨ (q < B - 1) ∨ (B < q)) by lia.
  destruct Hq as [->|[->|[Hq|Hq]]].
  - destruct Ca as [[? ->]|[[? ->]|[(? & ? & ->)|(? & ? & ->)]]]; try nia.
    congruence.
  - assert (Z.even (B - 1) = false).
    { rewrite Z.even_sub, HB. reflexivity. }
    destruct Ca as [[? ->]|[[? ->]|[(? & ? & ->)|(? & ? & ->)]]]; try nia.
    congruence.
  - nia.
  - nia.
Qed.

Lemma rhe_scale a k : 0 < k → rhe (a * k) (P * k) = rhe a P.
Proof.
  intros Hk. unfold rhe.
  rewrite Z.div_mul_cancel_r by lia.
  rewrite Z.mul_mod_distr_r by lia.
  destruct (Z.ltb_spec (2 * (a mod P * k)) (P * k));
    destruct (Z.ltb_spec (2 * (a mod P)) P); try nia; try done.
  destruct (Z.ltb_spec (P * k) (2 * (a mod P * k)));
    destruct (Z.ltb_spec P (2 * (a mod P))); try nia; done.
Qed.

Lemma rhe_nonneg a : 0 ≤ a → 0 ≤ rhe a P.
Proof. intros Ha. apply (rhe_ge a 0). lia. Qed.

End rhe.

(** ** Number of binary digits *)

Lemma digits2_pos_bounds p :
  2 ^ (Zpos (digits2_pos p) - 1) ≤ Zpos p < 2 ^ Zpos (digits2_pos p).
Proof.
  induction p as [p IH|p IH|]; simpl digits2_pos;
    rewrite ?Pos2Z.inj_succ; [| |simpl; lia].
  - replace (Z.succ (Zpos (digits2_pos p)) - 1) with
      (Z.succ (Zpos (digits2_pos p) - 1)) by lia.
    rewrite !Z.pow_succ_r by lia. lia.
  - replace (Z.succ (Zpos (digits2_pos p)) - 1) with
      (Z.succ (Zpos (digits2_pos p) - 1)) by lia.
    rewrite !Z.pow_succ_r by lia. lia.
Qed.

Lemma Zdigits2_nonneg N : 0 ≤ N → 0 ≤ Zdigits2 N.
Proof. destruct N; simpl; lia. Qed.

Lemma Zdigits2_lt N : 0 ≤ N → N < 2 ^ Zdigits2 N.
Proof.
  destruct N as [|p|p]; simpl; [lia| |lia].
  intros _. apply digits2_pos_bounds.
Qed.

Lemma Zdigits2_le N : 0 < N → 2 ^ (Zdigits2 N - 1) ≤ N.
Proof.
  destruct N as [|p|p]; simpl; [lia| |lia].
  intros _. apply digits2_pos_bounds.
Qed.

(** [N < 2^k] bounds the number of digits by [k], [2^k ≤ N] exceeds it. *)
Lemma Zdigits2_le_of_lt N k : 0 ≤ N → 0 ≤ k → N < 2 ^ k → Zdigits2 N ≤ k.
Proof.
  intros HN Hk Hlt.
  destruct (Z.eq_dec N 0) as [->|Hne]; [simpl; lia|].
  assert (H := Zdigits2_le N ltac:(lia)).
  destruct (Z.le_gt_cases (Zdigits2 N) k) as [|Hgt]; [done|].
  assert (2 ^ k ≤ 2 ^ (Zdigits2 N - 1)) by (apply Z.pow_le_mono_r; lia).
  lia.
Qed.

Lemma Zdigits2_gt_of_le N k : 0 ≤ k → 2 ^ k ≤ N → k < Zdigits2 N.
Proof.
  intros Hk Hle.
  assert (0 < 2 ^ k) by (apply Z.pow_pos_nonneg; lia).
  assert (H0 := Zdigits2_lt N ltac:(lia)).
  assert (Hd := Zdigits2_nonneg N ltac:(lia)).
  destruct (Z.le_gt_cases (Zdigits2 N) k) as [Hle'|]; [|done].
  assert (2 ^ Zdigits2 N ≤ 2 ^ k) by (apply Z.pow_le_mono_r; lia).
  lia.
Qed.

Lemma Zdigits2_mul_pow2 N k :
  0 < N → 0 ≤ k → Zdigits2 (N * 2 ^ k) = Zdigits2 N + k.
Proof.
  intros HN Hk.
  assert (0 < 2 ^ k) by (apply Z.pow_pos_nonneg; lia).
  assert (Hd := Zdigits2_nonneg N ltac:(lia)).
  assert (Hlt := Zdigits2_lt N ltac:(lia)).
  assert (Hle := Zdigits2_le N HN).
  assert (0 < Zdigits2 N).
  { apply (Zdigits2_gt_of_le N 0); [lia|]. simpl. lia. }
  apply Z.le_antisymm.
  - apply Zdigits2_le_of_lt; [nia | lia |].
    rewrite Z.pow_add_r by lia. nia.
  - assert (Zdigits2 N - 1 + k < Zdigits2 (N * 2 ^ k)); [|lia].
    apply Zdigits2_gt_of_le; [lia|].
    rewrite Z.pow_add_r by lia. nia.
Qed.

(** ** Shifting with a round and a sticky bit *)

Lemma located_init m l :
  0 ≤ m → located (shr_record_of_loc m l) (4 * m + code l) 1.
Proof.
  intros Hm. split; [by destruct l as [|[]]|].
  destruct l as [|[]]; simpl;
    [exists 0 | exists 0 | exists 1 | exists 1]; simpl; repeat split; lia.
Qed.

Lemma located_shr_1 mrs c P :
  0 < P → located mrs c P → located (shr_1 mrs) c (2 * P).
Proof.
  intros HP [Hm (t & Ht & Hc & Hs)].
  destruct mrs as [m r s]. simpl in *.
  assert (Hs' : r || s = negb ((if r then 2 * P else 0) + t =? 0)).
  { rewrite Hs. destruct r; simpl.
    - destruct (Z.eqb_spec (2 * P + t) 0); [lia | done].
    - done. }
  destruct m as [|[p|p|]|p]; try lia; simpl;
    (split; [simpl; lia|]);
    exists ((if r then 2 * P else 0) + t); simpl;
    (split; [destruct r; lia|]); (split; [lia | exact Hs']).
Qed.

Lemma pow2_xI p : 2 ^ Z.pos p~1 = 2 * (2 ^ Zpos p * 2 ^ Zpos p).
Proof.
  replace (Z.pos p~1) with (Zpos p + Zpos p + 1) by lia.
  rewrite !Z.pow_add_r by lia. change (2 ^ 1) with 2. lia.
Qed.

Lemma pow2_xO p : 2 ^ Z.pos p~0 = 2 ^ Zpos p * 2 ^ Zpos p.
Proof.
  replace (Z.pos p~0) with (Zpos p + Zpos p) by lia.
  by rewrite Z.pow_add_r by lia.
Qed.

Lemma pow2_pos k : 0 ≤ k → 0 < 2 ^ k.
Proof. intros. apply Z.pow_pos_nonneg; lia. Qed.

Lemma located_iter p : ∀ mrs c P,
  0 < P → located mrs c P →
  located (SpecFloat.iter_pos shr_1 p mrs) c (P * 2 ^ Zpos p).
Proof.
  induction p as [p IH|p IH|]; intros mrs c P HP H; simpl SpecFloat.iter_pos.
  - assert (0 < 2 ^ Zpos p) by (apply pow2_pos; lia).
    replace (P * 2 ^ Z.pos p~1) with (2 * P * 2 ^ Zpos p * 2 ^ Zpos p)
      by (rewrite pow2_xI; lia).
    apply IH; [nia|]. apply IH; [lia|]. by apply located_shr_1.
  - assert (0 < 2 ^ Zpos p) by (apply pow2_pos; lia).
    replace (P * 2 ^ Z.pos p~0) with (P * 2 ^ Zpos p * 2 ^ Zpos p)
      by (rewrite pow2_xO; lia).
    apply IH; [nia|]. by apply IH.
  - change (2 ^ 1) with 2. replace (P * 2) with (2 * P) by lia.
    by apply located_shr_1.
Qed.

Lemma located_round mrs c P :
  0 < P → located mrs c P →
  round_nearest_even (shr_m mrs) (loc_of_shr_record mrs) = rhe c (4 * P).
Proof.
  intros HP [Hm (t & Ht & Hc & Hs)].
  destruct mrs as [m r s]. simpl in *.
  assert (Hdiv : c / (4 * P) = m ∧ c mod (4 * P) = (if r then 2 * P else 0) + t).
  { assert (0 ≤ (if r then 2 * P else 0) + t < 4 * P) by (destruct r; lia).
    split; symmetry.
    - apply (Z.div_unique c (4 * P) m ((if r then 2 * P else 0) + t)); lia.
    - apply (Z.mod_unique c (4 * P) m ((if r then 2 * P else 0) + t)); lia. }
  destruct Hdiv as [Hq Hr]. unfold rhe. rewrite Hq, Hr.
  destruct r, s; simpl;
    destruct (Z.eqb_spec t 0); try discriminate;
    repeat match goal with
    | |- context [?a <? ?b] => destruct (Z.ltb_spec a b); try lia
    end; try reflexivity.
Qed.

(** ** Rounding a located mantissa to binary64 *)

Lemma shr_located mrs e n c :
  0 ≤ n → located mrs c 1 →
  ∃ mrs', shr mrs e n = (mrs', e + n) ∧ located mrs' c (2 ^ n).
Proof.
  intros Hn Hloc. destruct n as [|p|p]; [| |lia].
  - exists mrs. simpl. by rewrite Z.add_0_r.
  - exists (SpecFloat.iter_pos shr_1 p mrs). split; [done|].
    replace (2 ^ Zpos p) with (1 * 2 ^ Zpos p) by lia.
    by apply located_iter.
Qed.

Lemma shr_nonpos mrs e n : n ≤ 0 → shr mrs e n = (mrs, e).
Proof. destruct n; [done | lia | done]. Qed.

Lemma binary_round_aux_spec s N e l :
  0 ≤ N → e ≤ fexp53 (Zdigits2 N + e) →
  ∃ m2 e2,
    binary_round_aux 53 1024 s N e l = pack s m2 e2 ∧
    0 ≤ m2 ∧ fexp53 (Zdigits2 N + e) ≤ e2 ∧
    m2 * 2 ^ (e2 - fexp53 (Zdigits2 N + e)) =
      rhe (4 * N + code l) (4 * 2 ^ (fexp53 (Zdigits2 N + e) - e)) ∧
    (0 < m2 → fexp53 (Zdigits2 m2 + e2) = e2).
Proof.
  intros HN He.
  set (d := Zdigits2 N) in *. set (e1 := fexp53 (d + e)) in *.
  set (n := e1 - e). set (c := 4 * N + code l).
  assert (Hn : 0 ≤ n) by (unfold n; lia).
  assert (HP : 0 < 2 ^ n) by (by apply pow2_pos).
  destruct (shr_located (shr_record_of_loc N l) e n c Hn (located_init N l HN))
    as (r1 & Hshr & Hloc).
  unfold binary_round_aux, shr_fexp.
  change (fexp 53 1024) with fexp53. fold d e1 n. rewrite Hshr.
  rewrite (located_round r1 c (2 ^ n) HP Hloc).
  set (m1 := rhe c (4 * 2 ^ n)).
  replace (e + n) with e1 by (unfold n; lia).
  assert (Hd : 0 ≤ d) by (by apply Zdigits2_nonneg).
  assert (Hlt : N < 2 ^ d) by (by apply Zdigits2_lt).
  assert (Hcode : 0 ≤ code l ≤ 3) by (destruct l as [|[]]; simpl; lia).
  assert (He1 : -1074 ≤ e1) by (unfold e1, fexp53; lia).
  assert (Hm1 : 0 ≤ m1 ≤ 2 ^ 53).
  { split.
    - apply rhe_nonneg; [lia|]. unfold c. lia.
    - apply rhe_le; [lia|].
      assert (2 ^ d ≤ 2 ^ (n + 53)).
      { apply Z.pow_le_mono_r; [lia|]. unfold n, e1, fexp53. lia. }
      rewrite Z.pow_add_r in * by lia. unfold c. lia. }
  assert (Hlow : -1074 < e1 → 2 ^ 52 ≤ m1).
  { intros Hgt. assert (N ≠ 0).
    { intros ->. unfold e1, fexp53, d in *. simpl in *. lia. }
    assert (Hle := Zdigits2_le N ltac:(lia)). fold d in Hle.
    assert (Hnd : n = d - 53) by (unfold n, e1, fexp53 in *; lia).
    apply rhe_ge; [lia|].
    replace (d - 1) with (n + 52) in Hle by lia.
    rewrite Z.pow_add_r in Hle by lia. unfold c. lia. }
  destruct (Z.eq_dec m1 (2 ^ 53)) as [Heq|Hne].
  - rewrite Heq. change (2 ^ 53) with 9007199254740992.
    change (Zdigits2 9007199254740992) with 54.
    replace (fexp53 (54 + e1) - e1) with 1 by (unfold fexp53; lia).
    exists (2 ^ 52), (e1 + 1). split; [reflexivity|].
    split; [lia|]. split; [lia|]. split.
    + replace (e1 + 1 - e1) with 1 by lia. reflexivity.
    + intros _. change (2 ^ 52) with 4503599627370496.
      change (Zdigits2 4503599627370496) with 53. unfold fexp53. lia.
  - assert (Hd1 : Zdigits2 m1 ≤ 53).
    { apply Zdigits2_le_of_lt; lia. }
    rewrite shr_nonpos by (unfold fexp53; lia).
    exists m1, e1. split; [|split; [lia|split; [lia|split]]].
    + destruct m1; reflexivity.
    + rewrite Z.sub_diag. simpl. lia.
    + intros Hpos. destruct (Z.eq_dec e1 (-1074)) as [->|Hne1].
      * unfold fexp53. lia.
      * assert (52 < Zdigits2 m1).
        { apply Zdigits2_gt_of_le; [lia|]. apply Hlow. lia. }
        unfold fexp53. lia.
Qed.

(** ** Integer true division *)

Lemma pack_not_nan s m e : 0 ≤ m → is_nan (pack s m e) = false.
Proof. destruct m; [done| |lia]. intros _. simpl. by destruct (e <=? 971). Qed.

Lemma new_location_code m rem :
  0 ≤ code (new_location m rem) ≤ 3 ∧ (rem = 0 → code (new_location m rem) = 0).
Proof.
  unfold new_location, new_location_even, new_location_odd.
  destruct (Z.even m); destruct (Z.eqb_spec rem 0); simpl;
    try (split; [lia | done]).
  - destruct (2 * rem ?= m); simpl; split; (lia || done).
  - destruct (2 * rem + 1 ?= m); simpl; split; (lia || done).
Qed.

(** The division core on two positive integers: a quotient of at least
    53 bits, or one at the smallest exponent, with its remainder. *)
Lemma div_core_spec m1 m2 :
  0 < m1 → 0 < m2 →
  ∃ q e' l rem,
    SFdiv_core_binary 53 1024 m1 0 m2 0 = (q, e', l) ∧
    -1074 ≤ e' ≤ 0 ∧ 0 ≤ q ∧
    e' ≤ fexp53 (Zdigits2 q + e') ∧
    m1 * 2 ^ (- e') = q * m2 + rem ∧ 0 ≤ rem < m2 ∧
    0 ≤ code l ≤ 3 ∧ (rem = 0 → code l = 0).
Proof.
  intros H1 H2. unfold SFdiv_core_binary.
  change (fexp 53 1024) with fexp53.
  set (d1 := Zdigits2 m1). set (d2 := Zdigits2 m2).
  set (e' := Z.min (fexp53 (d1 + 0 - (d2 + 0))) (0 - 0)).
  assert (He' : -1074 ≤ e' ≤ 0) by (unfold e', fexp53; lia).
  set (sh := 0 - 0 - e').
  set (m' := match sh with Z.pos _ => Z.shiftl m1 sh | 0 => m1 | Z.neg _ => 0 end).
  assert (Hm' : m' = m1 * 2 ^ (- e')).
  { unfold m'. replace (- e') with sh by (unfold sh; lia).
    destruct sh eqn:E; [simpl; lia | | lia].
    rewrite Z.shiftl_mul_pow2 by lia. done. }
  assert (Hpow : 0 < 2 ^ (- e')) by (apply pow2_pos; lia).
  assert (Hdm := Z_div_mod m' m2 ltac:(lia)).
  destruct (Z.div_eucl m' m2) as [q rem]. destruct Hdm as [Heq Hrem].
  exists q, e', (new_location m2 rem), rem.
  assert (Hq : 0 ≤ q) by nia.
  split; [done|]. split; [done|]. split; [done|].
  split; [|split; [lia|split; [done|apply new_location_code]]].
  destruct (Z.eq_dec e' (-1074)) as [->|Hne]; [unfold fexp53; lia|].
  assert (Hd1 : 0 < d1).
  { apply (Zdigits2_gt_of_le m1 0); simpl; lia. }
  assert (Hd2 : 0 ≤ d2) by (apply Zdigits2_nonneg; lia).
  assert (Hle1 := Zdigits2_le m1 H1). fold d1 in Hle1.
  assert (Hlt2 := Zdigits2_lt m2 ltac:(lia)). fold d2 in Hlt2.
  assert (Hs : d2 + 52 ≤ d1 - 1 + - e') by (unfold e', fexp53 in *; lia).
  assert (2 ^ (d2 + 52) ≤ 2 ^ (d1 - 1 + - e')) by (apply Z.pow_le_mono_r; lia).
  rewrite !Z.pow_add_r in * by lia.
  assert (2 ^ 52 ≤ q) by nia.
  assert (52 < Zdigits2 q) by (apply Zdigits2_gt_of_le; lia).
  unfold fexp53. lia.
Qed.

(** Division of two Python ints never yields a NaN or an infinity: it
    returns a finite float or raises. *)
Lemma int_true_divide_finite a b q :
  F64.int_true_divide a b = Ok q → is_finite q = true.
Proof.
  unfold F64.int_true_divide. destruct (Z.eqb_spec b 0); [discriminate|].
  destruct a as [|pa|pa], b as [|pb|pb]; try lia; simpl;
    try (intros [= <-]; reflexivity).
  all: unfold F64.prec, F64.emax;
       destruct (div_core_spec (Zpos pa) (Zpos pb) ltac:(lia) ltac:(lia))
         as (mq & e' & l & rem & -> & He' & Hq & Hfe & _);
       cbv beta iota;
       match goal with |- context [binary_round_aux 53 1024 ?s mq e' l] =>
         destruct (binary_round_aux_spec s mq e' l Hq Hfe)
           as (m2 & e2 & -> & Hm2 & _)
       end;
       destruct m2 as [|p2|p2]; [|simpl; destruct (e2 <=? 971)|lia];
       simpl; intros [= <-]; reflexivity.
Qed.

(** A quotient of two ints [0 ≤ a ≤ b] is a float between 0 and 1; in
    particular the division does not overflow. *)
Lemma int_true_divide_unit a b :
  0 ≤ a ≤ b → 0 < b →
  ∃ q, F64.int_true_divide a b = Ok q ∧ in_range q (2 ^ 1074).
Proof.
  intros Ha Hb. unfold F64.int_true_divide.
  destruct (Z.eqb_spec b 0); [lia|].
  destruct a as [|pa|pa], b as [|pb|pb]; try lia.
  { exists (S754_zero false). done. }
  simpl. unfold F64.prec, F64.emax.
  destruct (div_core_spec (Zpos pa) (Zpos pb) ltac:(lia) ltac:(lia))
    as (mq & e' & l & rem & -> & He' & Hq & Hfe & Hdiv & Hrem & Hcode & Hexact).
  cbv beta iota.
  destruct (binary_round_aux_spec false mq e' l Hq Hfe)
    as (m2 & e2 & -> & Hm2 & He2 & Hval & Hcan).
  set (e1 := fexp53 (Zdigits2 mq + e')) in *.
  assert (Hpow : 0 < 2 ^ (- e')) by (apply pow2_pos; lia).
  assert (Hqle : mq ≤ 2 ^ (- e')) by nia.
  assert (Hc : 4 * mq + code l ≤ 4 * 2 ^ (- e')).
  { destruct (Z.eq_dec mq (2 ^ (- e'))) as [Heq|Hne]; [|lia].
    rewrite Hexact; [lia|]. nia. }
  assert (He1 : e1 ≤ 0).
  { assert (Zdigits2 mq ≤ - e' + 1).
    { apply Zdigits2_le_of_lt; [lia | lia |].
      rewrite Z.pow_add_r by lia. lia. }
    unfold e1, fexp53. lia. }
  assert (Hp1 : 0 < 2 ^ (e1 - e')) by (apply pow2_pos; lia).
  assert (Hm1 : rhe (4 * mq + code l) (4 * 2 ^ (e1 - e')) ≤ 2 ^ (- e1)).
  { apply rhe_le; [lia|].
    replace (2 ^ (- e1) * (4 * 2 ^ (e1 - e'))) with (4 * 2 ^ (- e')); [done|].
    replace (- e') with (- e1 + (e1 - e')) at 1 by lia.
    rewrite Z.pow_add_r by lia. lia. }
  rewrite <- Hval in Hm1.
  assert (Hp2 : 0 < 2 ^ (e2 - e1)) by (apply pow2_pos; lia).
  destruct m2 as [|p2|p2]; [by exists (S754_zero false)| |lia].
  assert (He2' : e2 ≤ 0).
  { destruct (Z.le_gt_cases e2 0) as [|Hgt]; [done|].
    assert (2 ^ (- e1) < 2 ^ (e2 - e1)) by (apply Z.pow_lt_mono_r; lia).
    nia. }
  unfold pack. destruct (Z.leb_spec e2 971); [|lia].
  eexists. split; [reflexivity|]. simpl. split.
  - split; [|lia]. apply (Hcan ltac:(lia)).
  - unfold Zval.
    assert (Hlo : -1074 ≤ e1) by (unfold e1, fexp53; lia).
    assert (Hp3 : 0 < 2 ^ (e1 + 1074)) by (apply pow2_pos; lia).
    assert (E1 : 2 ^ (e2 + 1074) = 2 ^ (e2 - e1) * 2 ^ (e1 + 1074)).
    { rewrite <- Z.pow_add_r by lia. f_equal. lia. }
    assert (E2 : 2 ^ 1074 = 2 ^ (- e1) * 2 ^ (e1 + 1074)).
    { rewrite <- Z.pow_add_r by lia. f_equal. lia. }
    rewrite E1, E2. nia.
Qed.

(** ** Values of canonical floats *)

Lemma Zval_split m e2 e1 :
  -1074 ≤ e1 ≤ e2 → Zval m e2 = m * 2 ^ (e2 - e1) * 2 ^ (e1 + 1074).
Proof.
  intros H. unfold Zval. rewrite <- Z.mul_assoc, <- Z.pow_add_r by lia.
  do 2 f_equal. lia.
Qed.

Lemma pow2_le_inv a b : 0 ≤ b → 2 ^ a ≤ 2 ^ b → a ≤ b.
Proof.
  intros Hb H. destruct (Z.le_gt_cases a b) as [|Hgt]; [done|].
  assert (2 ^ b < 2 ^ a) by (apply Z.pow_lt_mono_r; lia). lia.
Qed.

Lemma pow2_lt_inv a b : 0 ≤ b → 2 ^ a < 2 ^ b → a < b.
Proof.
  intros Hb H. destruct (Z.lt_ge_cases a b) as [|Hge]; [done|].
  assert (2 ^ b ≤ 2 ^ a) by (apply Z.pow_le_mono_r; lia). lia.
Qed.

Lemma canonical_exp m e : canonical m e → -1074 ≤ e ≤ 971.
Proof. unfold canonical, fexp53. lia. Qed.

Lemma Zval_digits m e :
  0 < m → -1074 ≤ e → Zdigits2 (Zval m e) = Zdigits2 m + (e + 1074).
Proof. intros. unfold Zval. apply Zdigits2_mul_pow2; lia. Qed.

(** ** Multiplying a ratio by 100 *)

Lemma Zval_hundred : Zval 7036874417766400 (-46) = 100 * 2 ^ 1074.
Proof. reflexivity. Qed.

(** A float between 0 and 1 times 100 is a float between 0 and 100. *)
Lemma mul_hundred_range q :
  in_range q (2 ^ 1074) → in_range (F64.mul q hundred) (100 * 2 ^ 1074).
Proof.
  destruct q as [[]|[]|  |[] mq eq]; cbn [in_range]; try (intros []; fail).
  { intros _. exact I. }
  intros [Hcan Hv].
  assert (Heq := canonical_exp mq eq Hcan).
  unfold F64.mul, F64.prec, F64.emax, hundred, SFmul. simpl xorb.
  set (M := 7036874417766400).
  change (Z.pos (mq * 7036874417766400)) with (Z.pos mq * M).
  set (N := Z.pos mq * M). set (e := eq + -46).
  assert (HM : 2 ^ 52 ≤ M < 2 ^ 53) by (unfold M; simpl; lia).
  assert (HN : 0 < N) by (unfold N, M; lia).
  assert (HdN : 52 < Zdigits2 N).
  { apply Zdigits2_gt_of_le; [lia|]. unfold N. nia. }
  assert (Hfe : e ≤ fexp53 (Zdigits2 N + e)) by (unfold fexp53; lia).
  destruct (binary_round_aux_spec false N e loc_Exact ltac:(lia) Hfe)
    as (m2 & e2 & -> & Hm2 & He2 & Hval & Hcan2).
  set (e1 := fexp53 (Zdigits2 N + e)) in *. simpl code in Hval.
  (* the ratio is at most one *)
  unfold Zval in Hv.
  assert (Hp0 : 0 < 2 ^ (eq + 1074)) by (apply pow2_pos; lia).
  assert (Heq0 : eq ≤ 0).
  { assert (2 ^ (eq + 1074) ≤ 2 ^ 1074) by nia.
    apply pow2_le_inv in H; lia. }
  assert (Hmq : Z.pos mq ≤ 2 ^ (- eq)).
  { assert (E : 2 ^ 1074 = 2 ^ (- eq) * 2 ^ (eq + 1074)).
    { rewrite <- Z.pow_add_r by lia. f_equal. lia. }
    rewrite E in Hv. nia. }
  assert (Hpq : 0 < 2 ^ (- eq)) by (apply pow2_pos; lia).
  assert (HNlt : N < 2 ^ (53 + - eq)).
  { rewrite Z.pow_add_r by lia. unfold N. nia. }
  assert (HdN' : Zdigits2 N ≤ 53 + - eq).
  { apply Zdigits2_le_of_lt; lia. }
  assert (He1 : -1074 ≤ e1 ≤ -46) by (unfold e1, fexp53, e; lia).
  assert (Hp1 : 0 < 2 ^ (e1 - e)) by (apply pow2_pos; lia).
  assert (Hp2 : 0 < 2 ^ (-46 - e1)) by (apply pow2_pos; lia).
  assert (Hm1 : rhe (4 * N + 0) (4 * 2 ^ (e1 - e)) ≤ M * 2 ^ (-46 - e1)).
  { apply rhe_le; [lia|].
    replace (M * 2 ^ (-46 - e1) * (4 * 2 ^ (e1 - e)))
      with (4 * M * (2 ^ (-46 - e1) * 2 ^ (e1 - e))) by lia.
    rewrite <- Z.pow_add_r by lia.
    replace (-46 - e1 + (e1 - e)) with (- eq) by (unfold e; lia).
    unfold N. nia. }
  rewrite <- Hval in Hm1.
  destruct m2 as [|p2|p2]; [done| |lia].
  assert (Hp3 : 0 < 2 ^ (e2 - e1)) by (apply pow2_pos; lia).
  assert (He2' : e2 < 7).
  { assert (2 ^ (e2 - e1) < 2 ^ (7 - e1)).
    { replace (7 - e1) with (53 + (-46 - e1)) by lia.
      rewrite (Z.pow_add_r 2 53) by lia. nia. }
    apply pow2_lt_inv in H; lia. }
  unfold pack. destruct (Z.leb_spec e2 971); [|lia].
  simpl. split.
  - split; [|lia]. apply (Hcan2 ltac:(lia)).
  - rewrite (Zval_split _ e2 e1) by lia.
    assert (Hp4 : 0 < 2 ^ (e1 + 1074)) by (apply pow2_pos; lia).
    assert (E : 100 * 2 ^ 1074 = M * 2 ^ (-46 - e1) * 2 ^ (e1 + 1074)).
    { rewrite <- Zval_hundred. unfold Zval. fold M.
      rewrite <- Z.mul_assoc, <- Z.pow_add_r by lia. do 2 f_equal. lia. }
    rewrite E. nia.
Qed.

(** ** Sums and differences of canonical floats *)

Lemma pos_iter_xO m d : Zpos (Pos.iter xO m d) = Zpos m * 2 ^ Zpos d.
Proof.
  revert m. induction d as [d IH|d IH|]; intros m; simpl Pos.iter.
  - rewrite Pos2Z.inj_xO, !IH, pow2_xI. lia.
  - rewrite !IH, pow2_xO. lia.
  - rewrite Pos2Z.inj_xO. change (2 ^ 1) with 2. lia.
Qed.

(** Aligning a mantissa to a smaller exponent keeps its value. *)
Lemma shl_align_spec m e e' :
  ∃ mz ez, shl_align m e e' = (mz, ez) ∧ ez = Z.min e e' ∧
           Zpos mz = Zpos m * 2 ^ (e - ez).
Proof.
  unfold shl_align. destruct (e' - e) as [|d|d] eqn:E.
  - exists m, e. split; [done|]. split; [lia|].
    rewrite Z.sub_diag. simpl. lia.
  - exists m, e. split; [done|]. split; [lia|].
    rewrite Z.sub_diag. simpl. lia.
  - exists (Pos.iter xO m d), e'. split; [done|]. split; [lia|].
    rewrite pos_iter_xO. do 2 f_equal. lia.
Qed.

Lemma shl_align_fst m e e' :
  e' ≤ e → Zpos (fst (shl_align m e e')) = Zpos m * 2 ^ (e - e').
Proof.
  intros H. destruct (shl_align_spec m e e') as (mz & ez & -> & -> & Hmz).
  simpl. rewrite Hmz. do 2 f_equal. lia.
Qed.

(** Rounding a positive mantissa at an exponent of at least [-1074]
    gives the canonical float whose value is the rounded value. *)
Lemma binary_round_spec s p e :
  -1074 ≤ e →
  ∃ m2 e2,
    binary_round 53 1024 s p e = pack s (Zpos m2) e2 ∧
    fexp53 (Zpos (digits2_pos m2) + e2) = e2 ∧
    Zval (Zpos m2) e2 = RN (Zval (Zpos p) e).
Proof.
  intros He. unfold binary_round. change (fexp 53 1024) with fexp53.
  set (D := Zpos (digits2_pos p) + e). set (E1 := fexp53 D).
  destruct (shl_align_spec p e E1) as (mz & ez & -> & Hez & Hmz).
  assert (HE1 : -1074 ≤ E1) by (unfold E1, fexp53; lia).
  assert (Hpz : 0 < 2 ^ (e - ez)) by (apply pow2_pos; lia).
  assert (HdN : Zdigits2 (Zpos mz) + ez = D).
  { rewrite Hmz. rewrite Zdigits2_mul_pow2 by lia. unfold D. simpl. lia. }
  assert (Hfe : ez ≤ fexp53 (Zdigits2 (Zpos mz) + ez)).
  { rewrite HdN. fold E1. lia. }
  destruct (binary_round_aux_spec s (Zpos mz) ez loc_Exact ltac:(lia) Hfe)
    as (m2 & e2 & -> & Hm2 & He2 & Hval & Hcan).
  rewrite HdN in *. fold E1 in He2, Hval. simpl code in Hval.
  assert (Hp1 : 0 < 2 ^ (E1 - ez)) by (apply pow2_pos; lia).
  replace (4 * Z.pos mz + 0) with (Z.pos mz * 4) in Hval by lia.
  replace (4 * 2 ^ (E1 - ez)) with (2 ^ (E1 - ez) * 4) in Hval by lia.
  rewrite rhe_scale in Hval by lia.
  (* the rounded mantissa is positive *)
  assert (Hpos : 0 < rhe (Z.pos mz) (2 ^ (E1 - ez))).
  { assert (Hle := Zdigits2_le (Zpos mz) ltac:(lia)).
    assert (Hdpos : 0 < Zdigits2 (Zpos mz)) by (simpl; lia).
    assert (Hsh : E1 - ez ≤ Zdigits2 (Zpos mz) - 1).
    { unfold E1, fexp53 in *. lia. }
    assert (0 < 2 ^ (Zdigits2 (Zpos mz) - 1 - (E1 - ez)))
      by (apply pow2_pos; lia).
    apply Z.lt_le_trans with (2 ^ (Zdigits2 (Zpos mz) - 1 - (E1 - ez))); [done|].
    apply rhe_ge; [done|].
    rewrite <- Z.pow_add_r by lia.
    replace (Zdigits2 (Z.pos mz) - 1 - (E1 - ez) + (E1 - ez))
      with (Zdigits2 (Zpos mz) - 1) by lia.
    done. }
  assert (Hp2 : 0 < 2 ^ (e2 - E1)) by (apply pow2_pos; lia).
  destruct m2 as [|p2|p2]; [lia| |lia].
  exists p2, e2. split; [done|]. split; [apply Hcan; lia|].
  (* values *)
  assert (HV : Zval (Zpos p) e = Zpos mz * 2 ^ (ez + 1074)).
  { unfold Zval. rewrite Hmz, <- Z.mul_assoc, <- Z.pow_add_r by lia.
    do 2 f_equal. lia. }
  assert (Hpz' : 0 < 2 ^ (ez + 1074)) by (apply pow2_pos; lia).
  unfold RN.
  assert (HdV : Zdigits2 (Zval (Zpos p) e) = D + 1074).
  { rewrite Zval_digits by lia. unfold D. simpl. lia. }
  rewrite HdV.
  replace (Z.max (D + 1074 - 53) 0) with (E1 + 1074)
    by (unfold E1, fexp53; lia).
  rewrite HV.
  replace (2 ^ (E1 + 1074)) with (2 ^ (E1 - ez) * 2 ^ (ez + 1074)) at 1.
  2:{ rewrite <- Z.pow_add_r by lia. f_equal. lia. }
  rewrite rhe_scale by lia.
  rewrite <- Hval. apply Zval_split. lia.
Qed.

Lemma Zval_align m e ez :
  -1074 ≤ ez ≤ e → Zpos m * 2 ^ (e - ez) * 2 ^ (ez + 1074) = Zval (Zpos m) e.
Proof.
  intros H. unfold Zval. rewrite <- Z.mul_assoc, <- Z.pow_add_r by lia.
  do 2 f_equal. lia.
Qed.

(** The difference of two positive floats, the first the larger: zero,
    or the canonical float of the rounded exact difference. *)
Lemma sub_pos_spec mx ex my ey :
  -1074 ≤ ex → -1074 ≤ ey →
  Zval (Zpos my) ey ≤ Zval (Zpos mx) ex →
  (Zval (Zpos mx) ex - Zval (Zpos my) ey = 0 ∧
   F64.sub (S754_finite false mx ex) (S754_finite false my ey) = S754_zero false)
  ∨
  (∃ m2 e2,
     F64.sub (S754_finite false mx ex) (S754_finite false my ey) =
       pack false (Zpos m2) e2 ∧
     fexp53 (Zpos (digits2_pos m2) + e2) = e2 ∧
     Zval (Zpos m2) e2 = RN (Zval (Zpos mx) ex - Zval (Zpos my) ey)).
Proof.
  intros Hex Hey Hle. unfold F64.sub, F64.prec, F64.emax, SFsub, cond_Zopp.
  set (ez := Z.min ex ey).
  rewrite !shl_align_fst by (unfold ez; lia).
  assert (Hez : -1074 ≤ ez) by (unfold ez; lia).
  assert (Hp : 0 < 2 ^ (ez + 1074)) by (apply pow2_pos; lia).
  assert (HX := Zval_align mx ex ez ltac:(unfold ez; lia)).
  assert (HY := Zval_align my ey ez ltac:(unfold ez; lia)).
  set (X := Z.pos mx * 2 ^ (ex - ez)) in *.
  set (Y := Z.pos my * 2 ^ (ey - ez)) in *.
  assert (HD : (X - Y) * 2 ^ (ez + 1074) =
               Zval (Zpos mx) ex - Zval (Zpos my) ey) by lia.
  destruct (X - Y) as [|pd|pd] eqn:ED.
  - left. split; [lia | reflexivity].
  - right. unfold binary_normalize.
    destruct (binary_round_spec false pd ez Hez) as (m2 & e2 & Hr & Hcan & Hv).
    exists m2, e2. split; [done|]. split; [done|].
    rewrite Hv. unfold Zval at 1. by rewrite HD.
  - exfalso. assert (Z.neg pd * 2 ^ (ez + 1074) < 0) by nia. lia.
Qed.

(** The sum of two positive floats is the canonical float of the
    rounded exact sum. *)
Lemma add_pos_spec mx ex my ey :
  -1074 ≤ ex → -1074 ≤ ey →
  ∃ m2 e2,
    F64.add (S754_finite false mx ex) (S754_finite false my ey) =
      pack false (Zpos m2) e2 ∧
    fexp53 (Zpos (digits2_pos m2) + e2) = e2 ∧
    Zval (Zpos m2) e2 = RN (Zval (Zpos mx) ex + Zval (Zpos my) ey).
Proof.
  intros Hex Hey. unfold F64.add, F64.prec, F64.emax, SFadd, cond_Zopp.
  set (ez := Z.min ex ey).
  rewrite !shl_align_fst by (unfold ez; lia).
  assert (Hez : -1074 ≤ ez) by (unfold ez; lia).
  assert (Hp : 0 < 2 ^ (ez + 1074)) by (apply pow2_pos; lia).
  assert (HX := Zval_align mx ex ez ltac:(unfold ez; lia)).
  assert (HY := Zval_align my ey ez ltac:(unfold ez; lia)).
  assert (0 < 2 ^ (ex - ez)) by (apply pow2_pos; unfold ez; lia).
  assert (0 < 2 ^ (ey - ez)) by (apply pow2_pos; unfold ez; lia).
  set (X := Z.pos mx * 2 ^ (ex - ez)) in *.
  set (Y := Z.pos my * 2 ^ (ey - ez)) in *.
  assert (HD : (X + Y) * 2 ^ (ez + 1074) =
               Zval (Zpos mx) ex + Zval (Zpos my) ey) by lia.
  assert (HXY : 0 < X + Y) by (unfold X, Y; lia).
  destruct (X + Y) as [|pd|pd] eqn:ED; [lia| |lia].
  unfold binary_normalize.
  destruct (binary_round_spec false pd ez Hez) as (m2 & e2 & Hr & Hcan & Hv).
  exists m2, e2. split; [done|]. split; [done|].
  rewrite Hv. unfold Zval at 1. by rewrite HD.
Qed.

(** ** Rounding near 100 *)

Lemma hundred_bounds : 2 ^ 1080 < 100 * 2 ^ 1074 - 2 ^ 1027 ∧
                       100 * 2 ^ 1074 + 2 ^ 1027 < 2 ^ 1081.
Proof.
  replace (2 ^ 1080) with (64 * 2 ^ 1074) by (by rewrite <- (Z.pow_add_r 2 6)).
  replace (2 ^ 1081) with (128 * 2 ^ 1074) by (by rewrite <- (Z.pow_add_r 2 7)).
  replace (2 ^ 1074) with (2 ^ 47 * 2 ^ 1027) by (by rewrite <- Z.pow_add_r).
  assert (0 < 2 ^ 1027) by (by apply pow2_pos).
  change (2 ^ 47) with 140737488355328. lia.
Qed.

(** A value of at most 100 rounds to at most 100, with an error of at
    most [2^-47]. *)
Lemma RN_below_hundred V :
  0 < V ≤ 100 * 2 ^ 1074 →
  RN V ≤ 100 * 2 ^ 1074 ∧ - 2 ^ 1028 ≤ 2 * (RN V - V) ≤ 2 ^ 1028.
Proof.
  intros HV. destruct hundred_bounds as [_ Hup].
  assert (0 < 2 ^ 1027) by (by apply pow2_pos).
  assert (Hd : Zdigits2 V ≤ 1081) by (apply Zdigits2_le_of_lt; lia).
  unfold RN. set (k := Z.max (Zdigits2 V - 53) 0).
  assert (Hk : 0 ≤ k ≤ 1028) by (unfold k; lia).
  assert (Hg : 0 < 2 ^ k) by (apply pow2_pos; lia).
  assert (Hp : 0 < 2 ^ (1028 - k)) by (apply pow2_pos; lia).
  assert (E : 2 ^ 1028 = 2 ^ (1028 - k) * 2 ^ k).
  { rewrite <- Z.pow_add_r by lia. f_equal. lia. }
  assert (EH : 100 * 2 ^ 1074 = 7036874417766400 * 2 ^ 1028).
  { replace (2 ^ 1074) with (2 ^ 46 * 2 ^ 1028) by (by rewrite <- Z.pow_add_r).
    change (2 ^ 46) with 70368744177664. lia. }
  split.
  - assert (rhe V (2 ^ k) ≤ 7036874417766400 * 2 ^ (1028 - k)).
    { apply rhe_le; [done|]. rewrite <- Z.mul_assoc, <- E. lia. }
    rewrite EH, E. nia.
  - assert (Herr := rhe_err (2 ^ k) Hg V). rewrite E. nia.
Qed.

(** A value within [2^-47] of 100 rounds to 100: a tie goes to 100,
    whose mantissa is even. *)
Lemma RN_near_hundred S :
  - 2 ^ 1028 ≤ 2 * (S - 100 * 2 ^ 1074) ≤ 2 ^ 1028 →
  RN S = 100 * 2 ^ 1074.
Proof.
  intros HS. destruct hundred_bounds as [Hlo Hup].
  assert (E28 : 2 ^ 1028 = 2 * 2 ^ 1027) by (by rewrite <- (Z.pow_add_r 2 1)).
  assert (Hd : Zdigits2 S = 1081).
  { apply Z.le_antisymm.
    - apply Zdigits2_le_of_lt; lia.
    - assert (1080 < Zdigits2 S); [|lia]. apply Zdigits2_gt_of_le; lia. }
  unfold RN. rewrite Hd. change (Z.max (1081 - 53) 0) with 1028.
  assert (Hg : 0 < 2 ^ 1028) by (by apply pow2_pos).
  assert (EH : 100 * 2 ^ 1074 = 7036874417766400 * 2 ^ 1028).
  { replace (2 ^ 1074) with (2 ^ 46 * 2 ^ 1028) by (by rewrite <- Z.pow_add_r).
    change (2 ^ 46) with 70368744177664. lia. }
  rewrite (rhe_near_even (2 ^ 1028) Hg S 7036874417766400); [lia|done|lia].
Qed.

(** 100 has one canonical representation. *)
Lemma canonical_hundred m e :
  fexp53 (Zpos (digits2_pos m) + e) = e →
  Zval (Zpos m) e = 100 * 2 ^ 1074 →
  S754_finite false m e = hundred.
Proof.
  intros Hcan Hv. destruct hundred_bounds as [Hlo Hup].
  assert (0 < 2 ^ 1027) by (by apply pow2_pos).
  assert (He : -1074 ≤ e) by (unfold fexp53 in Hcan; lia).
  assert (Hd : Zdigits2 (Zval (Zpos m) e) = 1081).
  { rewrite Hv. apply Z.le_antisymm.
    - apply Zdigits2_le_of_lt; lia.
    - assert (1080 < Zdigits2 (100 * 2 ^ 1074)); [|lia].
      apply Zdigits2_gt_of_le; lia. }
  rewrite Zval_digits in Hd by lia. simpl Zdigits2 in Hd.
  assert (e = -46) as -> by (unfold fexp53 in Hcan; lia).
  unfold Zval in Hv. change (-46 + 1074) with 1028 in Hv.
  assert (Hg : 0 < 2 ^ 1028) by (by apply pow2_pos).
  assert (EH : 100 * 2 ^ 1074 = 7036874417766400 * 2 ^ 1028).
  { replace (2 ^ 1074) with (2 ^ 46 * 2 ^ 1028) by (by rewrite <- Z.pow_add_r).
    change (2 ^ 46) with 70368744177664. lia. }
  assert (Zpos m = 7036874417766400).
  { apply (Z.mul_cancel_r _ _ (2 ^ 1028)); lia. }
  unfold hundred. congruence.
Qed.

(** A float in the range 0 to 100 compares accordingly. *)
Lemma in_range_compare f :
  in_range f (100 * 2 ^ 1074) →
  F64.leb F64.zero f = true ∧ F64.leb f hundred = true.
Proof.
  destruct f as [[]|[]| |[] m e]; cbn [in_range]; try (intros []; fail).
  { intros _. split; reflexivity. }
  intros [[Hcan He] Hv]. split; [reflexivity|].
  destruct hundred_bounds as [Hlo Hup].
  assert (0 < 2 ^ 1027) by (by apply pow2_pos).
  assert (Hlow : -1074 ≤ e) by (unfold fexp53 in Hcan; lia).
  assert (Hd : Zdigits2 (Zval (Zpos m) e) ≤ 1081).
  { apply Zdigits2_le_of_lt; [unfold Zval|lia|lia].
    assert (0 < 2 ^ (e + 1074)) by (apply pow2_pos; lia). lia. }
  rewrite Zval_digits in Hd by lia. simpl Zdigits2 in Hd.
  assert (He46 : e ≤ -46) by (unfold fexp53 in Hcan; lia).
  unfold F64.leb, SFleb, hundred, SFcompare.
  destruct (Z.compare_spec e (-46)) as [->|Hlt|Hgt]; [|done|lia].
  unfold Zval in Hv. change (-46 + 1074) with 1028 in Hv.
  assert (Hg : 0 < 2 ^ 1028) by (by apply pow2_pos).
  assert (EH : 100 * 2 ^ 1074 = 7036874417766400 * 2 ^ 1028).
  { replace (2 ^ 1074) with (2 ^ 46 * 2 ^ 1028) by (by rewrite <- Z.pow_add_r).
    change (2 ^ 46) with 70368744177664. lia. }
  assert (Hm : Zpos m ≤ 7036874417766400).
  { apply (Z.mul_le_mono_pos_r _ _ (2 ^ 1028)); lia. }
  destruct (PosDef.Pos.compare_cont Eq m 7036874417766400) eqn:E;
    try reflexivity.
  exfalso. apply Pos.compare_gt_iff in E. lia.
Qed.

(** A canonical positive float of value at most 100 is finite. *)
Lemma pack_below_hundred m e :
  fexp53 (Zpos (digits2_pos m) + e) = e →
  Zval (Zpos m) e ≤ 100 * 2 ^ 1074 →
  pack false (Zpos m) e = S754_finite false m e ∧
  in_range (S754_finite false m e) (100 * 2 ^ 1074).
Proof.
  intros Hcan Hv. destruct hundred_bounds as [_ Hup].
  assert (0 < 2 ^ 1027) by (by apply pow2_pos).
  assert (He : -1074 ≤ e) by (unfold fexp53 in Hcan; lia).
  assert (Hp : 0 < 2 ^ (e + 1074)) by (apply pow2_pos; lia).
  assert (Hlt : 2 ^ (e + 1074) < 2 ^ 1081) by (unfold Zval in Hv; nia).
  apply pow2_lt_inv in Hlt; [|lia].
  unfold pack. destruct (Z.leb_spec e 971); [|lia].
  split; [done|]. cbn [in_range]. unfold canonical. split; [split; [done|lia]|done].
Qed.

(** The heart of the score: for a risk percentage between 0 and 100,
    [100 - risk_percentage] lies between 0 and 100 and adding the
    percentage back gives exactly 100. *)
Lemma sub_hundred_spec rp :
  in_range rp (100 * 2 ^ 1074) →
  in_range (F64.sub hundred rp) (100 * 2 ^ 1074) ∧
  F64.add (F64.sub hundred rp) rp = hundred.
Proof.
  destruct rp as [[]|[]| |[] m e]; cbn [in_range]; try (intros []; fail).
  { intros _. split; [|reflexivity].
    change (F64.sub hundred (S754_zero false)) with hundred.
    unfold hundred. cbn [in_range]. split; [split; [reflexivity|lia]|].
    rewrite Zval_hundred. lia. }
  intros [[Hcan He] Hv].
  assert (Hlow : -1074 ≤ e) by (unfold fexp53 in Hcan; lia).
  assert (Hpos : 0 < Zval (Zpos m) e).
  { unfold Zval. assert (0 < 2 ^ (e + 1074)) by (apply pow2_pos; lia). lia. }
  destruct (sub_pos_spec 7036874417766400 (-46) m e ltac:(lia) Hlow)
    as [[HV0 Hs]|(m2 & e2 & Hs & Hcan2 & Hv2)].
  { rewrite Zval_hundred. lia. }
  - fold hundred in Hs. rewrite Hs. split; [exact I|].
    change (F64.add (S754_zero false) (S754_finite false m e))
      with (S754_finite false m e).
    apply canonical_hundred; [done|]. rewrite Zval_hundred in HV0. lia.
  - fold hundred in Hs. rewrite Hs. rewrite Zval_hundred in Hv2.
    set (V := 100 * 2 ^ 1074 - Zval (Zpos m) e) in *.
    assert (HVle : V ≤ 100 * 2 ^ 1074) by (unfold V; lia).
    assert (HVpos : 0 < V).
    { destruct (Z.eq_dec V 0) as [HV0|]; [|unfold V in *; lia].
      exfalso. rewrite HV0 in Hv2. change (RN 0) with 0 in Hv2.
      unfold Zval in Hv2.
      assert (-1074 ≤ e2) by (unfold fexp53 in Hcan2; lia).
      assert (0 < 2 ^ (e2 + 1074)) by (apply pow2_pos; lia). nia. }
    destruct (RN_below_hundred V ltac:(lia)) as [HRle HRerr].
    rewrite <- Hv2 in HRle, HRerr.
    destruct (pack_below_hundred m2 e2 Hcan2 HRle) as [-> Hin].
    split; [exact Hin|].
    assert (Hlow2 : -1074 ≤ e2) by (unfold fexp53 in Hcan2; lia).
    destruct (add_pos_spec m2 e2 m e Hlow2 Hlow)
      as (m3 & e3 & -> & Hcan3 & Hv3).
    rewrite RN_near_hundred in Hv3 by (unfold V in HRerr; lia).
    destruct (pack_below_hundred m3 e3 Hcan3 ltac:(lia)) as [-> _].
    by apply canonical_hundred.
Qed.

(** ** Absence of NaN *)

Lemma binary_round_pack s p e :
  ∃ m2 e2, binary_round 53 1024 s p e = pack s m2 e2 ∧ 0 ≤ m2.
Proof.
  unfold binary_round. change (fexp 53 1024) with fexp53.
  set (E1 := fexp53 (Zpos (digits2_pos p) + e)).
  destruct (shl_align_spec p e E1) as (mz & ez & -> & Hez & Hmz).
  assert (Hpz : 0 < 2 ^ (e - ez)) by (apply pow2_pos; lia).
  assert (HdN : Zdigits2 (Zpos mz) + ez = Zpos (digits2_pos p) + e).
  { rewrite Hmz. rewrite Zdigits2_mul_pow2 by lia. simpl. lia. }
  assert (Hfe : ez ≤ fexp53 (Zdigits2 (Zpos mz) + ez)).
  { rewrite HdN. fold E1. lia. }
  destruct (binary_round_aux_spec s (Zpos mz) ez loc_Exact ltac:(lia) Hfe)
    as (m2 & e2 & -> & Hm2 & _).
  by exists m2, e2.
Qed.

Lemma binary_normalize_not_nan z e :
  is_nan (binary_normalize 53 1024 z e false) = false.
Proof.
  destruct z as [|p|p]; simpl; [done| |].
  - destruct (binary_round_pack false p e) as (m2 & e2 & -> & H).
    by apply pack_not_nan.
  - destruct (binary_round_pack true p e) as (m2 & e2 & -> & H).
    by apply pack_not_nan.
Qed.

Lemma mul_hundred_not_nan q :
  is_finite q = true → is_nan (F64.mul q hundred) = false.
Proof.
  destruct q as [s|s| |s mq eq]; try done. intros _.
  unfold F64.mul, F64.prec, F64.emax, hundred, SFmul.
  set (N := Z.pos (mq * 7036874417766400)). set (e := eq + -46).
  assert (52 < Zdigits2 N).
  { apply Zdigits2_gt_of_le; [lia|]. unfold N.
    change (2 ^ 52) with 4503599627370496. lia. }
  assert (Hfe : e ≤ fexp53 (Zdigits2 N + e)) by (unfold fexp53; lia).
  destruct (binary_round_aux_spec (xorb s false) N e loc_Exact ltac:(lia) Hfe)
    as (m2 & e2 & -> & Hm2 & _).
  by apply pack_not_nan.
Qed.

Lemma sub_hundred_not_nan x :
  is_nan x = false → is_nan (F64.sub hundred x) = false.
Proof.
  destruct x as [s|s| |s m e]; try done. intros _.
  unfold F64.sub, F64.prec, F64.emax, hundred, SFsub.
  apply binary_normalize_not_nan.
Qed.

(** ** Comparisons *)

Lemma SFcompare_antisym x y :
  SFcompare x y = CompOpp <$> SFcompare y x.
Proof.
  destruct x as [sx|sx| |sx mx ex], y as [sy|sy| |sy my ey];
    try destruct sx; try destruct sy; try reflexivity; simpl;
    rewrite (Z.compare_antisym ey ex);
    destruct (ey ?= ex); simpl; try reflexivity;
    rewrite (Pos.compare_cont_antisym my mx Eq); simpl;
    by rewrite ?CompOpp_involutive.
Qed.

(** Away from NaN, [x < y] is the negation of [y <= x]. *)
Lemma ltb_not_leb x y :
  is_nan x = false → is_nan y = false →
  F64.ltb x y = negb (F64.leb y x).
Proof.
  intros Hx Hy. unfold F64.ltb, F64.leb, SFltb, SFleb.
  rewrite (SFcompare_antisym x y).
  destruct (SFcompare y x) as [[]|] eqn:E; simpl; try reflexivity.
  destruct x, y; try discriminate; simpl in E;
    repeat match type of E with
           | context [if ?b then _ else _] => destruct b
           end; discriminate.
Qed.

(** Below 50 is below 80. *)
Lemma below_fifty_below_eighty x :
  F64.leb (F64.of_int 50) x = false → F64.leb (F64.of_int 80) x = false.
Proof.
  change (F64.of_int 50) with (S754_finite false 7036874417766400 (-47)).
  change (F64.of_int 80) with (S754_finite false 5629499534213120 (-46)).
  unfold F64.leb, SFleb.
  destruct x as [s|[]| |[] m e]; cbv beta iota delta [SFcompare]; try done.
  destruct (Z.compare_spec (-47) e) as [<-|Hlt|Hgt]; try done.
  destruct (Z.compare_spec (-46) e) as [<-|Hlt'|Hgt']; try done; lia.
Qed.

(** ** The result monad *)

Lemma bind_Ok {A B} (a : A) (k : A → result B) : (x ← Ok a; k x) = k a.
Proof. reflexivity. Qed.

Lemma bind_Ok_inv {A B} (r : result A) (k : A → result B) (b : B) :
  (x ← r; k x) = Ok b → ∃ a, r = Ok a ∧ k a = Ok b.
Proof. destruct r as [a|e]; [eauto | discriminate]. Qed.

(** ** Ordered dicts *)

Section ordered_dict.
Context {V : Type}.
Implicit Types (d : OrderedDict.t V) (k : string) (v : V).

Lemma od_get_None d k : OrderedDict.get d k = None ↔ k ∉ OrderedDict.keys d.
Proof.
  induction d as [|[k' v'] d IH]; simpl.
  - split; [intros _; apply not_elem_of_nil | done].
  - destruct (String.eqb_spec k' k) as [->|Hne].
    + split; [done | intros H; exfalso; apply H; left].
    + rewrite IH, not_elem_of_cons. split; [intros ?; split; congruence | tauto].
Qed.

Lemma od_get_set d k v k' :
  OrderedDict.get (OrderedDict.set d k v) k' =
  if decide (k = k') then Some v else OrderedDict.get d k'.
Proof.
  induction d as [|[k0 v0] d IH]; simpl.
  - destruct (String.eqb_spec k k'); case_decide; congruence.
  - destruct (String.eqb_spec k0 k) as [->|Hne]; simpl.
    + destruct (String.eqb_spec k k'); case_decide; congruence.
    + destruct (String.eqb_spec k0 k') as [->|Hne'].
      * case_decide; congruence.
      * apply IH.
Qed.

Lemma od_set_fresh d k v :
  k ∉ OrderedDict.keys d → OrderedDict.set d k v = d ++ [(k, v)].
Proof.
  induction d as [|[k0 v0] d IH]; simpl; [done|].
  rewrite not_elem_of_cons. intros [Hne Hni].
  destruct (String.eqb_spec k0 k); [congruence|]. by rewrite IH.
Qed.

Lemma od_keys_set_old d k v :
  k ∈ OrderedDict.keys d →
  OrderedDict.keys (OrderedDict.set d k v) = OrderedDict.keys d.
Proof.
  induction d as [|[k0 v0] d IH]; simpl.
  - intros H. by apply elem_of_nil in H.
  - intros H. destruct (String.eqb_spec k0 k) as [->|Hne]; [done|].
    simpl. f_equal. apply IH.
    apply elem_of_cons in H as [->|H]; [done | exact H].
Qed.

(** Assigning to a key appends it when it is new and keeps the order
    otherwise. *)
Lemma od_keys_set d k v :
  OrderedDict.keys (OrderedDict.set d k v) =
  if bool_decide (k ∈ OrderedDict.keys d) then OrderedDict.keys d
  else OrderedDict.keys d ++ [k].
Proof.
  case_bool_decide as H.
  - by apply od_keys_set_old.
  - rewrite od_set_fresh by done. unfold OrderedDict.keys.
    by rewrite fmap_app.
Qed.

Lemma od_keys_setdefault d k v :
  OrderedDict.keys (OrderedDict.setdefault d k v) =
  if bool_decide (k ∈ OrderedDict.keys d) then OrderedDict.keys d
  else OrderedDict.keys d ++ [k].
Proof.
  unfold OrderedDict.setdefault.
  destruct (OrderedDict.get d k) as [v0|] eqn:Hg.
  - rewrite bool_decide_eq_true_2; [done|].
    destruct (decide (k ∈ OrderedDict.keys d)) as [|Hn]; [done|].
    apply od_get_None in Hn. congruence.
  - apply od_keys_set.
Qed.

Lemma od_get_setdefault d k v k' :
  OrderedDict.get (OrderedDict.setdefault d k v) k' =
  if decide (k = k') then Some (default v (OrderedDict.get d k))
  else OrderedDict.get d k'.
Proof.
  unfold OrderedDict.setdefault.
  destruct (OrderedDict.get d k) as [v0|] eqn:Hg.
  - case_decide; [subst; by rewrite Hg | done].
  - rewrite od_get_set. by case_decide.
Qed.

End ordered_dict.

(** ** Order of first occurrence *)

Lemma foldl_add_key (l seen : list string) :
  foldl add_key seen l =
  seen ++ filter (λ y, y ∉ seen) (first_occurrences l).
Proof.
  revert seen. induction l as [|x l IH]; intros seen; simpl.
  - by rewrite app_nil_r.
  - rewrite IH. unfold add_key. rewrite filter_cons.
    case_bool_decide as Hx.
    + rewrite decide_False by tauto. f_equal.
      rewrite list_filter_filter. apply list_filter_iff.
      intros y. split; [|tauto]. intros Hy. split; [done|]. congruence.
    + rewrite decide_True by done. rewrite <- app_assoc. simpl. do 2 f_equal.
      rewrite list_filter_filter. apply list_filter_iff.
      intros y. rewrite not_elem_of_app, not_elem_of_cons.
      split; [intros [? [? _]]; tauto | intros [? ?]; split; [done|]].
      split; [done | apply not_elem_of_nil].
Qed.

Lemma filter_all {A} (P : A → Prop) `{!∀ x, Decision (P x)} (l : list A) :
  (∀ x, P x) → filter P l = l.
Proof.
  intros HP. induction l as [|x l IH]; [done|].
  rewrite filter_cons_True by done. by rewrite IH.
Qed.

Lemma foldl_add_key_nil (l : list string) :
  foldl add_key [] l = first_occurrences l.
Proof.
  rewrite foldl_add_key. simpl. apply filter_all.
  intros y. apply not_elem_of_nil.
Qed.

Lemma first_occurrences_elem (l : list string) (x : string) :
  x ∈ first_occurrences l ↔ x ∈ l.
Proof.
  induction l as [|y l IH]; simpl; [done|].
  rewrite !elem_of_cons, list_elem_of_filter, IH.
  destruct (decide (x = y)); tauto.
Qed.

Lemma first_occurrences_NoDup (l : list string) : NoDup (first_occurrences l).
Proof.
  induction l as [|y l IH]; simpl; [constructor|].
  constructor.
  - rewrite list_elem_of_filter. tauto.
  - by apply NoDup_filter.
Qed.

(** ** The first loop of [calculate_scores] *)

Lemma has_fields_inv (q : question) :
  has_fields q = true →
  ∃ qid p w, q_id q = Some qid ∧ q_pillar q = Some p ∧ q_weight q = Some w.
Proof.
  unfold has_fields. destruct q as [[i|] [p|] [w|] g]; simpl; try discriminate.
  intros _. by eexists _, _, _.
Qed.

Lemma valid_question_inv (q : question) :
  valid_question q = true → has_fields q = true ∧ 0 ≤ weight_of q.
Proof.
  unfold valid_question. rewrite andb_true_iff, Z.leb_le. tauto.
Qed.

Lemma valid_catalog_fields (questions : list question) :
  valid_catalog questions → Forall (λ q, has_fields q = true) questions.
Proof.
  intros H. eapply Forall_impl; [exact H|].
  intros q Hq. by apply valid_question_inv in Hq as [? _].
Qed.

Lemma total_weight_cons q qs :
  total_weight (q :: qs) = weight_of q + total_weight qs.
Proof. reflexivity. Qed.

Lemma sum_weights_total (questions : list question) (acc : Z) :
  Forall (λ q, has_fields q = true) questions →
  sum_weights acc questions = Ok (acc + total_weight questions).
Proof.
  intros H. revert acc. induction H as [|q qs Hq _ IH]; intros acc; simpl.
  - f_equal. unfold total_weight. simpl. lia.
  - apply has_fields_inv in Hq as (i & p & w & _ & _ & Hw).
    rewrite Hw. simpl. rewrite IH. f_equal.
    rewrite total_weight_cons. unfold weight_of. rewrite Hw. simpl. lia.
Qed.

Lemma total_risk_cons answers q qs :
  total_risk answers (q :: qs) = risk_of answers q + total_risk answers qs.
Proof. reflexivity. Qed.

Lemma pillar_weight_cons p q qs :
  pillar_weight p (q :: qs) =
  (if in_pillar p q then weight_of q else 0) + pillar_weight p qs.
Proof.
  unfold pillar_weight. rewrite filter_cons.
  destruct (in_pillar p q); reflexivity.
Qed.

Lemma pillar_risk_of_cons answers p q qs :
  pillar_risk_of answers p (q :: qs) =
  (if in_pillar p q then risk_of answers q else 0) + pillar_risk_of answers p qs.
Proof.
  unfold pillar_risk_of. rewrite filter_cons.
  destruct (in_pillar p q); reflexivity.
Qed.

(** What one iteration does to the accumulators. *)
Lemma score_step_spec answers st q :
  has_fields q = true →
  ∃ st' p,
    q_pillar q = Some p ∧
    score_step answers st q = Ok st' ∧
    st_risk_points st' = st_risk_points st + risk_of answers q ∧
    (∀ p', OrderedDict.get_default (st_pillar_max st') p' 0 =
           OrderedDict.get_default (st_pillar_max st) p' 0 +
           (if in_pillar p' q then weight_of q else 0)) ∧
    (∀ p', OrderedDict.get_default (st_pillar_risk st') p' 0 =
           OrderedDict.get_default (st_pillar_risk st) p' 0 +
           (if in_pillar p' q then risk_of answers q else 0)) ∧
    OrderedDict.keys (st_pillar_max st') =
      add_key (OrderedDict.keys (st_pillar_max st)) p ∧
    OrderedDict.keys (st_pillar_risk st') =
      add_key (OrderedDict.keys (st_pillar_risk st)) p.
Proof.
  intros Hq. apply has_fields_inv in Hq as (i & p & w & Hi & Hp & Hw).
  unfold score_step, risk_of, answered_unsafely, weight_of, in_pillar.
  rewrite Hi, Hp, Hw. simpl.
  destruct (is_unsafe (answers !! i) (good_answer_of q)) eqn:Hu;
    eexists _, p; (split; [reflexivity|]); (split; [reflexivity|]); simpl.
  - split; [done|]. split; [|split; [|split]].
    + intros p'. unfold OrderedDict.get_default at 1. rewrite od_get_set.
      case_decide as Hpp.
      * subst p'. rewrite bool_decide_eq_true_2 by done. done.
      * rewrite bool_decide_eq_false_2 by congruence.
        unfold OrderedDict.get_default. lia.
    + intros p'. unfold OrderedDict.get_default at 1. rewrite od_get_set.
      case_decide as Hpp.
      * subst p'. rewrite bool_decide_eq_true_2 by done. done.
      * rewrite bool_decide_eq_false_2 by congruence.
        unfold OrderedDict.get_default. lia.
    + apply od_keys_set.
    + apply od_keys_set.
  - split; [lia|]. split; [|split; [|split]].
    + intros p'. unfold OrderedDict.get_default at 1. rewrite od_get_set.
      case_decide as Hpp.
      * subst p'. rewrite bool_decide_eq_true_2 by done. done.
      * rewrite bool_decide_eq_false_2 by congruence.
        unfold OrderedDict.get_default. lia.
    + intros p'. unfold OrderedDict.get_default at 1.
      rewrite od_get_setdefault.
      case_decide as Hpp.
      * subst p'. rewrite bool_decide_eq_true_2 by done.
        unfold OrderedDict.get_default.
        destruct (OrderedDict.get (st_pillar_risk st) p); simpl; lia.
      * rewrite bool_decide_eq_false_2 by congruence.
        unfold OrderedDict.get_default. lia.
    + apply od_keys_set.
    + apply od_keys_setdefault.
Qed.

Lemma pillars_cons q qs p :
  q_pillar q = Some p → pillars (q :: qs) = p :: pillars qs.
Proof. unfold pillars. simpl. by intros ->. Qed.

(** The loop, started in any state, adds the risk of the unsafe answers
    and the per-pillar sums, and records new pillars in the order met. *)
Lemma score_loop_spec answers questions :
  Forall (λ q, has_fields q = true) questions →
  ∀ st, ∃ st',
    score_loop answers st questions = Ok st' ∧
    st_risk_points st' = st_risk_points st + total_risk answers questions ∧
    (∀ p, OrderedDict.get_default (st_pillar_max st') p 0 =
          OrderedDict.get_default (st_pillar_max st) p 0 +
          pillar_weight p questions) ∧
    (∀ p, OrderedDict.get_default (st_pillar_risk st') p 0 =
          OrderedDict.get_default (st_pillar_risk st) p 0 +
          pillar_risk_of answers p questions) ∧
    OrderedDict.keys (st_pillar_max st') =
      foldl add_key (OrderedDict.keys (st_pillar_max st)) (pillars questions) ∧
    OrderedDict.keys (st_pillar_risk st') =
      foldl add_key (OrderedDict.keys (st_pillar_risk st)) (pillars questions).
Proof.
  induction 1 as [|q qs Hq _ IH]; intros st.
  - exists st. simpl. unfold total_risk, pillar_weight, pillar_risk_of,
      total_risk, total_weight. simpl.
    repeat split; try done; intros; lia.
  - destruct (score_step_spec answers st q Hq)
      as (st1 & p & Hp & Hstep & Hr & Hm & Hk & Hkm & Hkr).
    destruct (IH st1) as (st' & Hloop & Hr' & Hm' & Hk' & Hkm' & Hkr').
    exists st'. rewrite (pillars_cons q qs p Hp), total_risk_cons.
    split; [simpl; rewrite Hstep; exact Hloop|].
    split; [lia|]. split; [|split; [|split]].
    + intros p'. rewrite Hm', Hm, pillar_weight_cons. lia.
    + intros p'. rewrite Hk', Hk, pillar_risk_of_cons. lia.
    + by rewrite Hkm', Hkm.
    + by rewrite Hkr', Hkr.
Qed.

Lemma score_loop_fields answers questions :
  ∀ st st', score_loop answers st questions = Ok st' →
            Forall (λ q, has_fields q = true) questions.
Proof.
  induction questions as [|q qs IH]; intros st st' H; [constructor|].
  simpl in H. apply bind_Ok_inv in H as (st1 & Hstep & Hloop).
  constructor; [|by eapply IH].
  unfold score_step, has_fields in *.
  destruct (q_pillar q), (q_weight q), (q_id q); simpl in *; done.
Qed.

(** ** Risk never exceeds weight in a valid catalog *)

Lemma risk_of_bounds answers q :
  0 ≤ weight_of q → 0 ≤ risk_of answers q ≤ weight_of q.
Proof. unfold risk_of. destruct (answered_unsafely answers q); lia. Qed.

Lemma total_risk_bounds answers questions :
  Forall (λ q, 0 ≤ weight_of q) questions →
  0 ≤ total_risk answers questions ≤ total_weight questions.
Proof.
  induction 1 as [|q qs Hq _ IH].
  - unfold total_risk, total_weight. simpl. lia.
  - rewrite total_risk_cons, total_weight_cons.
    pose proof (risk_of_bounds answers q Hq). lia.
Qed.

Lemma valid_catalog_weights questions :
  valid_catalog questions → Forall (λ q, 0 ≤ weight_of q) questions.
Proof.
  intros H. eapply Forall_impl; [exact H|].
  intros q Hq. by apply valid_question_inv in Hq as [_ ?].
Qed.

Lemma pillar_risk_bounds answers p questions :
  Forall (λ q, 0 ≤ weight_of q) questions →
  0 ≤ pillar_risk_of answers p questions ≤ pillar_weight p questions.
Proof.
  intros H. apply total_risk_bounds.
  rewrite Forall_forall in *. intros q Hq.
  apply list_elem_of_filter in Hq as [_ Hq]. by apply H.
Qed.

(** ** Percentages and pillar scores *)

Lemma risk_percentage_in_range r m :
  0 ≤ r ≤ m →
  ∃ rp, risk_percentage_of r m = Ok rp ∧ in_range rp (100 * 2 ^ 1074).
Proof.
  intros Hr. unfold risk_percentage_of.
  destruct (Z.eqb_spec m 0) as [->|Hne].
  - exists F64.zero. split; [done|]. exact I.
  - destruct (int_true_divide_unit r m Hr ltac:(lia)) as (q & -> & Hq).
    eexists. split; [reflexivity|].
    change (F64.of_int 100) with hundred. by apply mul_hundred_range.
Qed.

Lemma expected_pillar_score_in_range r m :
  0 ≤ r ≤ m →
  ∃ v, expected_pillar_score r m = Ok v ∧ in_range v (100 * 2 ^ 1074).
Proof.
  intros Hr. unfold expected_pillar_score.
  destruct (Z.eqb_spec m 0) as [->|Hne].
  - exists hundred. split; [done|].
    unfold hundred. cbn [in_range]. split; [split; [reflexivity|lia]|].
    rewrite Zval_hundred. lia.
  - destruct (int_true_divide_unit r m Hr ltac:(lia)) as (q & -> & Hq).
    eexists. split; [reflexivity|].
    change (F64.of_int 100) with hundred.
    apply sub_hundred_spec. by apply mul_hundred_range.
Qed.

Lemma pillar_score_expected pillar_risk p max_w :
  pillar_score pillar_risk p max_w =
  expected_pillar_score (OrderedDict.get_default pillar_risk p 0) max_w.
Proof. reflexivity. Qed.

(** ** The second loop of [calculate_scores] *)

Lemma od_get_elem {V} (d : OrderedDict.t V) k v :
  NoDup (OrderedDict.keys d) → (k, v) ∈ d → OrderedDict.get d k = Some v.
Proof.
  induction d as [|[k0 v0] d IH]; simpl; intros Hnd Hin.
  - by apply elem_of_nil in Hin.
  - apply NoDup_cons in Hnd as [Hk0 Hnd].
    apply elem_of_cons in Hin as [[= -> ->]|Hin].
    + by rewrite String.eqb_refl.
    + destruct (String.eqb_spec k0 k) as [->|Hne]; [|by apply IH].
      exfalso. apply Hk0. change k with ((k, v).1).
      by apply list_elem_of_fmap_2.
Qed.

(** A run of the loop that returns has appended one score per item, in
    the order of the items. *)
Lemma pillar_loop_Ok pillar_risk items :
  ∀ acc res,
    NoDup (OrderedDict.keys acc ++ OrderedDict.keys items) →
    pillar_loop pillar_risk acc items = Ok res →
    ∃ vs, res = acc ++ vs ∧
          Forall2 (λ it pv, pv.1 = it.1 ∧
                            pillar_score pillar_risk it.1 it.2 = Ok pv.2)
                  items vs.
Proof.
  induction items as [|[p mw] items IH]; intros acc res Hnd H; simpl in H.
  - injection H as <-. exists []. by rewrite app_nil_r.
  - apply bind_Ok_inv in H as (v & Hv & Hloop).
    simpl in Hnd. apply NoDup_app in Hnd as (Hacc & Hdisj & Hitems).
    apply NoDup_cons in Hitems as [Hp Hitems].
    assert (Hfresh : p ∉ OrderedDict.keys acc).
    { intros Hin. apply (Hdisj p Hin). left. }
    rewrite od_set_fresh in Hloop by done.
    apply IH in Hloop as (vs & -> & Hall).
    + exists ((p, v) :: vs). rewrite <- app_assoc. split; [done|].
      constructor; [done | exact Hall].
    + unfold OrderedDict.keys. rewrite fmap_app. simpl.
      rewrite <- app_assoc. simpl.
      apply NoDup_app. split; [done|]. split.
      * intros x Hx Hx'. apply elem_of_cons in Hx' as [->|Hx']; [done|].
        apply (Hdisj x Hx). by right.
      * by constructor.
Qed.

Lemma pillar_loop_succeeds pillar_risk items :
  ∀ acc,
    Forall (λ it, succeeds (pillar_score pillar_risk it.1 it.2)) items →
    succeeds (pillar_loop pillar_risk acc items).
Proof.
  induction items as [|[p mw] items IH]; intros acc H; simpl.
  - by eexists.
  - apply Forall_cons in H as [[v Hv] H]. simpl in Hv. rewrite Hv. simpl.
    by apply IH.
Qed.

(** ** [calculate_scores] on a catalog with all its fields *)

Lemma calculate_scores_unfold questions answers :
  Forall (λ q, has_fields q = true) questions →
  ∃ st,
    score_loop answers init_state questions = Ok st ∧
    st_risk_points st = total_risk answers questions ∧
    (∀ p, OrderedDict.get_default (st_pillar_max st) p 0 =
          pillar_weight p questions) ∧
    (∀ p, OrderedDict.get_default (st_pillar_risk st) p 0 =
          pillar_risk_of answers p questions) ∧
    OrderedDict.keys (st_pillar_max st) = first_occurrences (pillars questions) ∧
    calculate_scores questions answers =
      (rp ← risk_percentage_of (total_risk answers questions)
                               (total_weight questions);
       ps ← pillar_loop (st_pillar_risk st) OrderedDict.empty (st_pillar_max st);
       Ok ({| risk_points := total_risk answers questions;
              max_risk := total_weight questions;
              risk_percentage := rp;
              security_score := F64.sub (F64.of_int 100) rp;
              risk_level := risk_level_of (F64.sub (F64.of_int 100) rp) |},
           ps)).
Proof.
  intros Hf.
  destruct (score_loop_spec answers questions Hf init_state)
    as (st & Hloop & Hr & Hm & Hk & Hkm & _).
  exists st. split; [done|]. simpl in Hr. split; [done|].
  split; [intros p; rewrite Hm; done|].
  split; [intros p; rewrite Hk; done|].
  split; [rewrite Hkm; apply foldl_add_key_nil|].
  unfold calculate_scores.
  rewrite (sum_weights_total questions 0 Hf), Hloop. simpl.
  by rewrite Hr.
Qed.

Lemma calculate_scores_fields questions answers r :
  calculate_scores questions answers = Ok r →
  Forall (λ q, has_fields q = true) questions.
Proof.
  unfold calculate_scores. intros H.
  apply bind_Ok_inv in H as (m & _ & H).
  apply bind_Ok_inv in H as (st & Hloop & _).
  by eapply score_loop_fields.
Qed.

(** On a valid catalog both loops and both divisions go through. *)
Lemma calculate_scores_valid questions answers :
  valid_catalog questions →
  ∃ rp ps,
    in_range rp (100 * 2 ^ 1074) ∧
    calculate_scores questions answers =
      Ok ({| risk_points := total_risk answers questions;
             max_risk := total_weight questions;
             risk_percentage := rp;
             security_score := F64.sub (F64.of_int 100) rp;
             risk_level := risk_level_of (F64.sub (F64.of_int 100) rp) |},
          ps).
Proof.
  intros Hv.
  assert (Hf := valid_catalog_fields questions Hv).
  assert (Hw := valid_catalog_weights questions Hv).
  destruct (calculate_scores_unfold questions answers Hf)
    as (st & _ & _ & Hm & Hk & Hkeys & ->).
  destruct (risk_percentage_in_range (total_risk answers questions)
              (total_weight questions)) as (rp & -> & Hrp).
  { by apply total_risk_bounds. }
  destruct (pillar_loop_succeeds (st_pillar_risk st) (st_pillar_max st)
              OrderedDict.empty) as [ps Hps].
  { assert (Hnd : NoDup (OrderedDict.keys (st_pillar_max st))).
    { rewrite Hkeys. apply first_occurrences_NoDup. }
    apply Forall_forall. intros [p mw] Hin. simpl.
    rewrite pillar_score_expected, Hk.
    assert (Hmw : mw = pillar_weight p questions).
    { rewrite <- Hm. unfold OrderedDict.get_default.
      by rewrite (od_get_elem _ p mw Hnd Hin). }
    subst mw.
    destruct (expected_pillar_score_in_range
                (pillar_risk_of answers p questions)
                (pillar_weight p questions)) as (v & Hv' & _).
    { by apply pillar_risk_bounds. }
    by exists v. }
  exists rp, ps. split; [done|]. simpl. rewrite Hps. done.
Qed.

(** * The claims *)

(** C5. For the empty catalog and any answers, [calculate_scores]
    returns [max_risk = 0], [risk_percentage = 0.0],
    [security_score = 100.0], [risk_level = "LOW"] and an empty
    [pillar_scores] mapping. *)
Theorem empty_catalog_scores (answers : gmap string string) :
  calculate_scores [] answers =
  Ok ({| risk_points := 0;
         max_risk := 0;
         risk_percentage := F64.zero;
         security_score := F64.of_int 100;
         risk_level := "LOW" |},
      OrderedDict.empty).
Proof. reflexivity. Qed.

Lemma valid_catalog_intro questions :
  Forall (λ q, has_fields q = true) questions →
  Forall (λ q, 0 ≤ weight_of q) questions →
  valid_catalog questions.
Proof.
  intros Hf Hw. unfold valid_catalog. rewrite Forall_forall in *.
  intros q Hq. unfold valid_question.
  rewrite (Hf q Hq). simpl. apply Z.leb_le. by apply Hw.
Qed.

(** C1. For every catalog whose weights are all non-negative and every
    answers mapping, the summary returned by [calculate_scores]
    satisfies [security_score + risk_percentage == 100] and
    [0 <= security_score <= 100]. The sum is the binary64 sum and the
    equality is exact; a summary is returned whenever the records have
    their fields. *)
Theorem score_plus_risk_is_100 questions answers :
  Forall (λ q, 0 ≤ weight_of q) questions →
  (Forall (λ q, has_fields q = true) questions →
   succeeds (calculate_scores questions answers)) ∧
  ∀ s ps,
    calculate_scores questions answers = Ok (s, ps) →
    F64.eqb (F64.add (security_score s) (risk_percentage s)) (F64.of_int 100)
      = true ∧
    F64.leb (F64.of_int 0) (security_score s) = true ∧
    F64.leb (security_score s) (F64.of_int 100) = true.
Proof.
  intros Hw. split.
  { intros Hf.
    destruct (calculate_scores_valid questions answers
                (valid_catalog_intro _ Hf Hw)) as (rp & ps & _ & ->).
    by eexists. }
  intros s ps Hcalc.
  assert (Hf := calculate_scores_fields _ _ _ Hcalc).
  destruct (calculate_scores_valid questions answers
              (valid_catalog_intro _ Hf Hw)) as (rp & ps' & Hrp & Heq).
  rewrite Heq in Hcalc.
  assert (Hs : s = {| risk_points := total_risk answers questions;
                      max_risk := total_weight questions;
                      risk_percentage := rp;
                      security_score := F64.sub (F64.of_int 100) rp;
                      risk_level := risk_level_of (F64.sub (F64.of_int 100) rp) |})
    by congruence.
  rewrite Hs. cbn [security_score risk_percentage].
  change (F64.of_int 100) with hundred.
  destruct (sub_hundred_spec rp Hrp) as [Hss ->].
  destruct (in_range_compare _ Hss) as [H0 H100].
  split; [reflexivity|]. split; [exact H0 | exact H100].
Qed.

Lemma score_plus_risk_is_100_witness :
  ∃ s ps,
    calculate_scores catalog_two answers_two = Ok (s, ps) ∧
    F64.eqb (F64.add (security_score s) (risk_percentage s)) (F64.of_int 100)
      = true ∧
    F64.leb (F64.of_int 0) (security_score s) = true ∧
    F64.leb (security_score s) (F64.of_int 100) = true.
Proof.
  destruct (score_plus_risk_is_100 catalog_two answers_two) as [Hok Hsum].
  - repeat constructor; discriminate.
  - destruct Hok as [[s ps] Hs]; [repeat constructor|].
    exists s, ps. split; [exact Hs|]. by apply (Hsum s ps).
Defined.

(** ** Risk tiers *)

Lemma risk_percentage_not_nan r m rp :
  risk_percentage_of r m = Ok rp → is_nan rp = false.
Proof.
  unfold risk_percentage_of. destruct (m =? 0); [by intros [= <-]|].
  intros H. apply bind_Ok_inv in H as (q & Hq & [= <-]).
  change (F64.of_int 100) with hundred.
  apply mul_hundred_not_nan. by eapply int_true_divide_finite.
Qed.

Lemma risk_level_of_spec ss :
  is_nan ss = false →
  (risk_level_of ss = "LOW" ↔ F64.leb (F64.of_int 80) ss = true) ∧
  (risk_level_of ss = "MEDIUM" ↔
     F64.leb (F64.of_int 50) ss = true ∧ F64.ltb ss (F64.of_int 80) = true) ∧
  (risk_level_of ss = "HIGH" ↔ F64.ltb ss (F64.of_int 50) = true).
Proof.
  intros Hnan.
  rewrite !(ltb_not_leb ss) by done.
  assert (H5080 := below_fifty_below_eighty ss).
  unfold risk_level_of.
  destruct (F64.leb (F64.of_int 80) ss) eqn:E80;
    destruct (F64.leb (F64.of_int 50) ss) eqn:E50; simpl;
    try (specialize (H5080 eq_refl); discriminate);
    repeat split; try done; intros; try discriminate;
    try (destruct_and?; discriminate).
Qed.

(** C2. For every input on which [calculate_scores] returns, the
    [risk_level] is "LOW" exactly when [security_score >= 80],
    "MEDIUM" exactly when [50 <= security_score < 80] and "HIGH"
    exactly when [security_score < 50]; a score of exactly 80.0 gives
    "LOW" and one of exactly 50.0 gives "MEDIUM". *)
Theorem risk_level_thresholds questions answers s ps :
  calculate_scores questions answers = Ok (s, ps) →
  (risk_level s = "LOW" ↔ F64.leb (F64.of_int 80) (security_score s) = true) ∧
  (risk_level s = "MEDIUM" ↔
     F64.leb (F64.of_int 50) (security_score s) = true ∧
     F64.ltb (security_score s) (F64.of_int 80) = true) ∧
  (risk_level s = "HIGH" ↔ F64.ltb (security_score s) (F64.of_int 50) = true) ∧
  (security_score s = F64.of_int 80 → risk_level s = "LOW") ∧
  (security_score s = F64.of_int 50 → risk_level s = "MEDIUM").
Proof.
  intros Hcalc.
  assert (Hf := calculate_scores_fields _ _ _ Hcalc).
  destruct (calculate_scores_unfold questions answers Hf)
    as (st & _ & _ & _ & _ & _ & Heq).
  rewrite Heq in Hcalc.
  apply bind_Ok_inv in Hcalc as (rp & Hrp & Hcalc).
  apply bind_Ok_inv in Hcalc as (ps' & _ & Hcalc).
  assert (Hs : s = {| risk_points := total_risk answers questions;
                      max_risk := total_weight questions;
                      risk_percentage := rp;
                      security_score := F64.sub (F64.of_int 100) rp;
                      risk_level := risk_level_of (F64.sub (F64.of_int 100) rp) |})
    by congruence.
  rewrite Hs. cbn [security_score risk_level].
  assert (Hnan : is_nan (F64.sub (F64.of_int 100) rp) = false).
  { change (F64.of_int 100) with hundred. apply sub_hundred_not_nan.
    by eapply risk_percentage_not_nan. }
  destruct (risk_level_of_spec _ Hnan) as (HL & HM & HH).
  split; [exact HL|]. split; [exact HM|]. split; [exact HH|].
  split; intros ->; reflexivity.
Qed.

Lemma risk_level_thresholds_witness :
  ∃ s ps,
    calculate_scores catalog_eighty answers_two = Ok (s, ps) ∧
    security_score s = F64.of_int 80 ∧
    risk_level s = "LOW" ∧
    F64.leb (F64.of_int 80) (security_score s) = true.
Proof.
  eexists _, _. split; [vm_compute; reflexivity|].
  split; [vm_compute; reflexivity|].
  assert (H := risk_level_thresholds catalog_eighty answers_two _ _
                 ltac:(vm_compute; reflexivity)).
  destruct H as (HL & _ & _ & H80 & _).
  split; [apply H80; vm_compute; reflexivity|].
  apply HL. apply H80. vm_compute; reflexivity.
Defined.

(** ** Which questions add risk *)

Lemma is_unsafe_Some a g : is_unsafe (Some a) g = true ↔ a ≠ g.
Proof.
  simpl. destruct (String.eqb_spec a g); simpl; split; congruence.
Qed.

Lemma answered_unsafely_iff answers q :
  answered_unsafely answers q = true ↔
  ∃ qid a, q_id q = Some qid ∧ answers !! qid = Some a ∧
           a ≠ default "yes" (q_good_answer q).
Proof.
  unfold answered_unsafely. destruct (q_id q) as [qid|]; split.
  - destruct (answers !! qid) as [a|] eqn:Ha; [|done].
    intros H. apply is_unsafe_Some in H. by exists qid, a.
  - intros (qid' & a & [= <-] & Ha & Hne). rewrite Ha.
    by apply is_unsafe_Some.
  - done.
  - by intros (? & ? & ? & _).
Qed.

(** C3. A question adds its weight to [risk_points] and to the risk of
    its pillar exactly when [answers] has an entry for its id and that
    entry differs from its [good_answer], taken to be "yes" when the
    record has none; a question with no entry adds nothing. *)
Theorem risk_counts_answered_unsafe questions answers s ps :
  calculate_scores questions answers = Ok (s, ps) →
  (∀ q, risk_of answers q =
        if answered_unsafely answers q then weight_of q else 0) ∧
  (∀ q, answered_unsafely answers q = true ↔
        ∃ qid a, q_id q = Some qid ∧ answers !! qid = Some a ∧
                 a ≠ default "yes" (q_good_answer q)) ∧
  (∀ q qid, q_id q = Some qid → answers !! qid = None →
            risk_of answers q = 0) ∧
  risk_points s = Zsum (risk_of answers <$> questions) ∧
  ∃ st, score_loop answers init_state questions = Ok st ∧
        ∀ p, OrderedDict.get_default (st_pillar_risk st) p 0 =
             Zsum (risk_of answers <$>
                     filter (λ q, q_pillar q = Some p) questions).
Proof.
  intros Hcalc.
  split; [done|]. split; [apply answered_unsafely_iff|].
  split.
  { intros q qid Hid Hnone. unfold risk_of, answered_unsafely.
    by rewrite Hid, Hnone. }
  assert (Hf := calculate_scores_fields _ _ _ Hcalc).
  destruct (calculate_scores_unfold questions answers Hf)
    as (st & Hloop & _ & _ & Hk & _ & Heq).
  rewrite Heq in Hcalc.
  apply bind_Ok_inv in Hcalc as (rp & Hrp & Hcalc).
  apply bind_Ok_inv in Hcalc as (ps' & _ & Hcalc).
  split.
  { assert (Hs : risk_points s = total_risk answers questions); [|done].
    assert (Hs : s = {| risk_points := total_risk answers questions;
                        max_risk := total_weight questions;
                        risk_percentage := rp;
                        security_score := F64.sub (F64.of_int 100) rp;
                        risk_level := risk_level_of (F64.sub (F64.of_int 100) rp) |})
      by congruence.
    by rewrite Hs. }
  exists st. split; [done|]. intros p. rewrite Hk.
  unfold pillar_risk_of, total_risk. do 2 f_equal.
  apply list_filter_iff. intros q. unfold in_pillar.
  by rewrite bool_decide_eq_true.
Qed.

Lemma risk_counts_answered_unsafe_witness :
  ∃ s ps,
    calculate_scores catalog_two answers_two = Ok (s, ps) ∧
    risk_points s = Zsum (risk_of answers_two <$> catalog_two) ∧
    risk_points s = 10.
Proof.
  eexists _, _. split; [vm_compute; reflexivity|].
  split; [|vm_compute; reflexivity].
  eapply (risk_counts_answered_unsafe catalog_two answers_two).
  vm_compute; reflexivity.
Defined.

(** ** Records with missing fields *)

Lemma sum_weights_missing questions :
  Exists (λ q, q_weight q = None) questions →
  ∀ acc, sum_weights acc questions = Raise (KeyError "weight").
Proof.
  induction 1 as [q qs Hq|q qs _ IH]; intros acc; simpl.
  - by rewrite Hq.
  - destruct (q_weight q); simpl; [apply IH | done].
Qed.

Lemma score_step_cases answers st q :
  (has_fields q = true ∧ ∃ st', score_step answers st q = Ok st') ∨
  (has_fields q = false ∧
   ∃ k, score_step answers st q = Raise (KeyError k) ∧
        k ∈ ["weight"; "pillar"; "id"]).
Proof.
  unfold score_step, has_fields.
  destruct (q_pillar q) as [p|], (q_weight q) as [w|], (q_id q) as [i|];
    simpl.
  - left. split; [done|]. destruct (is_unsafe _ _); by eexists.
  - right. split; [done|]. exists "id". split; [done|]. set_solver.
  - right. split; [done|]. exists "weight". split; [done|]. set_solver.
  - right. split; [done|]. exists "weight". split; [done|]. set_solver.
  - right. split; [done|]. exists "pillar". split; [done|]. set_solver.
  - right. split; [done|]. exists "pillar". split; [done|]. set_solver.
  - right. split; [done|]. exists "pillar". split; [done|]. set_solver.
  - right. split; [done|]. exists "pillar". split; [done|]. set_solver.
Qed.

(** The loop raises at the first record that lacks a field, after the
    records before it were accumulated. *)
Lemma score_loop_missing answers questions :
  Exists (λ q, has_fields q = false) questions →
  ∀ st, ∃ k pre q post st',
    questions = pre ++ q :: post ∧
    Forall (λ q, has_fields q = true) pre ∧
    score_loop answers st pre = Ok st' ∧
    score_step answers st' q = Raise (KeyError k) ∧
    k ∈ ["weight"; "pillar"; "id"] ∧
    score_loop answers st questions = Raise (KeyError k).
Proof.
  induction questions as [|q qs IH]; intros Hex st.
  - by apply Exists_nil in Hex.
  - destruct (score_step_cases answers st q)
      as [[Hq [st1 Hstep]]|[Hq (k & Hstep & Hk)]].
    + apply Exists_cons in Hex as [Hex|Hex]; [congruence|].
      destruct (IH Hex st1)
        as (k & pre & q' & post & st' & -> & Hpre & Hloop & Hraise & Hk & Hall).
      exists k, (q :: pre), q', post, st'.
      split; [done|]. split; [by constructor|].
      split; [simpl; by rewrite Hstep|]. split; [done|]. split; [done|].
      simpl. by rewrite Hstep.
    + exists k, [], q, qs, st.
      split; [done|]. split; [constructor|]. split; [done|].
      split; [done|]. split; [done|]. simpl. by rewrite Hstep.
Qed.

(** The key of the error of one iteration is the first field, in the
    order the iteration reads them, that the record lacks. *)
Lemma score_step_raises answers st q k :
  score_step answers st q = Raise (KeyError k) →
  has_fields q = false ∧ lacks k q = true ∧
  k = (if present (q_pillar q)
       then if present (q_weight q) then "id" else "weight"
       else "pillar").
Proof.
  unfold score_step, has_fields, lacks.
  destruct (q_pillar q) as [p|], (q_weight q) as [w|], (q_id q) as [i|];
    simpl; try (intros [= <-]; done).
  by destruct (is_unsafe _ _).
Qed.

(** C4, as the code has it. If some record lacks [weight], [pillar] or
    [id], [calculate_scores] raises a [KeyError] whose key is a field
    that a record of the catalog lacks, and returns no result, partial
    or otherwise. When any record lacks [weight] the key is "weight":
    the initial sum meets it before the loop. Otherwise the error is
    raised inside the loop, at the first record that lacks a field,
    after the records before it were accumulated; its key is "pillar"
    when that record lacks [pillar] and "id" when it lacks only
    [id]. *)
Theorem missing_field_raises_key_error questions answers :
  Exists (λ q, has_fields q = false) questions →
  ∃ k, calculate_scores questions answers = Raise (KeyError k) ∧
       k ∈ ["weight"; "pillar"; "id"] ∧
       (∃ q, q ∈ questions ∧ lacks k q = true) ∧
       (Exists (λ q, q_weight q = None) questions →
        k = "weight" ∧ sum_weights 0 questions = Raise (KeyError "weight")) ∧
       (Forall (λ q, q_weight q ≠ None) questions →
        ∃ pre q post st,
          questions = pre ++ q :: post ∧
          Forall (λ q, has_fields q = true) pre ∧
          has_fields q = false ∧
          score_loop answers init_state pre = Ok st ∧
          score_step answers st q = Raise (KeyError k) ∧
          k = (if present (q_pillar q) then "id" else "pillar")).
Proof.
  intros Hex. unfold calculate_scores.
  destruct (decide (Exists (λ q, q_weight q = None) questions)) as [Hw|Hw].
  - rewrite (sum_weights_missing questions Hw 0). exists "weight".
    split; [done|]. split; [set_solver|]. split.
    { apply Exists_exists in Hw as (q & Hq & Hnone). exists q.
      split; [done|]. unfold lacks. simpl. by rewrite Hnone. }
    split; [done|].
    intros Hall. exfalso. apply Exists_exists in Hw as (q & Hq & Hnone).
    rewrite Forall_forall in Hall. by apply (Hall q Hq).
  - destruct (sum_weights 0 questions) as [m|e] eqn:Hsum.
    + destruct (score_loop_missing answers questions Hex init_state)
        as (k & pre & q & post & st & Hsplit & Hpre & Hloop & Hraise & Hk & ->).
      destruct (score_step_raises answers st q k Hraise)
        as (Hq & Hlacks & Hkey).
      assert (Hin : q ∈ questions).
      { rewrite Hsplit. apply elem_of_app. right. left. }
      assert (Hwq : present (q_weight q) = true).
      { destruct (q_weight q) eqn:E; [done|]. exfalso. apply Hw.
        apply Exists_exists. by exists q. }
      rewrite Hwq in Hkey.
      exists k. split; [done|]. split; [done|].
      split; [by exists q|].
      split; [intros H; by destruct Hw|].
      intros _. by exists pre, q, post, st.
    + exfalso. apply Hw. clear -Hsum. revert Hsum. generalize 0.
      induction questions as [|q qs IH]; intros acc; simpl; [done|].
      destruct (q_weight q) eqn:E; simpl.
      * intros H. right. by eapply IH.
      * intros _. by left.
Qed.

Lemma missing_field_raises_key_error_witness :
  ∃ k, calculate_scores catalog_missing_pillar answers_two =
         Raise (KeyError k) ∧
       k = "pillar" ∧
       ∃ q, q ∈ catalog_missing_pillar ∧ lacks k q = true.
Proof.
  destruct (missing_field_raises_key_error catalog_missing_pillar answers_two)
    as (k & Hk & _ & Hlacks & _).
  - right. left. reflexivity.
  - exists k. split; [exact Hk|]. split; [|exact Hlacks].
    assert (Hrun : calculate_scores catalog_missing_pillar answers_two =
                   Raise (KeyError "pillar")) by (vm_compute; reflexivity).
    rewrite Hrun in Hk. by injection Hk as <-.
Defined.

(** The claim itself fails: a record without [pillar] after a valid
    record makes the function raise the built-in [KeyError], not a
    validation error, and only after the first record was scored. *)
Lemma missing_field_counterexample :
  Exists (λ q, has_fields q = false) catalog_missing_pillar ∧
  sum_weights 0 catalog_missing_pillar = Ok 30 ∧
  (∃ st, score_step answers_two init_state (mkq "Q1" "Identify" 10 "yes")
           = Ok st ∧ st_risk_points st = 10) ∧
  calculate_scores catalog_missing_pillar answers_two
    = Raise (KeyError "pillar") ∧
  is_configuration_error (KeyError "pillar") = false ∧
  ¬ (∀ questions answers,
       Exists (λ q, has_fields q = false) questions →
       ∃ e, calculate_scores questions answers = Raise e ∧
            is_configuration_error e = true).
Proof.
  split; [right; left; reflexivity|].
  split; [reflexivity|].
  split; [eexists; split; vm_compute; reflexivity|].
  split; [vm_compute; reflexivity|]. split; [reflexivity|].
  intros H.
  destruct (H catalog_missing_pillar answers_two) as (e & _ & He).
  - right. left. reflexivity.
  - by destruct e.
Qed.

(** ** Catalogs answered with the good answers throughout *)

Lemma answered_well_safe answers q :
  answered_well answers q → answered_unsafely answers q = false.
Proof.
  intros [_ (qid & Hid & Ha)]. unfold answered_unsafely, good_answer_of.
  rewrite Hid, Ha. destruct (q_good_answer q) as [good|]; simpl; [|done].
  by rewrite String.eqb_refl.
Qed.

Lemma total_risk_zero answers questions :
  Forall (λ q, answered_unsafely answers q = false) questions →
  total_risk answers questions = 0.
Proof.
  induction 1 as [|q qs Hq _ IH]; [done|].
  rewrite total_risk_cons, IH. unfold risk_of. by rewrite Hq.
Qed.

Lemma int_true_divide_zero m :
  m ≠ 0 → ∃ sg, F64.int_true_divide 0 m = Ok (S754_zero sg).
Proof.
  intros Hm. unfold F64.int_true_divide.
  destruct (Z.eqb_spec m 0); [done|].
  destruct m as [|p|p]; [done| |]; simpl; by eexists.
Qed.

Lemma score_of_zero_ratio sg :
  F64.sub (F64.of_int 100) (F64.mul (S754_zero sg) (F64.of_int 100)) =
  F64.of_int 100.
Proof. by destruct sg. Qed.

Lemma rec_loop_safe answers questions :
  Forall (λ q, answered_well answers q) questions →
  ∀ recs, rec_loop answers recs questions = Ok recs.
Proof.
  induction 1 as [|q qs Hq _ IH]; intros recs; [done|].
  simpl. unfold rec_step. destruct Hq as [_ (qid & Hid & Ha)].
  rewrite Hid. change (getitem "id" (Some qid)) with (Ok qid).
  rewrite bind_Ok, Ha.
  assert (Hsafe : is_unsafe (Some (match q_good_answer q with
                                   | Some good => good
                                   | None => "yes"
                                   end)) (good_answer_of q) = false).
  { unfold good_answer_of. destruct (q_good_answer q) as [good|]; simpl;
      [|done]. by rewrite String.eqb_refl. }
  rewrite Hsafe, bind_Ok. apply IH.
Qed.

(** C9. If every question's id is mapped in [answers] to that
    question's [good_answer] (the value of the field, be it "yes",
    "no" or anything else, and "yes" for a record without the field),
    then [calculate_scores] returns [risk_points = 0],
    [security_score = 100.0] and [risk_level = "LOW"], and
    [generate_recommendations] returns the empty list. *)
Theorem all_good_answers_score_100 questions answers :
  Forall (λ q, answered_well answers q) questions →
  (∃ s ps, calculate_scores questions answers = Ok (s, ps) ∧
           risk_points s = 0 ∧
           security_score s = F64.of_int 100 ∧
           risk_level s = "LOW") ∧
  generate_recommendations questions answers = Ok [].
Proof.
  intros Hall. split; [|by apply rec_loop_safe].
  assert (Hf : Forall (λ q, has_fields q = true) questions).
  { eapply Forall_impl; [exact Hall|]. by intros q [? _]. }
  assert (Hsafe : Forall (λ q, answered_unsafely answers q = false) questions).
  { eapply Forall_impl; [exact Hall|]. apply answered_well_safe. }
  destruct (calculate_scores_unfold questions answers Hf)
    as (st & _ & _ & Hm & Hk & Hkeys & ->).
  rewrite (total_risk_zero answers questions Hsafe).
  assert (Hrp : ∃ rp, risk_percentage_of 0 (total_weight questions) = Ok rp ∧
                      F64.sub (F64.of_int 100) rp = F64.of_int 100).
  { unfold risk_percentage_of.
    destruct (Z.eqb_spec (total_weight questions) 0) as [_|Hne].
    - by exists F64.zero.
    - destruct (int_true_divide_zero _ Hne) as [sg ->].
      eexists. split; [reflexivity|]. apply score_of_zero_ratio. }
  destruct Hrp as (rp & -> & Hss).
  destruct (pillar_loop_succeeds (st_pillar_risk st) (st_pillar_max st)
              OrderedDict.empty) as [ps Hps].
  { apply Forall_forall. intros [p mw] _. simpl.
    rewrite pillar_score_expected, Hk.
    unfold pillar_risk_of. rewrite total_risk_zero.
    2:{ rewrite Forall_forall in *. intros q Hq.
        apply list_elem_of_filter in Hq as [_ Hq]. by apply Hsafe. }
    unfold expected_pillar_score.
    destruct (Z.eqb_spec mw 0) as [_|Hne]; [by eexists|].
    destruct (int_true_divide_zero _ Hne) as [sg ->]. by eexists. }
  rewrite bind_Ok, Hps, bind_Ok. eexists _, ps. split; [reflexivity|].
  cbn [risk_points security_score risk_level]. rewrite Hss.
  split; [done|]. split; reflexivity.
Qed.

Lemma all_good_answers_score_100_witness :
  (∃ s ps, calculate_scores catalog_mixed answers_mixed = Ok (s, ps) ∧
           risk_points s = 0 ∧
           security_score s = F64.of_int 100 ∧
           risk_level s = "LOW") ∧
  generate_recommendations catalog_mixed answers_mixed = Ok [].
Proof.
  apply (all_good_answers_score_100 catalog_mixed answers_mixed).
  repeat constructor; eexists; (split; [reflexivity|]); vm_compute; reflexivity.
Defined.

(** C10. An answer that differs from the good answer counts as unsafe
    in both functions even when it is neither "yes" nor "no": only
    inequality with [good_answer] is tested. With the answer "maybe"
    the question's full weight is added to [risk_points] and its
    recommendation is emitted. *)
Theorem any_other_answer_is_unsafe :
  (∀ a g, is_unsafe (Some a) g = true ↔ a ≠ g) ∧
  (∃ s ps,
     calculate_scores [mkq "Q1" "Identify" 10 "yes"] {["Q1" := "maybe"]}
       = Ok (s, ps) ∧
     risk_points s = 10 ∧ max_risk s = 10) ∧
  generate_recommendations [mkq "Q1" "Identify" 10 "yes"] {["Q1" := "maybe"]}
    = Ok ["Create and keep an up-to-date list of all company devices (laptops, phones, servers, tablets) and review it regularly."].
Proof.
  split; [apply is_unsafe_Some|].
  split; [|vm_compute; reflexivity].
  eexists _, _. split; [vm_compute; reflexivity|]. split; reflexivity.
Qed.

(** ** Pillar scores *)

Lemma Forall2_scores_keys pillar_risk (items : list (string * Z))
    (vs : list (string * F64.float)) :
  Forall2 (λ it pv, pv.1 = it.1 ∧ pillar_score pillar_risk it.1 it.2 = Ok pv.2)
          items vs →
  OrderedDict.keys vs = OrderedDict.keys items ∧
  ∀ p v, (p, v) ∈ vs →
         ∃ mw, (p, mw) ∈ items ∧ pillar_score pillar_risk p mw = Ok v.
Proof.
  induction 1 as [|[p0 mw0] [p1 v1] items vs [Hp Hs] _ [IHk IHin]]; simpl.
  - split; [done|]. intros p v Hin. by apply elem_of_nil in Hin.
  - simpl in Hp, Hs. subst p1. split; [by rewrite IHk|].
    intros p v Hin. apply elem_of_cons in Hin as [[= -> ->]|Hin].
    + exists mw0. split; [left | done].
    + destruct (IHin p v Hin) as (mw & Hmw & Hsc).
      exists mw. split; [by right | done].
Qed.

(** C6. The [pillar_scores] mapping has exactly one entry per distinct
    pillar of the catalog, in the order the pillars first appear; a
    pillar whose weights sum to 0 scores 100.0 and every other pillar
    scores [100 - (pillar_risk / pillar_max) * 100]. *)
Theorem pillar_scores_in_order questions answers s ps :
  calculate_scores questions answers = Ok (s, ps) →
  OrderedDict.keys ps = first_occurrences (pillars questions) ∧
  NoDup (OrderedDict.keys ps) ∧
  (∀ p, p ∈ OrderedDict.keys ps ↔ ∃ q, q ∈ questions ∧ q_pillar q = Some p) ∧
  ∀ p v, (p, v) ∈ ps →
    (pillar_weight p questions = 0 → v = F64.of_int 100) ∧
    (pillar_weight p questions ≠ 0 →
     ∃ ratio,
       F64.int_true_divide (pillar_risk_of answers p questions)
                           (pillar_weight p questions) = Ok ratio ∧
       v = F64.sub (F64.of_int 100) (F64.mul ratio (F64.of_int 100))).
Proof.
  intros Hcalc.
  assert (Hf := calculate_scores_fields _ _ _ Hcalc).
  destruct (calculate_scores_unfold questions answers Hf)
    as (st & _ & _ & Hm & Hk & Hkeys & Heq).
  rewrite Heq in Hcalc.
  apply bind_Ok_inv in Hcalc as (rp & _ & Hcalc).
  apply bind_Ok_inv in Hcalc as (ps' & Hloop & Hcalc).
  assert (ps' = ps) as -> by congruence.
  assert (Hnd : NoDup (OrderedDict.keys (st_pillar_max st))).
  { rewrite Hkeys. apply first_occurrences_NoDup. }
  apply pillar_loop_Ok in Hloop as (vs & -> & Hall); [|done].
  simpl app. apply Forall2_scores_keys in Hall as [Hkv Hin].
  split; [by rewrite Hkv|]. split; [by rewrite Hkv|]. split.
  { intros p. rewrite Hkv, Hkeys, first_occurrences_elem.
    unfold pillars. by rewrite list_elem_of_omap. }
  intros p v Hpv. destruct (Hin p v Hpv) as (mw & Hmw & Hsc).
  assert (mw = pillar_weight p questions) as ->.
  { rewrite <- Hm. unfold OrderedDict.get_default.
    by rewrite (od_get_elem _ p mw Hnd Hmw). }
  rewrite pillar_score_expected, Hk in Hsc.
  unfold expected_pillar_score in Hsc.
  destruct (Z.eqb_spec (pillar_weight p questions) 0) as [H0|H0].
  - split; [intros _; congruence | done].
  - split; [done|]. intros _.
    apply bind_Ok_inv in Hsc as (ratio & Hr & Hv).
    exists ratio. split; [done | congruence].
Qed.

Lemma pillar_scores_in_order_witness :
  ∃ s ps,
    calculate_scores catalog_two answers_two = Ok (s, ps) ∧
    OrderedDict.keys ps = ["Identify"; "Protect"].
Proof.
  eexists _, _. split; [vm_compute; reflexivity|].
  eapply (pillar_scores_in_order catalog_two answers_two).
  vm_compute; reflexivity.
Defined.

(** ** Recommendations *)

Lemma text_in_spec text recs : text_in text recs = bool_decide (text ∈ recs).
Proof.
  unfold text_in. induction recs as [|r recs IH]; simpl; [done|].
  rewrite IH. destruct (String.eqb_spec text r) as [->|Hne]; simpl.
  - symmetry. apply bool_decide_eq_true. left.
  - apply bool_decide_ext. rewrite elem_of_cons.
    split; [by right | intros [?|?]; done].
Qed.

Lemma od_get_Some_elem {V} (d : OrderedDict.t V) k v :
  OrderedDict.get d k = Some v → (k, v) ∈ d.
Proof.
  induction d as [|[k0 v0] d IH]; simpl; [done|].
  destruct (String.eqb_spec k0 k) as [->|Hne].
  - intros [= ->]. left.
  - intros H. right. by apply IH.
Qed.

(** Every text of the map is non-empty, hence true as a condition. *)
Lemma recommendation_nonempty qid text :
  OrderedDict.get recommendation_map qid = Some text →
  String.eqb text "" = false.
Proof.
  intros H. apply od_get_Some_elem in H.
  assert (Hall : Forall (λ kv, String.eqb kv.2 "" = false) recommendation_map)
    by (repeat constructor).
  rewrite Forall_forall in Hall. exact (Hall _ H).
Qed.

Lemma rec_step_spec answers recs q qid :
  q_id q = Some qid →
  rec_step answers recs q =
  Ok (match advice answers q with
      | Some text => add_key recs text
      | None => recs
      end).
Proof.
  intros Hid. unfold rec_step, advice. rewrite Hid.
  change (getitem "id" (Some qid)) with (Ok qid). rewrite bind_Ok.
  destruct (is_unsafe (answers !! qid) (good_answer_of q)); [|done].
  destruct (OrderedDict.get recommendation_map qid) as [text|] eqn:Hget;
    [|done].
  rewrite (recommendation_nonempty qid text Hget), text_in_spec.
  unfold add_key. by destruct (bool_decide (text ∈ recs)).
Qed.

Lemma rec_loop_spec answers questions :
  Forall (λ q, present (q_id q) = true) questions →
  ∀ recs, rec_loop answers recs questions =
          Ok (foldl add_key recs (omap (advice answers) questions)).
Proof.
  induction 1 as [|q qs Hq _ IH]; intros recs; [done|].
  destruct (q_id q) as [qid|] eqn:Hid; [|done].
  simpl rec_loop. rewrite (rec_step_spec answers recs q qid Hid), bind_Ok, IH.
  simpl omap. by destruct (advice answers q).
Qed.

Lemma rec_loop_app answers qs qs' :
  ∀ recs, rec_loop answers recs (qs ++ qs') =
          (recs' ← rec_loop answers recs qs; rec_loop answers recs' qs').
Proof.
  induction qs as [|q qs IH]; intros recs; [done|].
  simpl. destruct (rec_step answers recs q) as [recs1|e]; simpl; [apply IH|done].
Qed.

(** C7. [generate_recommendations] goes through the questions in
    catalog order and appends the text mapped to a question's id
    exactly when the question was answered, the answer differs from
    its good answer, the id has a mapped text and that text is not yet
    in the output. Questions without a mapped text are passed over
    without error, and a text called for more than once appears once,
    where it was first called for. *)
Theorem recommendations_in_order questions answers :
  Forall (λ q, present (q_id q) = true) questions →
  generate_recommendations questions answers =
    Ok (first_occurrences (omap (advice answers) questions)) ∧
  (∀ q, advice answers q =
        match q_id q with
        | Some qid =>
            match answers !! qid with
            | Some a =>
                if bool_decide (a ≠ good_answer_of q)
                then OrderedDict.get recommendation_map qid
                else None
            | None => None
            end
        | None => None
        end) ∧
  ∀ recs q qid,
    generate_recommendations questions answers = Ok recs →
    q_id q = Some qid →
    generate_recommendations (questions ++ [q]) answers =
      Ok (match advice answers q with
          | Some text => if bool_decide (text ∈ recs) then recs
                         else recs ++ [text]
          | None => recs
          end).
Proof.
  intros Hids. unfold generate_recommendations. split; [|split].
  - by rewrite rec_loop_spec, foldl_add_key_nil.
  - intros q. unfold advice. destruct (q_id q) as [qid|]; [|done].
    destruct (answers !! qid) as [a|]; [|done]. simpl.
    destruct (String.eqb_spec a (good_answer_of q)) as [->|Hne]; simpl.
    + by rewrite bool_decide_eq_false_2 by (intros H; by apply H).
    + by rewrite bool_decide_eq_true_2.
  - intros recs q qid Hrecs Hid.
    rewrite rec_loop_app, Hrecs, bind_Ok. simpl rec_loop.
    rewrite (rec_step_spec answers recs q qid Hid). done.
Qed.

Lemma recommendations_in_order_witness :
  generate_recommendations catalog_repeated answers_repeated =
  Ok ["Define an approved software list and uninstall or block software that is not needed or not approved.";
      "Create and keep an up-to-date list of all company devices (laptops, phones, servers, tablets) and review it regularly."].
Proof.
  destruct (recommendations_in_order catalog_repeated answers_repeated)
    as [H _].
  - repeat constructor.
  - rewrite H. vm_compute. reflexivity.
Defined.

(** ** Robustness against partial and foreign answers *)

Lemma score_loop_agree answers answers' questions :
  Forall (λ q, ∀ qid, q_id q = Some qid → answers !! qid = answers' !! qid)
         questions →
  ∀ st, score_loop answers st questions = score_loop answers' st questions.
Proof.
  induction 1 as [|q qs Hq _ IH]; intros st; [done|].
  simpl. assert (Hstep : score_step answers st q = score_step answers' st q).
  { unfold score_step. destruct (q_pillar q), (q_weight q); try done.
    destruct (q_id q) as [qid|]; [|done]. simpl. by rewrite (Hq qid). }
  rewrite Hstep. destruct (score_step answers' st q); simpl; [apply IH|done].
Qed.

Lemma rec_loop_agree answers answers' questions :
  Forall (λ q, ∀ qid, q_id q = Some qid → answers !! qid = answers' !! qid)
         questions →
  ∀ recs, rec_loop answers recs questions = rec_loop answers' recs questions.
Proof.
  induction 1 as [|q qs Hq _ IH]; intros recs; [done|].
  simpl. assert (Hstep : rec_step answers recs q = rec_step answers' recs q).
  { unfold rec_step. destruct (q_id q) as [qid|]; [|done].
    change (getitem "id" (Some qid)) with (Ok qid). rewrite !bind_Ok.
    by rewrite (Hq qid). }
  rewrite Hstep. destruct (rec_step answers' recs q); simpl; [apply IH|done].
Qed.

(** C8. On a valid catalog [calculate_scores] and
    [generate_recommendations] return a result for every answers
    mapping, the empty one and those with ids foreign to the catalog
    included; entries for foreign ids change no returned value: two
    mappings that agree on the ids of the catalog give the same
    results. *)
Theorem no_scoring_time_errors questions :
  valid_catalog questions →
  (∀ answers,
     succeeds (calculate_scores questions answers) ∧
     succeeds (generate_recommendations questions answers)) ∧
  (∀ answers answers',
     (∀ q qid, q ∈ questions → q_id q = Some qid →
               answers !! qid = answers' !! qid) →
     calculate_scores questions answers = calculate_scores questions answers' ∧
     generate_recommendations questions answers =
       generate_recommendations questions answers').
Proof.
  intros Hv. split.
  - intros answers. split.
    + destruct (calculate_scores_valid questions answers Hv)
        as (rp & ps & _ & ->). by eexists.
    + unfold generate_recommendations. rewrite rec_loop_spec; [by eexists|].
      eapply Forall_impl; [exact (valid_catalog_fields _ Hv)|].
      intros q. unfold has_fields. destruct (present (q_id q)); done.
  - intros answers answers' Hagree.
    assert (Hall : Forall (λ q, ∀ qid, q_id q = Some qid →
                                 answers !! qid = answers' !! qid) questions).
    { apply Forall_forall. intros q Hq qid. by apply Hagree. }
    split.
    + unfold calculate_scores.
      by rewrite (score_loop_agree answers answers' questions Hall).
    + unfold generate_recommendations. by apply rec_loop_agree.
Qed.

Lemma no_scoring_time_errors_witness :
  succeeds (calculate_scores catalog_two ∅) ∧
  succeeds (generate_recommendations catalog_two ∅) ∧
  calculate_scores catalog_two answers_two =
    calculate_scores catalog_two answers_foreign ∧
  generate_recommendations catalog_two answers_two =
    generate_recommendations catalog_two answers_foreign.
Proof.
  destruct (no_scoring_time_errors catalog_two) as [Hok Hsame].
  - repeat constructor.
  - destruct (Hok ∅) as [H1 H2]. split; [exact H1|]. split; [exact H2|].
    apply Hsame. intros q qid Hq Hid.
    unfold answers_foreign. rewrite lookup_insert_ne; [done|].
    intros <-. unfold catalog_two in Hq.
    apply elem_of_cons in Hq as [->|Hq]; [discriminate|].
    apply elem_of_cons in Hq as [->|Hq]; [discriminate|].
    by apply elem_of_nil in Hq.
Defined.

(** ** Remarks *)

(** The division keeps the sign of a zero quotient, as Python does. *)
Example zero_over_negative :
  F64.int_true_divide 0 (-5) = Ok (S754_zero true).
Proof. reflexivity. Qed.

(** Validity matters for C8: with a negative weight the total can be
    small while the risk is huge, and the division overflows. *)
Example negative_weight_overflows :
  calculate_scores
    [mkq "Q1" "Identify" (2 ^ 1100) "yes";
     mkq "Q2" "Protect" (1 - 2 ^ 1100) "yes"]
    answers_two
  = Raise OverflowError.
Proof. vm_compute. reflexivity. Qed.

(** The end-to-end scenario of the specification: 10 of 30 risk points,
    a score of 66.67 (the double nearest to 200/3), "MEDIUM". *)
Example end_to_end_scenario :
  calculate_scores catalog_two answers_two =
  Ok ({| risk_points := 10;
         max_risk := 30;
         risk_percentage := S754_finite false 4691249611844266 (-47);
         security_score := S754_finite false 4691249611844267 (-46);
         risk_level := "MEDIUM" |},
      [("Identify", S754_zero false); ("Protect", F64.of_int 100)]).
Proof. vm_compute. reflexivity. Qed.

(** A score of exactly 50.0 is "MEDIUM": one of two equal weights
    answered unsafely. *)
Example score_fifty_is_medium :
  ∃ s ps,
    calculate_scores
      [mkq "Q1" "Identify" 1 "yes"; mkq "Q2" "Protect" 1 "yes"] answers_two
      = Ok (s, ps) ∧
    security_score s = F64.of_int 50 ∧ risk_level s = "MEDIUM".
Proof. eexists _, _. split; [vm_compute; reflexivity|]. split; reflexivity. Qed.

(** * Further properties *)

(** ** The shape of a returned result *)

Lemma summary_shape questions answers s ps :
  calculate_scores questions answers = Ok (s, ps) →
  ∃ rp,
    risk_percentage_of (total_risk answers questions)
                       (total_weight questions) = Ok rp ∧
    s = {| risk_points := total_risk answers questions;
           max_risk := total_weight questions;
           risk_percentage := rp;
           security_score := F64.sub (F64.of_int 100) rp;
           risk_level := risk_level_of (F64.sub (F64.of_int 100) rp) |}.
Proof.
  intros Hcalc.
  assert (Hf := calculate_scores_fields _ _ _ Hcalc).
  destruct (calculate_scores_unfold questions answers Hf)
    as (st & _ & _ & _ & _ & _ & Heq).
  rewrite Heq in Hcalc.
  apply bind_Ok_inv in Hcalc as (rp & Hrp & Hcalc).
  apply bind_Ok_inv in Hcalc as (ps' & _ & Hcalc).
  exists rp. split; [done | congruence].
Qed.

Lemma pillar_scores_entries questions answers s ps :
  calculate_scores questions answers = Ok (s, ps) →
  OrderedDict.keys ps = first_occurrences (pillars questions) ∧
  ∀ p v, (p, v) ∈ ps →
         expected_pillar_score (pillar_risk_of answers p questions)
                               (pillar_weight p questions) = Ok v.
Proof.
  intros Hcalc.
  assert (Hf := calculate_scores_fields _ _ _ Hcalc).
  destruct (calculate_scores_unfold questions answers Hf)
    as (st & _ & _ & Hm & Hk & Hkeys & Heq).
  rewrite Heq in Hcalc.
  apply bind_Ok_inv in Hcalc as (rp & _ & Hcalc).
  apply bind_Ok_inv in Hcalc as (ps' & Hloop & Hcalc).
  assert (ps' = ps) as -> by congruence.
  assert (Hnd : NoDup (OrderedDict.keys (st_pillar_max st))).
  { rewrite Hkeys. apply first_occurrences_NoDup. }
  apply pillar_loop_Ok in Hloop as (vs & -> & Hall); [|done].
  simpl app. apply Forall2_scores_keys in Hall as [Hkv Hin].
  split; [by rewrite Hkv|].
  intros p v Hpv. destruct (Hin p v Hpv) as (mw & Hmw & Hsc).
  assert (mw = pillar_weight p questions) as ->.
  { rewrite <- Hm. unfold OrderedDict.get_default.
    by rewrite (od_get_elem _ p mw Hnd Hmw). }
  by rewrite pillar_score_expected, Hk in Hsc.
Qed.

(** ** Bounds *)

(** X1. On a catalog without negative weights every pillar score lies
    between 0 and 100, and the risk points between 0 and the maximum. *)
Theorem pillar_scores_bounded questions answers s ps :
  Forall (λ q, 0 ≤ weight_of q) questions →
  calculate_scores questions answers = Ok (s, ps) →
  0 ≤ risk_points s ≤ max_risk s ∧
  ∀ p v, (p, v) ∈ ps →
         F64.leb (F64.of_int 0) v = true ∧
         F64.leb v (F64.of_int 100) = true.
Proof.
  intros Hw Hcalc. split.
  - destruct (summary_shape _ _ _ _ Hcalc) as (rp & _ & ->). simpl.
    by apply total_risk_bounds.
  - destruct (pillar_scores_entries _ _ _ _ Hcalc) as [_ Hin].
    intros p v Hpv. specialize (Hin p v Hpv).
    destruct (expected_pillar_score_in_range
                (pillar_risk_of answers p questions)
                (pillar_weight p questions)) as (v' & Hv' & Hr).
    { by apply pillar_risk_bounds. }
    assert (v' = v) as -> by congruence.
    by apply in_range_compare.
Qed.

Lemma pillar_scores_bounded_witness :
  ∃ s ps,
    calculate_scores catalog_two answers_two = Ok (s, ps) ∧
    0 ≤ risk_points s ≤ max_risk s ∧
    ∀ p v, (p, v) ∈ ps →
           F64.leb (F64.of_int 0) v = true ∧
           F64.leb v (F64.of_int 100) = true.
Proof.
  eexists _, _. split; [vm_compute; reflexivity|].
  apply (pillar_scores_bounded catalog_two answers_two).
  - repeat constructor; discriminate.
  - vm_compute; reflexivity.
Defined.

(** ** A ratio of one *)

(** A value has one canonical representation. *)
Lemma canonical_unique m e m' e' :
  fexp53 (Zpos (digits2_pos m) + e) = e →
  fexp53 (Zpos (digits2_pos m') + e') = e' →
  Zval (Zpos m) e = Zval (Zpos m') e' →
  m = m' ∧ e = e'.
Proof.
  intros Hc Hc' Hv.
  assert (He : -1074 ≤ e) by (unfold fexp53 in Hc; lia).
  assert (He' : -1074 ≤ e') by (unfold fexp53 in Hc'; lia).
  assert (Hd : Zdigits2 (Zval (Zpos m) e) = Zdigits2 (Zval (Zpos m') e'))
    by (by rewrite Hv).
  rewrite !Zval_digits in Hd by lia. simpl Zdigits2 in Hd.
  assert (e = e').
  { rewrite <- Hc, <- Hc'. f_equal. lia. }
  subst e'. split; [|done].
  unfold Zval in Hv.
  assert (0 < 2 ^ (e + 1074)) by (apply pow2_pos; lia).
  assert (Zpos m = Zpos m') by (by apply (Z.mul_cancel_r _ _ (2 ^ (e + 1074))); [lia|]).
  congruence.
Qed.

(** A positive int divided by itself is exactly 1.0. *)
Lemma int_true_divide_self m :
  0 < m → F64.int_true_divide m m = Ok one.
Proof.
  intros Hm. unfold F64.int_true_divide.
  destruct (Z.eqb_spec m 0); [lia|].
  destruct m as [|p|p]; try lia. simpl. unfold F64.prec, F64.emax.
  destruct (div_core_spec (Zpos p) (Zpos p) ltac:(lia) ltac:(lia))
    as (mq & e' & l & rem & -> & He' & Hq & Hfe & Hdiv & Hrem & Hcode & Hexact).
  cbv beta iota.
  assert (Hpow : 0 < 2 ^ (- e')) by (apply pow2_pos; lia).
  assert (Hmq : mq = 2 ^ (- e')) by nia.
  assert (Hrem0 : rem = 0) by nia.
  rewrite (Hexact Hrem0) in *.
  assert (Hdq : Zdigits2 mq = - e' + 1).
  { apply Z.le_antisymm.
    - apply Zdigits2_le_of_lt; [lia|lia|].
      rewrite Hmq. apply Z.pow_lt_mono_r; lia.
    - assert (- e' < Zdigits2 mq); [|lia].
      apply Zdigits2_gt_of_le; lia. }
  destruct (binary_round_aux_spec false mq e' l Hq Hfe)
    as (m2 & e2 & -> & Hm2 & He2 & Hval & Hcan).
  rewrite Hdq in *.
  replace (- e' + 1 + e') with 1 in * by lia.
  change (fexp53 1) with (-52) in *.
  rewrite (Hexact Hrem0) in Hval.
  assert (Hp1 : 0 < 2 ^ (-52 - e')) by (apply pow2_pos; lia).
  assert (Hr : rhe (4 * mq + 0) (4 * 2 ^ (-52 - e')) = 2 ^ 52).
  { rewrite <- (rhe_grid (4 * 2 ^ (-52 - e')) ltac:(lia) (2 ^ 52)).
    f_equal. rewrite Hmq.
    replace (- e') with (52 + (-52 - e')) at 1 by lia.
    rewrite Z.pow_add_r by lia. lia. }
  rewrite Hr in Hval.
  assert (Hp2 : 0 < 2 ^ (e2 - -52)) by (apply pow2_pos; lia).
  destruct m2 as [|p2|p2]; [lia| |lia].
  specialize (Hcan ltac:(lia)). simpl Zdigits2 in Hcan.
  destruct (canonical_unique p2 e2 4503599627370496 (-52) Hcan eq_refl)
    as [-> ->].
  { rewrite (Zval_split _ e2 (-52)) by lia. rewrite Hval. reflexivity. }
  reflexivity.
Qed.

(** ** Every question answered unsafely *)

Lemma total_risk_all answers questions :
  Forall (λ q, answered_unsafely answers q = true) questions →
  total_risk answers questions = total_weight questions.
Proof.
  induction 1 as [|q qs Hq _ IH]; [done|].
  rewrite total_risk_cons, total_weight_cons, IH. unfold risk_of.
  by rewrite Hq.
Qed.

Lemma pillar_risk_all answers p questions :
  Forall (λ q, answered_unsafely answers q = true) questions →
  pillar_risk_of answers p questions = pillar_weight p questions.
Proof.
  intros H. unfold pillar_risk_of, pillar_weight.
  apply total_risk_all. rewrite Forall_forall in *. intros q Hq.
  apply list_elem_of_filter in Hq as [_ Hq]. by apply H.
Qed.

Lemma pillar_weight_nonneg p questions :
  Forall (λ q, 0 ≤ weight_of q) questions → 0 ≤ pillar_weight p questions.
Proof.
  intros H.
  pose proof (pillar_risk_bounds (∅ : gmap string string) p questions H).
  lia.
Qed.

Lemma expected_score_of_full m :
  0 ≤ m →
  expected_pillar_score m m =
    Ok (if m =? 0 then F64.of_int 100 else F64.zero).
Proof.
  intros Hm. unfold expected_pillar_score.
  destruct (Z.eqb_spec m 0) as [->|Hne]; [done|].
  rewrite int_true_divide_self by lia. reflexivity.
Qed.

(** X2. On a valid catalog in which every question was answered
    unsafely, the risk points are the maximum; when that maximum is
    positive the risk percentage is 100.0, the score is 0.0 and the
    level is "HIGH", and when it is zero (every weight is 0) the score
    is 100.0 and the level "LOW" all the same. A pillar scores 0.0,
    or 100.0 when its weights sum to 0. *)
Theorem all_unsafe_scores_zero questions answers :
  valid_catalog questions →
  Forall (λ q, answered_unsafely answers q = true) questions →
  ∃ s ps,
    calculate_scores questions answers = Ok (s, ps) ∧
    risk_points s = max_risk s ∧
    (0 < max_risk s →
     risk_percentage s = F64.of_int 100 ∧
     security_score s = F64.zero ∧ risk_level s = "HIGH") ∧
    (max_risk s = 0 →
     risk_percentage s = F64.zero ∧
     security_score s = F64.of_int 100 ∧ risk_level s = "LOW") ∧
    ∀ p v, (p, v) ∈ ps →
           v = if pillar_weight p questions =? 0
               then F64.of_int 100 else F64.zero.
Proof.
  intros Hv Hall.
  destruct (calculate_scores_valid questions answers Hv)
    as (rp & ps & _ & Hcalc).
  eexists _, ps. split; [exact Hcalc|].
  destruct (summary_shape _ _ _ _ Hcalc) as (rp' & Hrp & Hs).
  assert (rp' = rp) as -> by congruence. clear Hs.
  cbn [risk_points max_risk risk_percentage security_score risk_level].
  rewrite (total_risk_all answers questions Hall) in *.
  split; [done|]. unfold risk_percentage_of in Hrp. split; [|split].
  - intros Hpos. destruct (Z.eqb_spec (total_weight questions) 0); [lia|].
    rewrite int_true_divide_self, bind_Ok in Hrp by done.
    assert (rp = F64.mul one (F64.of_int 100)) as -> by congruence.
    repeat split; vm_compute; reflexivity.
  - intros H0. rewrite H0 in Hrp. simpl in Hrp.
    assert (rp = F64.zero) as -> by congruence.
    repeat split; vm_compute; reflexivity.
  - intros p v Hpv.
    destruct (pillar_scores_entries _ _ _ _ Hcalc) as [_ Hin].
    specialize (Hin p v Hpv).
    rewrite (pillar_risk_all answers p questions Hall) in Hin.
    rewrite expected_score_of_full in Hin; [congruence|].
    apply pillar_weight_nonneg. by apply valid_catalog_weights.
Qed.

Lemma all_unsafe_scores_zero_witness :
  ∃ s ps,
    calculate_scores catalog_two (<["Q1" := "no"]> (<["Q2" := "maybe"]> ∅))
      = Ok (s, ps) ∧
    risk_points s = max_risk s ∧
    (0 < max_risk s →
     risk_percentage s = F64.of_int 100 ∧
     security_score s = F64.zero ∧ risk_level s = "HIGH") ∧
    (max_risk s = 0 →
     risk_percentage s = F64.zero ∧
     security_score s = F64.of_int 100 ∧ risk_level s = "LOW") ∧
    ∀ p v, (p, v) ∈ ps →
           v = if pillar_weight p catalog_two =? 0
               then F64.of_int 100 else F64.zero.
Proof.
  apply (all_unsafe_scores_zero catalog_two).
  - repeat constructor.
  - repeat constructor.
Defined.

(** ** Only whether an answer is unsafe matters *)

Lemma score_loop_unsafe answers answers' questions :
  Forall (λ q, answered_unsafely answers q = answered_unsafely answers' q)
         questions →
  ∀ st, score_loop answers st questions = score_loop answers' st questions.
Proof.
  induction 1 as [|q qs Hq _ IH]; intros st; [done|].
  simpl. assert (Hstep : score_step answers st q = score_step answers' st q).
  { unfold score_step, answered_unsafely in *.
    destruct (q_pillar q), (q_weight q); try done.
    destruct (q_id q) as [qid|]; [|done]. simpl. by rewrite Hq. }
  rewrite Hstep. destruct (score_step answers' st q); simpl; [apply IH|done].
Qed.

Lemma rec_loop_unsafe answers answers' questions :
  Forall (λ q, answered_unsafely answers q = answered_unsafely answers' q)
         questions →
  ∀ recs, rec_loop answers recs questions = rec_loop answers' recs questions.
Proof.
  induction 1 as [|q qs Hq _ IH]; intros recs; [done|].
  simpl. assert (Hstep : rec_step answers recs q = rec_step answers' recs q).
  { unfold rec_step, answered_unsafely in *.
    destruct (q_id q) as [qid|]; [|done].
    change (getitem "id" (Some qid)) with (Ok qid). rewrite !bind_Ok.
    by rewrite Hq. }
  rewrite Hstep. destruct (rec_step answers' recs q); simpl; [apply IH|done].
Qed.

(** X3. The answers enter both functions only through the test
    "answered, and not with the good answer": two answer mappings
    under which the same questions are answered unsafely give the same
    result, or the same exception, on any catalog. So a question left
    out counts like one answered well, and every wrong answer counts
    like any other. *)
Theorem only_unsafe_answers_matter questions answers answers' :
  (∀ q, q ∈ questions →
        answered_unsafely answers q = answered_unsafely answers' q) →
  calculate_scores questions answers = calculate_scores questions answers' ∧
  generate_recommendations questions answers =
    generate_recommendations questions answers'.
Proof.
  intros H. apply Forall_forall in H. split.
  - unfold calculate_scores.
    by rewrite (score_loop_unsafe answers answers' questions H).
  - unfold generate_recommendations. by apply rec_loop_unsafe.
Qed.

Lemma only_unsafe_answers_matter_witness :
  calculate_scores catalog_two (<["Q1" := "no"]> ∅) =
    calculate_scores catalog_two (<["Q1" := "maybe"]> (<["Q2" := "yes"]> ∅)) ∧
  generate_recommendations catalog_two (<["Q1" := "no"]> ∅) =
    generate_recommendations catalog_two
      (<["Q1" := "maybe"]> (<["Q2" := "yes"]> ∅)).
Proof.
  apply (only_unsafe_answers_matter catalog_two).
  intros q Hq.
  apply elem_of_cons in Hq as [->|Hq]; [reflexivity|].
  apply elem_of_cons in Hq as [->|Hq]; [reflexivity|].
  by apply elem_of_nil in Hq.
Defined.

(** ** The list of recommendations *)

Lemma rec_loop_ids answers questions :
  ∀ recs recs', rec_loop answers recs questions = Ok recs' →
                Forall (λ q, present (q_id q) = true) questions.
Proof.
  induction questions as [|q qs IH]; intros recs recs' H; [constructor|].
  simpl in H. apply bind_Ok_inv in H as (recs1 & Hstep & Hloop).
  constructor; [|by eapply IH].
  unfold rec_step in Hstep. by destruct (q_id q).
Qed.

Lemma rec_loop_no_id answers questions :
  Exists (λ q, q_id q = None) questions →
  ∀ recs, rec_loop answers recs questions = Raise (KeyError "id").
Proof.
  induction 1 as [q qs Hq|q qs _ IH]; intros recs; simpl.
  - unfold rec_step. by rewrite Hq.
  - destruct (rec_step answers recs q) as [recs1|e] eqn:Hstep; simpl.
    + apply IH.
    + unfold rec_step in Hstep. destruct (q_id q) as [qid|]; [|by inversion Hstep].
      change (getitem "id" (Some qid)) with (Ok qid) in Hstep.
      rewrite bind_Ok in Hstep.
      destruct (is_unsafe _ _); [|done].
      destruct (OrderedDict.get recommendation_map qid); [|done].
      by destruct (_ && _).
Qed.

Lemma advice_unsafe answers q text :
  advice answers q = Some text → answered_unsafely answers q = true.
Proof.
  unfold advice, answered_unsafely. destruct (q_id q); [|done].
  by destruct (is_unsafe _ _).
Qed.

Lemma advice_in_map answers q text :
  advice answers q = Some text → text ∈ recommendation_map.*2.
Proof.
  unfold advice. destruct (q_id q) as [qid|]; [|done].
  destruct (is_unsafe _ _); [|done]. intros H.
  apply od_get_Some_elem in H. change text with ((qid, text).2).
  by apply list_elem_of_fmap_2.
Qed.

Lemma length_omap_advice answers questions :
  (length (omap (advice answers) questions) ≤
   length (filter (λ q, answered_unsafely answers q = true) questions))%nat.
Proof.
  induction questions as [|q qs IH]; [done|].
  rewrite filter_cons. simpl omap. unfold omap in IH.
  destruct (advice answers q) as [text|] eqn:Ha.
  - rewrite decide_True by by eapply advice_unsafe. simpl. lia.
  - destruct (decide _); simpl; lia.
Qed.

Lemma length_first_occurrences (l : list string) :
  (length (first_occurrences l) ≤ length l)%nat.
Proof.
  induction l as [|x l IH]; simpl; [done|].
  pose proof (length_filter (λ y, y ≠ x) (first_occurrences l)). lia.
Qed.

(** X4. A list [generate_recommendations] returns has no text twice;
    a text is in it exactly when it is the text mapped to the id of
    some question that was answered unsafely; it is no longer than 20
    entries, nor than the number of questions answered unsafely. *)
Theorem recommendations_sound_and_complete questions answers recs :
  generate_recommendations questions answers = Ok recs →
  NoDup recs ∧
  (∀ text, text ∈ recs ↔
           ∃ q qid, q ∈ questions ∧ q_id q = Some qid ∧
                    answered_unsafely answers q = true ∧
                    OrderedDict.get recommendation_map qid = Some text) ∧
  (length recs ≤ 20)%nat ∧
  (length recs ≤
   length (filter (λ q, answered_unsafely answers q = true) questions))%nat.
Proof.
  unfold generate_recommendations. intros H.
  assert (Hids := rec_loop_ids _ _ _ _ H).
  rewrite (rec_loop_spec answers questions Hids), foldl_add_key_nil in H.
  injection H as <-.
  assert (Hmem : ∀ text, text ∈ first_occurrences (omap (advice answers) questions)
                 ↔ ∃ q, q ∈ questions ∧ advice answers q = Some text).
  { intros text. rewrite first_occurrences_elem. apply list_elem_of_omap. }
  split; [apply first_occurrences_NoDup|]. split; [|split].
  - intros text. rewrite Hmem. split.
    + intros (q & Hq & Ha). assert (Hu := advice_unsafe _ _ _ Ha).
      unfold advice, answered_unsafely in *.
      destruct (q_id q) as [qid|] eqn:Hid; [|done].
      exists q, qid. rewrite Hid. rewrite Hu in Ha. done.
    + intros (q & qid & Hq & Hid & Hu & Hget). exists q. split; [done|].
      unfold advice, answered_unsafely in *. rewrite Hid in *. by rewrite Hu.
  - change 20%nat with (length recommendation_map.*2).
    apply submseteq_length, NoDup_submseteq; [apply first_occurrences_NoDup|].
    intros text Ht. apply Hmem in Ht as (q & _ & Ha).
    by eapply advice_in_map.
  - etrans; [apply length_first_occurrences | apply length_omap_advice].
Qed.

Lemma recommendations_sound_and_complete_witness :
  ∃ recs,
    generate_recommendations catalog_repeated answers_repeated = Ok recs ∧
    NoDup recs ∧ (length recs ≤ 20)%nat.
Proof.
  eexists. split; [vm_compute; reflexivity|].
  destruct (recommendations_sound_and_complete catalog_repeated
              answers_repeated _ eq_refl) as (Hnd & _ & Hlen & _).
  split; [exact Hnd | exact Hlen].
Defined.

Lemma generate_recommendations_cases questions answers :
  generate_recommendations questions answers =
    if forallb (λ q, present (q_id q)) questions
    then Ok (first_occurrences (omap (advice answers) questions))
    else Raise (KeyError "id").
Proof.
  unfold generate_recommendations.
  destruct (forallb _ questions) eqn:Hall.
  - rewrite rec_loop_spec, foldl_add_key_nil; [done|].
    apply Forall_forall. intros q Hq.
    rewrite forallb_forall in Hall. apply Hall.
    by apply list_elem_of_In.
  - apply rec_loop_no_id. apply Exists_exists.
    apply not_true_iff_false in Hall.
    destruct (decide (Exists (λ q, q_id q = None) questions)) as [Hex|Hnex].
    { by apply Exists_exists in Hex. }
    exfalso. apply Hall. apply forallb_forall. intros q Hq.
    apply list_elem_of_In in Hq.
    destruct (q_id q) eqn:Hid; [done|].
    exfalso. apply Hnex, Exists_exists. by exists q.
Qed.

(** Scoring a catalog with ids in which a record lacks [weight] or
    [pillar]. *)
Lemma calculate_scores_missing questions answers :
  Forall (λ q, present (q_id q) = true) questions →
  Exists (λ q, has_fields q = false) questions →
  ∃ k, calculate_scores questions answers = Raise (KeyError k) ∧
       k ∈ ["weight"; "pillar"].
Proof.
  intros Hids Hex. unfold calculate_scores.
  destruct (sum_weights 0 questions) as [m|e] eqn:Hsum.
  - destruct (score_loop_missing answers questions Hex init_state)
      as (k & pre & q & post & st & Hsplit & _ & _ & Hstep & _ & ->).
    rewrite bind_Ok. exists k. split; [done|].
    assert (Hq : present (q_id q) = true).
    { rewrite Forall_forall in Hids. apply Hids. rewrite Hsplit.
      apply elem_of_app. right. left. }
    unfold score_step in Hstep.
    destruct (q_pillar q) as [p|]; [|injection Hstep as <-; right; left].
    destruct (q_weight q) as [wt|]; [|injection Hstep as <-; left].
    destruct (q_id q) as [qid|]; [|done].
    change (getitem "pillar" (Some p)) with (Ok p) in Hstep.
    change (getitem "weight" (Some wt)) with (Ok wt) in Hstep.
    change (getitem "id" (Some qid)) with (Ok qid) in Hstep.
    rewrite !bind_Ok in Hstep. by destruct (is_unsafe _ _).
  - exists "weight". split; [|left].
    destruct (decide (Exists (λ q, q_weight q = None) questions)) as [Hw|Hw].
    { rewrite (sum_weights_missing questions Hw 0) in Hsum. by rewrite <- Hsum. }
    exfalso. apply Hw. clear -Hsum. revert Hsum. generalize 0.
    induction questions as [|q qs IH]; intros acc; simpl; [done|].
    destruct (q_weight q) eqn:E; simpl.
    + intros Hs. right. by eapply IH.
    + intros _. by left.
Qed.

(** X5. [generate_recommendations] needs nothing of a record but its
    [id]: it returns whenever every record has one and raises
    [KeyError] for "id" otherwise, whatever the answers. So on a
    catalog with ids in which a record lacks [weight] or [pillar],
    the recommendations are produced although [calculate_scores]
    raises a [KeyError] for the missing field. *)
Theorem recommendations_need_only_ids questions answers :
  (generate_recommendations questions answers =
     if forallb (λ q, present (q_id q)) questions
     then Ok (first_occurrences (omap (advice answers) questions))
     else Raise (KeyError "id")) ∧
  (Forall (λ q, present (q_id q) = true) questions →
   Exists (λ q, has_fields q = false) questions →
   succeeds (generate_recommendations questions answers) ∧
   ∃ k, calculate_scores questions answers = Raise (KeyError k) ∧
        k ∈ ["weight"; "pillar"]).
Proof.
  split; [apply generate_recommendations_cases|].
  intros Hids Hex. split; [|by apply calculate_scores_missing].
  rewrite generate_recommendations_cases.
  assert (Hall : forallb (λ q, present (q_id q)) questions = true).
  { apply forallb_forall. intros q Hq. apply list_elem_of_In in Hq.
    rewrite Forall_forall in Hids. by apply Hids. }
  rewrite Hall. by eexists.
Qed.

Lemma recommendations_need_only_ids_witness :
  succeeds (generate_recommendations catalog_missing_pillar answers_two) ∧
  ∃ k, calculate_scores catalog_missing_pillar answers_two
         = Raise (KeyError k) ∧
       k ∈ ["weight"; "pillar"].
Proof.
  destruct (recommendations_need_only_ids catalog_missing_pillar answers_two)
    as [_ H].
  apply H.
  - repeat constructor.
  - right. left. reflexivity.
Defined.

(** ** A catalog with one pillar *)

Lemma filter_Forall_id {A} (P : A → Prop) `{!∀ x, Decision (P x)} (l : list A) :
  Forall P l → filter P l = l.
Proof.
  induction 1 as [|x l Hx _ IH]; [done|].
  rewrite filter_cons_True by done. by rewrite IH.
Qed.

Lemma filter_in_pillar_all p questions :
  Forall (λ q, q_pillar q = Some p) questions →
  filter (λ q, in_pillar p q = true) questions = questions.
Proof.
  intros H. apply filter_Forall_id. eapply Forall_impl; [exact H|].
  intros q Hq. unfold in_pillar. by apply bool_decide_eq_true.
Qed.

Lemma first_occurrences_constant p (l : list string) :
  l ≠ [] → Forall (λ x, x = p) l → first_occurrences l = [p].
Proof.
  intros Hne H. destruct H as [|x l -> H]; [done|]. clear Hne.
  simpl. f_equal.
  induction H as [|y l -> _ IH]; [done|].
  simpl. rewrite filter_cons, decide_False by (intros Hn; by apply Hn).
  assert (Hidem : ∀ k : list string,
            filter (λ y, y ≠ p) (filter (λ y, y ≠ p) k) = filter (λ y, y ≠ p) k).
  { intros k. apply filter_Forall_id, Forall_forall. intros z Hz.
    by apply list_elem_of_filter in Hz as [Hz _]. }
  by rewrite Hidem.
Qed.

(** X6. When every question of a non-empty catalog belongs to the same
    pillar, the only pillar score is the overall security score. *)
Theorem single_pillar_score_is_overall questions answers p s ps :
  questions ≠ [] →
  Forall (λ q, q_pillar q = Some p) questions →
  calculate_scores questions answers = Ok (s, ps) →
  ps = [(p, security_score s)].
Proof.
  intros Hne Hp Hcalc.
  destruct (pillar_scores_entries _ _ _ _ Hcalc) as [Hkeys Hin].
  destruct (summary_shape _ _ _ _ Hcalc) as (rp & Hrp & ->).
  cbn [security_score].
  assert (Hps : pillars questions = replicate (length questions) p).
  { unfold pillars. clear -Hp. induction Hp as [|q qs Hq _ IH]; [done|].
    simpl. rewrite Hq. f_equal. exact IH. }
  rewrite first_occurrences_constant with (p := p) in Hkeys.
  2: { unfold pillars. destruct questions as [|q qs]; [done|].
       apply Forall_cons in Hp as [Hq _]. simpl. by rewrite Hq. }
  2: { rewrite Hps. apply Forall_forall. intros x Hx.
       by apply elem_of_replicate in Hx as [-> _]. }
  destruct ps as [|[p' v] [|]]; try done.
  injection Hkeys as ->.
  specialize (Hin p v ltac:(left)).
  unfold pillar_risk_of, pillar_weight in Hin.
  rewrite filter_in_pillar_all in Hin by done.
  unfold expected_pillar_score in Hin. unfold risk_percentage_of in Hrp.
  destruct (total_weight questions =? 0).
  - assert (rp = F64.zero) as -> by congruence.
    assert (v = F64.of_int 100) as -> by congruence. reflexivity.
  - destruct (F64.int_true_divide _ _) as [ratio|]; [|done].
    rewrite bind_Ok in Hin, Hrp. congruence.
Qed.

Lemma single_pillar_score_is_overall_witness :
  ∃ s ps,
    calculate_scores catalog_one_pillar answers_two = Ok (s, ps) ∧
    ps = [("Protect", security_score s)].
Proof.
  eexists _, _. split; [vm_compute; reflexivity|].
  apply (single_pillar_score_is_overall catalog_one_pillar answers_two
           "Protect").
  - discriminate.
  - repeat constructor.
  - vm_compute; reflexivity.
Defined.

(** ** The order of the questions *)

Lemma total_weight_perm qs qs' :
  qs ≡ₚ qs' → total_weight qs = total_weight qs'.
Proof.
  induction 1 as [|q qs qs' _ IH|q q' qs|qs qs1 qs2 _ IH1 _ IH2];
    rewrite ?total_weight_cons; try done; lia.
Qed.

Lemma total_risk_perm answers qs qs' :
  qs ≡ₚ qs' → total_risk answers qs = total_risk answers qs'.
Proof.
  induction 1 as [|q qs qs' _ IH|q q' qs|qs qs1 qs2 _ IH1 _ IH2];
    rewrite ?total_risk_cons; try done; lia.
Qed.

Lemma pillar_weight_perm p qs qs' :
  qs ≡ₚ qs' → pillar_weight p qs = pillar_weight p qs'.
Proof.
  intros H. unfold pillar_weight. apply total_weight_perm.
  by apply filter_Permutation.
Qed.

Lemma pillar_risk_perm answers p qs qs' :
  qs ≡ₚ qs' → pillar_risk_of answers p qs = pillar_risk_of answers p qs'.
Proof.
  intros H. unfold pillar_risk_of. apply total_risk_perm.
  by apply filter_Permutation.
Qed.

Lemma pillar_scores_NoDup questions answers s ps :
  calculate_scores questions answers = Ok (s, ps) →
  NoDup (OrderedDict.keys ps).
Proof.
  intros H. destruct (pillar_scores_entries _ _ _ _ H) as [-> _].
  apply first_occurrences_NoDup.
Qed.

(** A pillar of the catalog has a score in a returned result. *)
Lemma pillar_scores_complete questions answers s ps p :
  calculate_scores questions answers = Ok (s, ps) →
  p ∈ pillars questions →
  ∃ v, (p, v) ∈ ps ∧
       expected_pillar_score (pillar_risk_of answers p questions)
                             (pillar_weight p questions) = Ok v.
Proof.
  intros H Hp. destruct (pillar_scores_entries _ _ _ _ H) as [Hkeys Hin].
  apply first_occurrences_elem in Hp. rewrite <- Hkeys in Hp.
  apply list_elem_of_fmap in Hp as ([p' v] & -> & Hpv).
  exists v. split; [done|]. by apply Hin.
Qed.

Lemma pillar_scores_sound questions answers s ps p v :
  calculate_scores questions answers = Ok (s, ps) →
  (p, v) ∈ ps → p ∈ pillars questions.
Proof.
  intros H Hpv. destruct (pillar_scores_entries _ _ _ _ H) as [Hkeys _].
  apply first_occurrences_elem. rewrite <- Hkeys.
  change p with ((p, v).1). by apply list_elem_of_fmap_2.
Qed.

(** Scoring goes through as soon as every record has its fields and
    every division the catalog asks for does. *)
Lemma calculate_scores_intro questions answers rp :
  Forall (λ q, has_fields q = true) questions →
  risk_percentage_of (total_risk answers questions)
                     (total_weight questions) = Ok rp →
  (∀ p, p ∈ pillars questions →
        succeeds (expected_pillar_score (pillar_risk_of answers p questions)
                                        (pillar_weight p questions))) →
  ∃ ps, calculate_scores questions answers =
          Ok ({| risk_points := total_risk answers questions;
                 max_risk := total_weight questions;
                 risk_percentage := rp;
                 security_score := F64.sub (F64.of_int 100) rp;
                 risk_level := risk_level_of (F64.sub (F64.of_int 100) rp) |},
              ps).
Proof.
  intros Hf Hrp Hps.
  destruct (calculate_scores_unfold questions answers Hf)
    as (st & _ & _ & Hm & Hk & Hkeys & ->).
  rewrite Hrp, bind_Ok.
  destruct (pillar_loop_succeeds (st_pillar_risk st) (st_pillar_max st)
              OrderedDict.empty) as [ps Hloop].
  { assert (Hnd : NoDup (OrderedDict.keys (st_pillar_max st))).
    { rewrite Hkeys. apply first_occurrences_NoDup. }
    apply Forall_forall. intros [p mw] Hin. simpl.
    rewrite pillar_score_expected, Hk.
    assert (Hmw : mw = pillar_weight p questions).
    { rewrite <- Hm. unfold OrderedDict.get_default.
      by rewrite (od_get_elem _ p mw Hnd Hin). }
    subst mw. apply Hps. apply first_occurrences_elem. rewrite <- Hkeys.
    change p with ((p, pillar_weight p questions).1).
    by apply list_elem_of_fmap_2. }
  exists ps. by rewrite Hloop.
Qed.

(** X7. The order of the questions in the catalog matters only for the
    order of the output: on a catalog with the same records in another
    order, [calculate_scores] returns the same summary and the same
    score for every pillar, and [generate_recommendations] the same
    texts. *)
Theorem question_order_is_immaterial questions questions' answers :
  questions ≡ₚ questions' →
  (∀ s ps, calculate_scores questions answers = Ok (s, ps) →
           ∃ ps', calculate_scores questions' answers = Ok (s, ps') ∧
                  ps' ≡ₚ ps) ∧
  (∀ recs, generate_recommendations questions answers = Ok recs →
           ∃ recs', generate_recommendations questions' answers = Ok recs' ∧
                    recs' ≡ₚ recs).
Proof.
  intros Hperm. split.
  - intros s ps Hcalc.
    assert (Hf := calculate_scores_fields _ _ _ Hcalc).
    destruct (summary_shape _ _ _ _ Hcalc) as (rp & Hrp & Hs).
    assert (Hpil : ∀ p, p ∈ pillars questions' ↔ p ∈ pillars questions).
    { intros p. unfold pillars. by rewrite Hperm. }
    destruct (calculate_scores_intro questions' answers rp) as [ps' Hcalc'].
    + by rewrite <- Hperm.
    + by rewrite <- (total_risk_perm answers _ _ Hperm),
                 <- (total_weight_perm _ _ Hperm).
    + intros p Hp. apply Hpil in Hp.
      destruct (pillar_scores_complete _ _ _ _ p Hcalc Hp) as (v & _ & Hv).
      exists v.
      by rewrite <- (pillar_risk_perm answers p _ _ Hperm),
                 <- (pillar_weight_perm p _ _ Hperm).
    + exists ps'. split.
      { rewrite Hcalc', Hs.
        by rewrite <- (total_risk_perm answers _ _ Hperm),
                   <- (total_weight_perm _ _ Hperm). }
      apply NoDup_Permutation.
      * eapply NoDup_fmap_1, pillar_scores_NoDup, Hcalc'.
      * eapply NoDup_fmap_1, pillar_scores_NoDup, Hcalc.
      * assert (Hone : ∀ qs1 qs2 s1 s2 ps1 ps2,
                  qs1 ≡ₚ qs2 →
                  calculate_scores qs1 answers = Ok (s1, ps1) →
                  calculate_scores qs2 answers = Ok (s2, ps2) →
                  ∀ x, x ∈ ps1 → x ∈ ps2).
        { intros qs1 qs2 s1 s2 ps1 ps2 Hp12 H1 H2 [p v] Hpv.
          destruct (pillar_scores_entries _ _ _ _ H1) as [_ Hin1].
          assert (Hp := pillar_scores_sound _ _ _ _ _ _ H1 Hpv).
          unfold pillars in Hp. rewrite Hp12 in Hp.
          destruct (pillar_scores_complete _ _ _ _ p H2 Hp) as (v' & Hpv' & Hv').
          specialize (Hin1 p v Hpv).
          rewrite (pillar_risk_perm answers p _ _ Hp12),
                  (pillar_weight_perm p _ _ Hp12) in Hin1.
          assert (v' = v) as -> by congruence. done. }
        intros x. split.
        -- eapply Hone; [symmetry; exact Hperm | exact Hcalc' | exact Hcalc].
        -- eapply Hone; [exact Hperm | exact Hcalc | exact Hcalc'].
  - intros recs. rewrite !generate_recommendations_cases.
    destruct (forallb _ questions) eqn:Hall; [|done].
    intros [= <-].
    assert (Hall' : forallb (λ q, present (q_id q)) questions' = true).
    { rewrite forallb_forall in *. intros q Hq. apply Hall.
      apply list_elem_of_In. rewrite Hperm. by apply list_elem_of_In. }
    rewrite Hall'. eexists. split; [done|].
    apply NoDup_Permutation; try apply first_occurrences_NoDup.
    intros text. rewrite !first_occurrences_elem. by rewrite Hperm.
Qed.

Lemma question_order_is_immaterial_witness :
  ∃ s ps ps',
    calculate_scores catalog_two answers_two = Ok (s, ps) ∧
    calculate_scores (reverse catalog_two) answers_two = Ok (s, ps') ∧
    ps' ≡ₚ ps.
Proof.
  destruct (question_order_is_immaterial catalog_two (reverse catalog_two)
              answers_two) as [H _].
  - symmetry. apply reverse_Permutation.
  - eexists _, _.
    assert (Hcalc : ∀ r, r = calculate_scores catalog_two answers_two →
                         calculate_scores catalog_two answers_two = r)
      by (intros r ->; reflexivity).
    specialize (Hcalc _ ltac:(vm_compute; reflexivity)).
    destruct (H _ _ Hcalc) as (ps' & Hcalc' & Hps).
    exists ps'. split; [exact Hcalc|]. split; [exact Hcalc' | exact Hps].
Defined.

(** ** [get_answers_from_session] *)

Section web.
Context `{ops : StrOps}.

Lemma ids_cons q qs qid :
  q_id q = Some qid → ids (q :: qs) = qid :: ids qs.
Proof. intros Hid. unfold ids. simpl. by rewrite Hid. Qed.

Lemma session_step_spec session_state answers q qid :
  q_id q = Some qid →
  session_step session_state answers q =
    Ok (match session_state !! qid ≫= radio_answer with
        | Some a => <[qid := a]> answers
        | None => answers
        end).
Proof.
  intros Hid. unfold session_step. rewrite Hid.
  change (getitem "id" (Some qid)) with (Ok qid). rewrite bind_Ok.
  destruct (session_state !! qid) as [raw|]; [|done]. simpl.
  unfold radio_answer.
  destruct (String.prefix "y" _); [done|].
  by destruct (String.prefix "n" _).
Qed.

Lemma session_loop_spec session_state questions :
  Forall (λ q, present (q_id q) = true) questions →
  ∀ acc, ∃ answers,
    session_loop session_state acc questions = Ok answers ∧
    ∀ k, answers !! k =
         match (if bool_decide (k ∈ ids questions)
                then session_state !! k ≫= radio_answer else None) with
         | Some a => Some a
         | None => acc !! k
         end.
Proof.
  induction 1 as [|q qs Hq _ IH]; intros acc.
  - exists acc. split; [done|]. intros k. done.
  - destruct (q_id q) as [qid|] eqn:Hid; [|done].
    simpl session_loop.
    rewrite (session_step_spec session_state acc q qid Hid), bind_Ok.
    destruct (IH (match session_state !! qid ≫= radio_answer with
                  | Some a => <[qid := a]> acc
                  | None => acc
                  end)) as (answers & -> & Hlook).
    exists answers. split; [done|]. intros k. rewrite Hlook.
    rewrite (ids_cons q qs qid Hid).
    destruct (decide (k = qid)) as [->|Hne].
    + rewrite (bool_decide_eq_true_2 (qid ∈ qid :: _)) by left.
      destruct (bool_decide (qid ∈ ids qs));
        destruct (session_state !! qid ≫= radio_answer) as [a|]; try done.
      by rewrite lookup_insert_eq.
    + assert (Hiff : bool_decide (k ∈ qid :: ids qs) =
                     bool_decide (k ∈ ids qs)).
      { apply bool_decide_ext. rewrite elem_of_cons.
        split; [intros [?|?]; done | by right]. }
      rewrite Hiff. destruct (bool_decide (k ∈ ids qs)).
      * destruct (session_state !! k ≫= radio_answer); [done|].
        destruct (session_state !! qid ≫= radio_answer); [|done].
        by rewrite lookup_insert_ne.
      * destruct (session_state !! qid ≫= radio_answer); [|done].
        by rewrite lookup_insert_ne.
Qed.

Lemma session_loop_no_id session_state questions :
  Exists (λ q, q_id q = None) questions →
  ∀ acc, session_loop session_state acc questions = Raise (KeyError "id").
Proof.
  induction 1 as [q qs Hq|q qs _ IH]; intros acc; simpl.
  - unfold session_step. by rewrite Hq.
  - destruct (q_id q) as [qid|] eqn:Hid.
    + rewrite (session_step_spec session_state acc q qid Hid), bind_Ok.
      apply IH.
    + unfold session_step. by rewrite Hid.
Qed.

Lemma radio_answer_values raw a :
  radio_answer raw = Some a → a = "yes" ∨ a = "no".
Proof.
  unfold radio_answer. destruct (String.prefix "y" _); [intros [= <-]; by left|].
  destruct (String.prefix "n" _); [intros [= <-]; by right|done].
Qed.

Lemma get_answers_from_session_lookup questions session_state :
  Forall (λ q, present (q_id q) = true) questions →
  ∃ answers,
    get_answers_from_session questions session_state = Ok answers ∧
    ∀ k, answers !! k =
         if bool_decide (k ∈ ids questions)
         then session_state !! k ≫= radio_answer else None.
Proof.
  intros Hids. unfold get_answers_from_session.
  destruct (session_loop_spec session_state questions Hids ∅)
    as (answers & Hloop & Hlook).
  exists answers. split; [done|]. intros k. rewrite Hlook.
  destruct (bool_decide _); [|done].
  by destruct (session_state !! k ≫= radio_answer).
Qed.

(** X8. [get_answers_from_session] returns whenever every record has
    an [id], and raises [KeyError] for "id" otherwise. The mapping it
    returns has an entry exactly for the ids of the catalog whose
    radio button value, stripped and lower-cased, starts with "y" or
    with "n"; the entry is "yes" in the first case and "no" in the
    second, so no other value ever reaches the scoring functions. *)
Theorem session_answers_are_yes_or_no questions session_state :
  (Forall (λ q, present (q_id q) = true) questions →
   ∃ answers,
     get_answers_from_session questions session_state = Ok answers ∧
     (∀ k, answers !! k =
           if bool_decide (k ∈ ids questions)
           then session_state !! k ≫= radio_answer else None) ∧
     (∀ k a, answers !! k = Some a → a = "yes" ∨ a = "no")) ∧
  (Exists (λ q, q_id q = None) questions →
   get_answers_from_session questions session_state = Raise (KeyError "id")).
Proof.
  split.
  - intros Hids.
    destruct (get_answers_from_session_lookup questions session_state Hids)
      as (answers & Hget & Hlook).
    exists answers. split; [done|]. split; [done|].
    intros k a. rewrite Hlook. destruct (bool_decide _); [|done].
    destruct (session_state !! k) as [raw|]; [|done]. simpl.
    apply radio_answer_values.
  - intros Hex. by apply session_loop_no_id.
Qed.

(** ** The submitted form *)

Lemma missing_ids_spec questions answers :
  Forall (λ q, present (q_id q) = true) questions →
  missing_ids questions answers =
    Ok (filter (λ k, answers !! k = None) (ids questions)).
Proof.
  induction 1 as [|q qs Hq _ IH]; [done|].
  destruct (q_id q) as [qid|] eqn:Hid; [|done].
  simpl missing_ids. rewrite Hid.
  change (getitem "id" (Some qid)) with (Ok qid). rewrite bind_Ok, IH.
  rewrite (ids_cons q qs qid Hid), filter_cons.
  destruct (answers !! qid) eqn:Ha.
  - by rewrite decide_False.
  - by rewrite decide_True.
Qed.


Lemma eqb_empty_false s : s ≠ "" → String.eqb s "" = false.
Proof. intros Hs. by apply String.eqb_neq. Qed.

Lemma filter_nil_iff {A} (P : A → Prop) `{!∀ x, Decision (P x)} (l : list A) :
  filter P l = [] ↔ ∀ x, x ∈ l → ¬ P x.
Proof.
  split.
  - intros Hnil x Hx HP.
    assert (Hin : x ∈ filter P l) by (by apply list_elem_of_filter).
    rewrite Hnil in Hin. by apply elem_of_nil in Hin.
  - intros Hall. induction l as [|x l IH]; [done|].
    rewrite filter_cons_False by (apply Hall; left).
    apply IH. intros y Hy. apply Hall. by right.
Qed.

(** What the block does once the details have passed its two tests. *)
Lemma main_submitted_answers name business email questions session_state
    answers :
  name ≠ "" → business ≠ "" → email ≠ "" → contains_at email = true →
  Forall (λ q, present (q_id q) = true) questions →
  get_answers_from_session questions session_state = Ok answers →
  main_submitted name business email questions session_state =
    match filter (λ k, answers !! k = None) (ids questions) with
    | _ :: _ => Ok QuestionsUnanswered
    | [] =>
        '(summary, pillar_scores) ← calculate_scores questions answers;
        recs ← generate_recommendations questions answers;
        Ok (AssessmentStored
              {| p_name := py_strip name; p_business := py_strip business;
                 p_email := py_strip email |} summary pillar_scores recs)
    end.
Proof.
  intros Hn Hb He Hat Hids Hget. unfold main_submitted.
  rewrite !eqb_empty_false by done. rewrite Hat. simpl orb. cbv iota.
  simpl negb. cbv iota.
  rewrite Hget, bind_Ok, (missing_ids_spec questions answers Hids), bind_Ok.
  done.
Qed.

(** X9. On a valid catalog the block [if submitted:] raises nothing and
    ends in one of four ways, tested in this order: with the first
    error message exactly when the name, the business name or the
    email address is empty; with the second when the address holds no
    "@"; with the third when some question of the catalog has no
    button value that stands for an answer; otherwise the assessment
    is stored, with the three details stripped and with the scores and
    recommendations of the answers read from the buttons. *)
Theorem submission_outcome name business email questions session_state :
  valid_catalog questions →
  ∃ outcome,
    main_submitted name business email questions session_state = Ok outcome ∧
    (outcome = DetailsMissing ↔ name = "" ∨ business = "" ∨ email = "") ∧
    (outcome = InvalidEmail ↔
       name ≠ "" ∧ business ≠ "" ∧ email ≠ "" ∧ contains_at email = false) ∧
    (outcome = QuestionsUnanswered ↔
       name ≠ "" ∧ business ≠ "" ∧ email ≠ "" ∧ contains_at email = true ∧
       ∃ k, k ∈ ids questions ∧ session_state !! k ≫= radio_answer = None) ∧
    (∀ p s ps recs,
       outcome = AssessmentStored p s ps recs →
       p = {| p_name := py_strip name; p_business := py_strip business;
              p_email := py_strip email |} ∧
       ∃ answers,
         (∀ k, answers !! k =
               if bool_decide (k ∈ ids questions)
               then session_state !! k ≫= radio_answer else None) ∧
         calculate_scores questions answers = Ok (s, ps) ∧
         generate_recommendations questions answers = Ok recs).
Proof.
  intros Hv.
  destruct (String.eqb_spec name "") as [Hn|Hn].
  { exists DetailsMissing. unfold main_submitted. rewrite Hn. simpl.
    split; [done|]. split; [intuition congruence|].
    split; [split; [done|intuition congruence]|]. split; [split; [done|intuition congruence]|].
    done. }
  destruct (String.eqb_spec business "") as [Hb|Hb].
  { exists DetailsMissing. unfold main_submitted. rewrite Hb.
    rewrite (eqb_empty_false name Hn). simpl.
    split; [done|]. split; [intuition congruence|].
    split; [split; [done|intuition congruence]|]. split; [split; [done|intuition congruence]|].
    done. }
  destruct (String.eqb_spec email "") as [He|He].
  { exists DetailsMissing. unfold main_submitted. rewrite He.
    rewrite (eqb_empty_false name Hn), (eqb_empty_false business Hb). simpl.
    split; [done|]. split; [intuition congruence|].
    split; [split; [done|intuition congruence]|]. split; [split; [done|intuition congruence]|].
    done. }
  destruct (contains_at email) eqn:Hat; cycle 1.
  { exists InvalidEmail. unfold main_submitted.
    rewrite !eqb_empty_false by done. rewrite Hat. simpl.
    split; [done|]. split; [split; [done|intuition congruence]|].
    split; [done|]. split; [split; [done|intuition congruence]|]. done. }
  assert (Hf := valid_catalog_fields questions Hv).
  assert (Hids : Forall (λ q, present (q_id q) = true) questions).
  { eapply Forall_impl; [exact Hf|]. intros q Hq.
    unfold has_fields in Hq. by destruct (q_id q). }
  destruct (get_answers_from_session_lookup questions session_state Hids)
    as (answers & Hget & Hlook).
  rewrite (main_submitted_answers name business email questions session_state
             answers Hn Hb He Hat Hids Hget).
  destruct (filter _ (ids questions)) as [|k0 ks] eqn:Hmiss.
  - destruct (calculate_scores_valid questions answers Hv)
      as (rp & ps & _ & Hcalc).
    rewrite Hcalc, bind_Ok. cbv beta iota.
    rewrite generate_recommendations_cases.
    assert (Hall : forallb (λ q, present (q_id q)) questions = true).
    { apply forallb_forall. intros q Hq. apply list_elem_of_In in Hq.
      rewrite Forall_forall in Hids. by apply Hids. }
    rewrite Hall, bind_Ok.
    eexists. split; [reflexivity|].
    split; [split; [done|intuition congruence]|].
    split; [split; [done|intuition congruence]|]. split.
    + split; [done|]. intros (_ & _ & _ & _ & k & Hk & Hnone). exfalso.
      apply (proj1 (filter_nil_iff _ _) Hmiss k Hk).
      by rewrite Hlook, bool_decide_eq_true_2.
    + intros p s ps' recs [= <- <- <- <-]. split; [done|].
      exists answers. split; [done|]. split; [done|].
      by rewrite generate_recommendations_cases, Hall.
  - exists QuestionsUnanswered. split; [done|].
    split; [split; [done|intuition congruence]|].
    split; [split; [done|intuition congruence]|]. split; [|done].
    split; [|done]. intros _. repeat (split; [done|]).
    assert (Hk0 : k0 ∈ filter (λ k, answers !! k = None) (ids questions))
      by (rewrite Hmiss; left).
    apply list_elem_of_filter in Hk0 as [Hnone Hk0].
    exists k0. split; [done|].
    by rewrite Hlook, bool_decide_eq_true_2 in Hnone.
Qed.

End web.

Lemma session_answers_are_yes_or_no_witness :
  ∃ answers,
    get_answers_from_session (ops := ascii_str_ops) catalog_two
      session_unfinished = Ok answers ∧
    answers !! "Q1" = Some "no" ∧ answers !! "Q2" = None.
Proof.
  destruct (session_answers_are_yes_or_no (ops := ascii_str_ops)
              catalog_two session_unfinished) as [H _].
  destruct H as (answers & Hget & Hlook & _).
  - repeat constructor.
  - exists answers. split; [exact Hget|].
    split; rewrite Hlook; reflexivity.
Defined.

Lemma submission_outcome_witness :
  ∃ outcome,
    main_submitted (ops := ascii_str_ops) " Ada " "Looms Ltd" "ada@looms.example"
      catalog_two session_two = Ok outcome ∧
    ∀ p s ps recs,
      outcome = AssessmentStored p s ps recs →
      p = {| p_name := "Ada"; p_business := "Looms Ltd";
             p_email := "ada@looms.example" |}.
Proof.
  destruct (submission_outcome (ops := ascii_str_ops)
              " Ada " "Looms Ltd" "ada@looms.example" catalog_two session_two)
    as (outcome & Hrun & _ & _ & _ & Hstored).
  - repeat constructor.
  - exists outcome. split; [exact Hrun|].
    intros p s ps recs Ho. destruct (Hstored p s ps recs Ho) as [-> _].
    reflexivity.
Defined.

(** ** The radio buttons of the form *)

Lemma radio_answer_options o :
  o ∈ radio_options →
  radio_answer (ops := ascii_str_ops) o =
    if String.eqb o "Yes" then Some "yes"
    else if String.eqb o "No" then Some "no" else None.
Proof.
  unfold radio_options. intros Ho.
  repeat (apply elem_of_cons in Ho as [->|Ho]; [reflexivity|]).
  by apply elem_of_nil in Ho.
Qed.

(** X10. With the three options the form offers for a question, and
    text operations as on ASCII text: once the details pass, a catalog
    question left at "Please select..." makes the block end with
    "Please answer all questions", and when none is left there the
    assessment is stored for the answers that are "yes" for the option
    "Yes" and "no" for the option "No", on the ids of the catalog
    only. *)
Theorem placeholder_is_no_answer name business email questions session_state :
  valid_catalog questions →
  name ≠ "" → business ≠ "" → contains_at email = true →
  (∀ k, k ∈ ids questions →
        ∃ o, session_state !! k = Some o ∧ o ∈ radio_options) →
  ((∃ k, k ∈ ids questions ∧ session_state !! k = Some "Please select...") →
   main_submitted (ops := ascii_str_ops) name business email questions
     session_state = Ok QuestionsUnanswered) ∧
  ((∀ k, k ∈ ids questions → session_state !! k ≠ Some "Please select...") →
   ∃ p s ps recs answers,
     main_submitted (ops := ascii_str_ops) name business email questions
       session_state = Ok (AssessmentStored p s ps recs) ∧
     (∀ k, k ∈ ids questions →
           answers !! k =
             Some (if bool_decide (session_state !! k = Some "Yes")
                   then "yes" else "no")) ∧
     (∀ k, k ∉ ids questions → answers !! k = None) ∧
     calculate_scores questions answers = Ok (s, ps) ∧
     generate_recommendations questions answers = Ok recs).
Proof.
  intros Hv Hn Hb Hat Hopt.
  assert (He : email ≠ "") by (intros ->; discriminate).
  assert (Hf := valid_catalog_fields questions Hv).
  assert (Hids : Forall (λ q, present (q_id q) = true) questions).
  { eapply Forall_impl; [exact Hf|]. intros q Hq.
    unfold has_fields in Hq. by destruct (q_id q). }
  destruct (get_answers_from_session_lookup (ops := ascii_str_ops)
              questions session_state Hids) as (answers & Hget & Hlook).
  rewrite (main_submitted_answers name business email questions session_state
             answers Hn Hb He Hat Hids Hget).
  split.
  - intros (k & Hk & Hsel).
    destruct (filter _ (ids questions)) as [|k0 ks] eqn:Hmiss; [|done].
    exfalso. apply (proj1 (filter_nil_iff _ _) Hmiss k Hk).
    rewrite Hlook, bool_decide_eq_true_2, Hsel by done. reflexivity.
  - intros Hnone.
    assert (Hans : ∀ k, k ∈ ids questions →
              answers !! k =
                Some (if bool_decide (session_state !! k = Some "Yes")
                      then "yes" else "no")).
    { intros k Hk. rewrite Hlook, bool_decide_eq_true_2 by done.
      destruct (Hopt k Hk) as (o & Ho & Hin). rewrite Ho. simpl.
      rewrite (radio_answer_options o Hin).
      specialize (Hnone k Hk). rewrite Ho in Hnone.
      unfold radio_options in Hin.
      apply elem_of_cons in Hin as [->|Hin]; [done|].
      apply elem_of_cons in Hin as [->|Hin]; [reflexivity|].
      apply elem_of_cons in Hin as [->|Hin]; [reflexivity|].
      by apply elem_of_nil in Hin. }
    assert (Hmiss : filter (λ k, answers !! k = None) (ids questions) = []).
    { apply filter_nil_iff. intros k Hk. by rewrite (Hans k Hk). }
    rewrite Hmiss.
    destruct (calculate_scores_valid questions answers Hv)
      as (rp & ps & _ & Hcalc).
    rewrite Hcalc, bind_Ok. cbv beta iota.
    assert (Hall : forallb (λ q, present (q_id q)) questions = true).
    { apply forallb_forall. intros q Hq. apply list_elem_of_In in Hq.
      rewrite Forall_forall in Hids. by apply Hids. }
    assert (Hrec := generate_recommendations_cases questions answers).
    rewrite Hall in Hrec. rewrite Hrec, bind_Ok.
    eexists _, _, ps, _, answers. split; [reflexivity|].
    split; [exact Hans|]. split; [|done].
    intros k Hk. by rewrite Hlook, bool_decide_eq_false_2.
Qed.

Lemma placeholder_is_no_answer_witness :
  main_submitted (ops := ascii_str_ops) "Ada" "Looms Ltd" "ada@looms.example"
    catalog_two session_unfinished = Ok QuestionsUnanswered.
Proof.
  destruct (placeholder_is_no_answer "Ada" "Looms Ltd" "ada@looms.example"
              catalog_two session_unfinished) as [Hleft _].
  - repeat constructor.
  - discriminate.
  - discriminate.
  - reflexivity.
  - intros k Hk. unfold radio_options.
    apply elem_of_cons in Hk as [->|Hk].
    { exists "No". split; [reflexivity|]. right. right. left. }
    apply elem_of_cons in Hk as [->|Hk].
    { exists "Please select...". split; [reflexivity|]. left. }
    by apply elem_of_nil in Hk.
  - apply Hleft. exists "Q2". split; [|reflexivity]. right. left.
Defined.

(** ** The lines of "Security by area" *)

Lemma area_markdown_known pillar_scores :
  Forall (λ p, p ∈ OrderedDict.keys explanations)
         (OrderedDict.keys pillar_scores) →
  ∃ lines, area_markdown pillar_scores = Ok lines ∧
           length lines = length pillar_scores.
Proof.
  induction pillar_scores as [|[p v] ps IH]; intros Hall.
  - by exists [].
  - apply Forall_cons in Hall as [Hp Hall].
    destruct (IH Hall) as (lines & Hlines & Hlen).
    destruct (OrderedDict.get explanations p) as [e|] eqn:Hget.
    + eexists. cbn [area_markdown]. rewrite Hget.
      change (getitem p (Some e)) with (Ok e). rewrite bind_Ok, Hlines, bind_Ok.
      split; [reflexivity|]. cbn [length]. by rewrite Hlen.
    + apply od_get_None in Hget. done.
Qed.

Lemma area_markdown_unknown pre p v post :
  Forall (λ p, p ∈ OrderedDict.keys explanations) (OrderedDict.keys pre) →
  p ∉ OrderedDict.keys explanations →
  area_markdown (pre ++ (p, v) :: post) = Raise (KeyError p).
Proof.
  intros Hpre Hp. induction pre as [|[p' v'] pre IH].
  - simpl app. cbn [area_markdown]. apply od_get_None in Hp. by rewrite Hp.
  - apply Forall_cons in Hpre as [Hp' Hpre].
    destruct (OrderedDict.get explanations p') as [e|] eqn:Hget.
    + simpl app. cbn [area_markdown]. rewrite Hget.
      change (getitem p' (Some e)) with (Ok e). rewrite bind_Ok.
      by rewrite (IH Hpre).
    + apply od_get_None in Hget. done.
Qed.

(** X11. The results page of the web application can show only the
    five pillars it has an explanation for. After a successful
    scoring, the loop that writes "Security by area" completes, with
    one text per pillar, exactly when every pillar of the catalog is
    one of the five; otherwise it raises [KeyError] for a pillar of
    the catalog that is not, although the scores were computed. *)
Theorem results_page_needs_known_pillars questions answers s ps :
  calculate_scores questions answers = Ok (s, ps) →
  ((∀ p, p ∈ pillars questions → p ∈ OrderedDict.keys explanations) →
   ∃ lines, area_markdown ps = Ok lines ∧ length lines = length ps) ∧
  ((∃ p, p ∈ pillars questions ∧ p ∉ OrderedDict.keys explanations) →
   ∃ p, area_markdown ps = Raise (KeyError p) ∧
        p ∈ pillars questions ∧ p ∉ OrderedDict.keys explanations).
Proof.
  intros Hcalc.
  destruct (pillar_scores_entries _ _ _ _ Hcalc) as [Hkeys _].
  assert (Hmem : ∀ p, p ∈ OrderedDict.keys ps ↔ p ∈ pillars questions).
  { intros p. by rewrite Hkeys, first_occurrences_elem. }
  split.
  - intros Hall. apply area_markdown_known, Forall_forall.
    intros p Hp. by apply Hall, Hmem.
  - intros (p & Hp & Hnot).
    assert (Hex : Exists (λ pv, pv.1 ∉ OrderedDict.keys explanations) ps).
    { apply Exists_exists. apply Hmem in Hp.
      apply list_elem_of_fmap in Hp as (pv & -> & Hpv). by exists pv. }
    clear p Hp Hnot.
    assert (Hsplit : ∃ pre p v post,
              ps = pre ++ (p, v) :: post ∧
              Forall (λ p, p ∈ OrderedDict.keys explanations)
                     (OrderedDict.keys pre) ∧
              p ∉ OrderedDict.keys explanations).
    { clear -Hex. induction ps as [|[p v] ps IH].
      - by apply Exists_nil in Hex.
      - destruct (decide (p ∈ OrderedDict.keys explanations)) as [Hin|Hnin].
        + apply Exists_cons in Hex as [Hex|Hex]; [done|].
          destruct (IH Hex) as (pre & p' & v' & post & -> & Hpre & Hp').
          exists ((p, v) :: pre), p', v', post.
          split; [done|]. split; [by constructor|done].
        + exists [], p, v, ps. split; [done|]. split; [constructor|done]. }
    destruct Hsplit as (pre & p & v & post & -> & Hpre & Hp).
    exists p. split; [by apply area_markdown_unknown|]. split; [|done].
    apply Hmem. unfold OrderedDict.keys. rewrite fmap_app. simpl.
    apply elem_of_app. right. left.
Qed.

Lemma results_page_needs_known_pillars_witness :
  ∃ p, (∃ s ps, calculate_scores catalog_custom_pillar answers_two = Ok (s, ps) ∧
                area_markdown ps = Raise (KeyError p)) ∧
       p ∈ pillars catalog_custom_pillar.
Proof.
  assert (Hcalc : ∃ r, calculate_scores catalog_custom_pillar answers_two = Ok r)
    by (eexists; vm_compute; reflexivity).
  destruct Hcalc as [[s ps] Hcalc].
  destruct (results_page_needs_known_pillars _ _ _ _ Hcalc) as [_ Hbad].
  destruct Hbad as (p & Hraise & Hp & _).
  - exists "Cloud". split; [right; left|].
    intros Hin. vm_compute in Hin.
    repeat (apply elem_of_cons in Hin as [Hin|Hin]; [discriminate|]).
    by apply elem_of_nil in Hin.
  - exists p. split; [|exact Hp]. by exists s, ps.
Defined.

(** ** The console dialogue *)

Section console.
Context `{ops : StrOps}.

Lemma answer_of_values line a :
  answer_of line = Some a → a = "yes" ∨ a = "no".
Proof.
  unfold answer_of. destruct (_ || _); [intros [= <-]; by left|].
  destruct (_ || _); [intros [= <-]; by right|done].
Qed.

Lemma ask_yes_no_from_step prompt line rest out :
  ask_yes_no_from prompt (line :: rest) out =
    match answer_of line with
    | Some a => (inr a, {| stdin := rest;
                           stdout := out ++ [prompt +:+ " (yes/no): "] |})
    | None =>
        ask_yes_no_from prompt rest
          (out ++ [prompt +:+ " (yes/no): "]
               ++ ["Please answer with 'yes' or 'no' (or y/n)."])
    end.
Proof.
  cbn [ask_yes_no_from]. unfold answer_of.
  destruct (_ || _); [done|]. destruct (_ || _); [done|].
  by rewrite <- app_assoc.
Qed.

Lemma ask_yes_no_from_junk prompt junk :
  Forall (λ l, answer_of l = None) junk →
  ∀ lines out,
    ask_yes_no_from prompt (junk ++ lines) out =
    ask_yes_no_from prompt lines (out ++ refusals prompt junk).
Proof.
  induction 1 as [|l junk Hl _ IH]; intros lines out.
  - simpl. by rewrite app_nil_r.
  - simpl app. rewrite ask_yes_no_from_step, Hl, IH.
    f_equal. unfold refusals. simpl. by rewrite <- app_assoc.
Qed.

(** X12. [ask_yes_no] returns the answer of the first line that,
    stripped and lower-cased, is "yes", "y", "no" or "n": "yes" for
    the first two and "no" for the others. Each line before it is
    refused with the same message and the prompt is written again; the
    lines after it are left unread. When the input ends before such a
    line, [EOFError] is raised after a last prompt. *)
Theorem ask_yes_no_first_answer prompt junk out :
  Forall (λ l, answer_of l = None) junk →
  (∀ line a rest,
     answer_of line = Some a →
     (a = "yes" ∨ a = "no") ∧
     ask_yes_no prompt {| stdin := junk ++ line :: rest; stdout := out |} =
       (inr a, {| stdin := rest;
                  stdout := out ++ refusals prompt junk
                                ++ [prompt +:+ " (yes/no): "] |})) ∧
  ask_yes_no prompt {| stdin := junk; stdout := out |} =
    (inl EOFError, {| stdin := [];
                      stdout := out ++ refusals prompt junk
                                    ++ [prompt +:+ " (yes/no): "] |}).
Proof.
  intros Hjunk. unfold ask_yes_no. cbn [stdin stdout]. split.
  - intros line a rest Ha. split; [by eapply answer_of_values|].
    rewrite (ask_yes_no_from_junk prompt junk Hjunk).
    by rewrite ask_yes_no_from_step, Ha, <- app_assoc.
  - rewrite <- (app_nil_r junk) at 1.
    rewrite (ask_yes_no_from_junk prompt junk Hjunk). simpl.
    by rewrite <- app_assoc.
Qed.


(** ** [ask_questions] *)

Lemma typed_answers_cons line rest :
  typed_answers (line :: rest) =
    match answer_of line with
    | Some a => a :: typed_answers rest
    | None => typed_answers rest
    end.
Proof. reflexivity. Qed.

(** One call of [ask_yes_no] uses up the first answer typed. *)
Lemma ask_yes_no_cases prompt lines :
  ∀ out,
    match typed_answers lines with
    | a :: tl =>
        ∃ w', ask_yes_no_from prompt lines out = (inr a, w') ∧
              typed_answers (stdin w') = tl
    | [] =>
        ∃ w', ask_yes_no_from prompt lines out = (inl EOFError, w') ∧
              stdin w' = []
    end.
Proof.
  induction lines as [|line rest IH]; intros out.
  - cbn [typed_answers omap list_omap]. eexists. split; reflexivity.
  - rewrite typed_answers_cons, ask_yes_no_from_step.
    destruct (answer_of line) as [a|]; [|apply IH].
    eexists. split; reflexivity.
Qed.

Lemma ask_step_cases acc q qid w :
  askable q = true → q_id (entry_question q) = Some qid →
  match typed_answers (stdin w) with
  | a :: tl =>
      ∃ w', ask_step acc q w = (inr (<[qid := a]> acc), w') ∧
            typed_answers (stdin w') = tl
  | [] =>
      ∃ w', ask_step acc q w = (inl EOFError, w') ∧ stdin w' = []
  end.
Proof.
  intros Hq Hid. unfold askable in Hq. rewrite Hid in Hq.
  destruct (entry_text q) as [text|] eqn:Htext; [|done].
  unfold ask_step, io_bind, lift, print, ask_yes_no, io_ret.
  rewrite Hid, Htext. cbn [getitem stdin stdout].
  pose proof (ask_yes_no_cases "Your answer" (stdin w)
                (stdout w ++ [nl +:+ "[" +:+ qid +:+ "] " +:+ text])) as Hc.
  destruct (typed_answers (stdin w)) as [|a tl].
  - destruct Hc as (w' & -> & Hw'). by exists w'.
  - destruct Hc as (w' & -> & Hw'). by exists w'.
Qed.

Lemma ask_loop_cases questions :
  Forall (λ q, askable q = true) questions →
  ∀ acc w,
    (length questions ≤ length (typed_answers (stdin w)) →
     ∃ w', ask_loop acc questions w =
             (inr (foldl (λ acc ka, <[ka.1 := ka.2]> acc) acc
                     (zip (ids (entry_question <$> questions))
                          (typed_answers (stdin w)))), w') ∧
           typed_answers (stdin w') =
             drop (length questions) (typed_answers (stdin w)))%nat ∧
    (length (typed_answers (stdin w)) < length questions →
     ∃ w', ask_loop acc questions w = (inl EOFError, w') ∧ stdin w' = [])%nat.
Proof.
  induction 1 as [|q qs Hq _ IH]; intros acc w.
  - split; [|simpl; lia]. intros _. exists w. split; [done|].
    by rewrite drop_0.
  - assert (Hid : ∃ qid, q_id (entry_question q) = Some qid).
    { unfold askable in Hq. destruct (q_id (entry_question q)); [by eexists|done]. }
    destruct Hid as [qid Hid].
    pose proof (ask_step_cases acc q qid w Hq Hid) as Hstep.
    rewrite fmap_cons, (ids_cons _ _ qid Hid).
    cbn [ask_loop length]. unfold io_bind at 1 2.
    destruct (typed_answers (stdin w)) as [|a tl] eqn:Hta.
    + destruct Hstep as (w1 & -> & Hw1). split; [simpl; lia|].
      intros _. by exists w1.
    + destruct Hstep as (w1 & -> & Hw1).
      destruct (IH (<[qid := a]> acc) w1) as [IHok IHeof].
      rewrite Hw1 in IHok, IHeof. cbn [length zip zip_with foldl drop].
      split.
      * intros Hlen. apply IHok. lia.
      * intros Hlen. apply IHeof. lia.
Qed.

Lemma foldl_insert_dom (l : list (string * string)) :
  ∀ (acc : gmap string string) k,
    is_Some (foldl (λ acc ka, <[ka.1 := ka.2]> acc) acc l !! k) ↔
    k ∈ l.*1 ∨ is_Some (acc !! k).
Proof.
  induction l as [|[k0 a0] l IH]; intros acc k; simpl.
  - rewrite elem_of_nil. intuition.
  - rewrite IH, elem_of_cons. simpl.
    destruct (decide (k = k0)) as [->|Hne].
    + rewrite lookup_insert_eq. intuition eauto.
    + rewrite lookup_insert_ne by done. intuition congruence.
Qed.

Lemma foldl_insert_values (l : list (string * string)) :
  ∀ (acc : gmap string string) k a,
    foldl (λ acc ka, <[ka.1 := ka.2]> acc) acc l !! k = Some a →
    a ∈ l.*2 ∨ acc !! k = Some a.
Proof.
  induction l as [|[k0 a0] l IH]; intros acc k a; simpl.
  - by right.
  - intros Hl. apply IH in Hl as [Hin|Hl]; [left; by right|].
    destruct (decide (k = k0)) as [->|Hne].
    + rewrite lookup_insert_eq in Hl. injection Hl as ->. left. left.
    + rewrite lookup_insert_ne in Hl by done. by right.
Qed.

Lemma typed_answers_values lines a :
  a ∈ typed_answers lines → a = "yes" ∨ a = "no".
Proof.
  unfold typed_answers. intros Ha.
  apply list_elem_of_omap in Ha as (line & _ & Ha).
  by eapply answer_of_values.
Qed.

Lemma elem_of_zip_snd {A B} (l : list A) (k : list B) y :
  y ∈ (zip l k).*2 → y ∈ k.
Proof.
  revert k. induction l as [|x l IH]; intros [|z k]; simpl;
    try (intros Hy; by apply elem_of_nil in Hy).
  intros Hy. apply elem_of_cons in Hy as [->|Hy]; [left|right; by apply IH].
Qed.

(** The mapping asked for has the ids of the catalog as keys and "yes"
    or "no" as values. *)
Lemma answers_from_shape ks lines :
  (length ks ≤ length (typed_answers lines))%nat →
  (∀ k, is_Some (answers_from ks (typed_answers lines) !! k) ↔ k ∈ ks) ∧
  (∀ k a, answers_from ks (typed_answers lines) !! k = Some a →
          a = "yes" ∨ a = "no").
Proof.
  intros Hlen. unfold answers_from. split.
  - intros k. rewrite foldl_insert_dom, fst_zip by done.
    rewrite lookup_empty. split; [intros [?|[? ?]]; done | by left].
  - intros k a Hl. apply foldl_insert_values in Hl as [Hin|Hl]; [|done].
    apply elem_of_zip_snd in Hin. by eapply typed_answers_values.
Qed.

Lemma length_ids_entries questions :
  Forall (λ q, askable q = true) questions →
  length (ids (entry_question <$> questions)) = length questions.
Proof.
  induction 1 as [|q qs Hq _ IH]; [done|].
  unfold askable in Hq.
  destruct (q_id (entry_question q)) as [qid|] eqn:Hid; [|done].
  rewrite fmap_cons, (ids_cons _ _ qid Hid). simpl. by rewrite IH.
Qed.

Lemma ask_questions_cases questions w :
  Forall (λ q, askable q = true) questions →
  (length questions ≤ length (typed_answers (stdin w)) →
   ∃ w', ask_questions questions w =
           (inr (answers_from (ids (entry_question <$> questions))
                   (typed_answers (stdin w))), w') ∧
         typed_answers (stdin w') =
           drop (length questions) (typed_answers (stdin w)))%nat ∧
  (length (typed_answers (stdin w)) < length questions →
   ∃ w', ask_questions questions w = (inl EOFError, w') ∧ stdin w' = [])%nat.
Proof.
  intros Hq. unfold ask_questions, io_bind at 1, print.
  exact (ask_loop_cases questions Hq ∅
           {| stdin := stdin w;
              stdout := stdout w ++ [nl +:+ "Please answer the following questions about your business." +:+ nl] |}).
Qed.

(** X13. [ask_questions], on a catalog whose records have [id] and
    [text], gives the questions, in catalog order, the answers typed,
    in the order typed, refused lines being skipped: the i-th question
    gets the i-th answer. The mapping returned has exactly the ids of
    the catalog as keys and "yes" or "no" as values, and the input
    after the last answer used is left unread. When fewer answers are
    typed than there are questions, [EOFError] is raised. *)
Theorem ask_questions_pairs_ids_with_answers questions w :
  Forall (λ q, askable q = true) questions →
  (length questions ≤ length (typed_answers (stdin w)) →
   ∃ w',
     ask_questions questions w =
       (inr (answers_from (ids (entry_question <$> questions))
               (typed_answers (stdin w))), w') ∧
     typed_answers (stdin w') =
       drop (length questions) (typed_answers (stdin w)) ∧
     (∀ k, is_Some (answers_from (ids (entry_question <$> questions))
                      (typed_answers (stdin w)) !! k) ↔
           k ∈ ids (entry_question <$> questions)) ∧
     (∀ k a, answers_from (ids (entry_question <$> questions))
               (typed_answers (stdin w)) !! k = Some a →
             a = "yes" ∨ a = "no"))%nat ∧
  (length (typed_answers (stdin w)) < length questions →
   ∃ w', ask_questions questions w = (inl EOFError, w') ∧ stdin w' = [])%nat.
Proof.
  intros Hq. destruct (ask_questions_cases questions w Hq) as [Hok Heof].
  split; [|exact Heof]. intros Hlen.
  destruct (Hok Hlen) as (w' & Hrun & Hrest).
  exists w'. split; [done|]. split; [done|].
  apply answers_from_shape. by rewrite length_ids_entries.
Qed.


(** ** [main] of the console application *)

Lemma io_bind_print {B} line (k : unit → io B) w :
  io_bind (print line) k w =
    k tt {| stdin := stdin w; stdout := stdout w ++ [line] |}.
Proof. reflexivity. Qed.

Lemma io_bind_ok {A B} (m : io A) (k : A → io B) w a w' :
  m w = (inr a, w') → io_bind m k w = k a w'.
Proof. intros H. unfold io_bind. by rewrite H. Qed.

Lemma io_bind_lift {A B} (a : A) (k : A → io B) w :
  io_bind (lift (Ok a)) k w = k a w.
Proof. reflexivity. Qed.

Lemma io_bind_raise {A B} (m : io A) (k : A → io B) w e w' :
  m w = (inl e, w') → io_bind m k w = (inl e, w').
Proof. intros H. unfold io_bind. by rewrite H. Qed.

(** An int is written when it has at most 4300 digits. *)
Lemma str_int_small z w :
  Z.abs z < int_str_limit → str_int z w = (inr (str_of_int z), w).
Proof.
  intros H. unfold str_int.
  destruct (Z.ltb_spec (Z.abs z) int_str_limit) as [_|Hge]; [reflexivity|].
  exfalso. exact (proj1 (Z.le_ngt _ _) Hge H).
Qed.

Lemma str_int_large z w :
  int_str_limit ≤ Z.abs z → str_int z w = (inl ValueError, w).
Proof.
  intros H. unfold str_int.
  destruct (Z.ltb_spec (Z.abs z) int_str_limit) as [Hlt|_]; [|reflexivity].
  exfalso. exact (proj1 (Z.le_ngt _ _) H Hlt).
Qed.

Lemma int_str_limit_lower : 10 ^ 2 ≤ int_str_limit.
Proof. unfold int_str_limit. apply Z.pow_le_mono_r; lia. Qed.

Lemma print_areas_spec pillar_scores :
  ∀ w, print_areas pillar_scores w =
       (inr tt,
        {| stdin := stdin w;
           stdout := stdout w ++
             map (λ '(pillar, score),
                    " - " +:+ pillar +:+ ": " +:+ format_1f score +:+ " / 100")
                 pillar_scores |}).
Proof.
  induction pillar_scores as [|[pillar score] rest IH]; intros w.
  - cbn [print_areas map]. unfold io_ret. rewrite app_nil_r. by destruct w.
  - cbn [print_areas map]. rewrite io_bind_print, IH. cbn [stdin stdout].
    by rewrite <- app_assoc.
Qed.

Lemma print_recs_spec recs :
  ∀ i w, 0 ≤ i → i + Z.of_nat (length recs) ≤ 10 ^ 2 →
    print_recs i recs w =
      (inr tt, {| stdin := stdin w; stdout := stdout w ++ numbered i recs |}).
Proof.
  pose proof int_str_limit_lower as Hlim.
  induction recs as [|rec rest IH]; intros i w Hi Hlen.
  - cbn [print_recs numbered]. unfold io_ret. rewrite app_nil_r. by destruct w.
  - cbn [length] in Hlen. cbn [print_recs numbered].
    rewrite (io_bind_ok _ _ w (str_of_int i) w)
      by (apply str_int_small; lia).
    rewrite io_bind_print, IH by lia. cbn [stdin stdout].
    by rewrite <- app_assoc.
Qed.

(** [print_summary] when the two ints can be written: every line is
    printed. *)
Lemma print_summary_small s ps recs w :
  Z.abs (risk_points s) < int_str_limit →
  Z.abs (max_risk s) < int_str_limit →
  (length recs ≤ 20)%nat →
  print_summary s ps recs w =
    (inr tt, {| stdin := stdin w;
                stdout := stdout w ++ summary_lines s ps recs |}).
Proof.
  intros Hr Hm Hlen. unfold print_summary, summary_lines, summary_head.
  rewrite !io_bind_print. cbn [stdin stdout].
  rewrite (io_bind_ok _ _ _ _ _ (str_int_small (risk_points s) _ Hr)).
  rewrite (io_bind_ok _ _ _ _ _ (str_int_small (max_risk s) _ Hm)).
  rewrite !io_bind_print. cbn [stdin stdout].
  rewrite (io_bind_ok _ _ _ _ _ (print_areas_spec ps _)).
  rewrite io_bind_print. cbn [stdin stdout].
  destruct recs as [|rec rest].
  - unfold print. cbn [stdin stdout]. rewrite <- !app_assoc. reflexivity.
  - rewrite io_bind_print, print_recs_spec.
    + cbn [stdin stdout]. rewrite <- !app_assoc. reflexivity.
    + lia.
    + change (10 ^ 2) with 100. lia.
Qed.

(** [print_summary] when one of the two ints has more than 4300
    digits: [ValueError] after the first three lines. *)
Lemma print_summary_large s ps recs w :
  int_str_limit ≤ Z.abs (risk_points s) ∨ int_str_limit ≤ Z.abs (max_risk s) →
  print_summary s ps recs w =
    (inl ValueError, {| stdin := stdin w;
                        stdout := stdout w ++ summary_head s |}).
Proof.
  intros Hbig. unfold print_summary, summary_head.
  rewrite !io_bind_print. cbn [stdin stdout]. rewrite <- !app_assoc.
  cbn [app].
  destruct (Z.ltb_spec (Z.abs (risk_points s)) int_str_limit) as [Hr|Hr].
  - destruct Hbig as [Hbig|Hm];
      [exfalso; exact (proj1 (Z.le_ngt _ _) Hbig Hr)|].
    rewrite (io_bind_ok _ _ _ _ _ (str_int_small (risk_points s) _ Hr)).
    exact (io_bind_raise _ _ _ _ _ (str_int_large (max_risk s) _ Hm)).
  - exact (io_bind_raise _ _ _ _ _ (str_int_large (risk_points s) _ Hr)).
Qed.

(** The list of recommendations has at most 20 entries. *)
Lemma length_advice_given answers questions :
  (length (first_occurrences (omap (advice answers) questions)) ≤ 20)%nat.
Proof.
  change 20%nat with (length recommendation_map.*2).
  apply submseteq_length, NoDup_submseteq; [apply first_occurrences_NoDup|].
  intros text Ht. rewrite first_occurrences_elem in Ht.
  apply list_elem_of_omap in Ht as (q & _ & Ha).
  by eapply advice_in_map.
Qed.

Lemma console_main_banner questions w :
  console_main questions w =
    let w1 := {| stdin := stdin w; stdout := stdout w ++ banner |} in
    match questions with
    | [] => print "No questions loaded. Please check questions.json." w1
    | _ :: _ =>
        io_bind (ask_questions questions) (λ answers,
        io_bind (lift (calculate_scores (entry_question <$> questions) answers))
          (λ '(summary, pillar_scores),
        io_bind (lift (generate_recommendations (entry_question <$> questions) answers))
          (λ recs,
        io_bind (print_summary summary pillar_scores recs) (λ _,
        print (nl +:+ "Thank you for completing the assessment." +:+ nl))))) w1
    end.
Proof.
  unfold console_main, banner. unfold io_bind at 1 2 3. unfold print at 1 2 3.
  cbn [stdin stdout]. cbv zeta. rewrite <- !app_assoc. cbn [app].
  by destruct questions.
Qed.

(** X14. The console application, given the catalog [load_questions]
    returned. On the empty catalog it writes its banner and "No
    questions loaded", reads nothing and scores nothing. On a valid
    catalog whose records have a [text], when at least as many answers
    are typed as there are questions, the scores and recommendations
    are computed for the answers typed; then, when the weights add up
    to less than [10 ** 4300], an int of at most 4300 digits, it ends
    without an exception after writing the whole summary followed by
    its closing line, and when they add up to more it ends with
    [ValueError] after the first three lines of the summary, the line
    of the risk points being one Python does not write. When fewer
    answers are typed than there are questions it ends with
    [EOFError]. *)
Theorem console_main_runs questions w :
  Forall (λ q, askable q = true) questions →
  valid_catalog (entry_question <$> questions) →
  (questions = [] →
   console_main questions w =
     (inr tt,
      {| stdin := stdin w;
         stdout := stdout w ++ banner
                   ++ ["No questions loaded. Please check questions.json."] |})) ∧
  (questions ≠ [] →
   (length questions ≤ length (typed_answers (stdin w)))%nat →
   ∃ s ps recs,
     calculate_scores (entry_question <$> questions)
       (answers_from (ids (entry_question <$> questions))
          (typed_answers (stdin w))) = Ok (s, ps) ∧
     generate_recommendations (entry_question <$> questions)
       (answers_from (ids (entry_question <$> questions))
          (typed_answers (stdin w))) = Ok recs ∧
     (total_weight (entry_question <$> questions) < 10 ^ 4300 →
      ∃ w' before,
        console_main questions w = (inr tt, w') ∧
        stdout w' =
          before ++ summary_lines s ps recs
            ++ [nl +:+ "Thank you for completing the assessment." +:+ nl]) ∧
     (10 ^ 4300 ≤ total_weight (entry_question <$> questions) →
      ∃ w' before,
        console_main questions w = (inl ValueError, w') ∧
        stdout w' = before ++ summary_head s)) ∧
  (questions ≠ [] →
   (length (typed_answers (stdin w)) < length questions)%nat →
   ∃ w', console_main questions w = (inl EOFError, w') ∧ stdin w' = []).
Proof.
  intros Hask Hv. change (10 ^ 4300) with int_str_limit.
  rewrite console_main_banner. cbv zeta.
  split; [|split].
  - intros ->. unfold print. cbn [stdin stdout]. by rewrite <- app_assoc.
  - intros Hne Hlen. destruct questions as [|q0 qs0] eqn:Hqs; [done|].
    rewrite <- Hqs in *. clear Hne.
    destruct (ask_questions_cases questions
                {| stdin := stdin w; stdout := stdout w ++ banner |} Hask)
      as [Hok _].
    destruct (Hok Hlen) as (w1 & Hrun & _). cbn [stdin] in Hrun.
    set (answers := answers_from _ _) in *.
    destruct (calculate_scores_valid (entry_question <$> questions) answers Hv)
      as (rp & ps & _ & Hcalc).
    pose proof (generate_recommendations_cases
                  (entry_question <$> questions) answers) as Hrec.
    assert (Hall : forallb (λ q, present (q_id q))
                     (entry_question <$> questions) = true).
    { apply forallb_forall. intros q Hq. apply list_elem_of_In in Hq.
      apply valid_catalog_fields in Hv. rewrite Forall_forall in Hv.
      specialize (Hv q Hq). unfold has_fields in Hv. by destruct (q_id q). }
    rewrite Hall in Hrec.
    pose proof (total_risk_bounds answers (entry_question <$> questions)
                  (valid_catalog_weights _ Hv)) as Hbounds.
    eexists _, ps, _.
    split; [exact Hcalc|]. split; [exact Hrec|].
    rewrite (io_bind_ok _ _ _ _ _ Hrun), Hcalc, io_bind_lift, Hrec,
      io_bind_lift.
    split.
    + intros Hsmall.
      eexists _, (stdout w1).
      split.
      * erewrite io_bind_ok; [reflexivity|].
        apply print_summary_small; cbn [risk_points max_risk];
          [lia | lia | apply length_advice_given].
      * cbn [stdout]. by rewrite <- app_assoc.
    + intros Hbig.
      eexists _, (stdout w1).
      split.
      * apply io_bind_raise, print_summary_large. right.
        cbn [max_risk]. lia.
      * reflexivity.
  - intros Hne Hlen. destruct questions as [|q0 qs0] eqn:Hqs; [done|].
    rewrite <- Hqs in *. clear Hne.
    destruct (ask_questions_cases questions
                {| stdin := stdin w; stdout := stdout w ++ banner |} Hask)
      as [_ Heof].
    destruct (Heof Hlen) as (w1 & Hrun & Hin).
    exists w1. split; [|done]. unfold io_bind at 1. by rewrite Hrun.
Qed.


End console.

Lemma ask_questions_pairs_ids_with_answers_witness :
  ∃ w', ask_questions (ops := ascii_str_ops) catalog_two_entries
          {| stdin := ["dunno"; "N"; "yes"; "left"]; stdout := [] |} =
          (inr (<["Q2" := "yes"]> (<["Q1" := "no"]> ∅)), w') ∧
        stdin w' = ["left"].
Proof.
  destruct (ask_questions_pairs_ids_with_answers (ops := ascii_str_ops)
              catalog_two_entries
              {| stdin := ["dunno"; "N"; "yes"; "left"]; stdout := [] |})
    as [Hok _].
  - repeat constructor.
  - destruct Hok as (w' & Hrun & _); [vm_compute; lia|].
    eexists. split; [exact Hrun|].
    vm_compute in Hrun. injection Hrun as <-. reflexivity.
Defined.

Lemma ask_yes_no_first_answer_witness :
  ask_yes_no (ops := ascii_str_ops) "Your answer"
    {| stdin := ["maybe"; ""; " Y "; "no"]; stdout := [] |} =
  (inr "yes",
   {| stdin := ["no"];
      stdout := ["Your answer (yes/no): ";
                 "Please answer with 'yes' or 'no' (or y/n).";
                 "Your answer (yes/no): ";
                 "Please answer with 'yes' or 'no' (or y/n).";
                 "Your answer (yes/no): "] |}).
Proof.
  destruct (ask_yes_no_first_answer (ops := ascii_str_ops)
              "Your answer" ["maybe"; ""] []) as [H _].
  - repeat constructor.
  - destruct (H " Y " "yes" ["no"] eq_refl) as [_ Hrun]. exact Hrun.
Defined.
Lemma huge_weight_nonneg : 0 ≤ huge_weight.
Proof.
  unfold huge_weight. apply Z.mul_nonneg_nonneg; [lia|].
  apply Z.pow_nonneg. lia.
Qed.

Lemma catalog_huge_valid :
  valid_catalog (entry_question <$> catalog_huge_entries).
Proof.
  assert (Hq : ∀ id pillar,
             valid_question (mkq id pillar huge_weight "yes") = true).
  { intros id pillar. unfold valid_question. apply andb_true_intro.
    split; [reflexivity|]. apply Z.leb_le. exact huge_weight_nonneg. }
  apply Forall_cons. split; [apply Hq|].
  apply Forall_cons. split; [apply Hq|]. apply Forall_nil_2.
Qed.

Lemma catalog_huge_total :
  10 ^ 4300 ≤ total_weight (entry_question <$> catalog_huge_entries).
Proof.
  change (total_weight (entry_question <$> catalog_huge_entries))
    with (huge_weight + (huge_weight + 0)).
  unfold huge_weight. change 4300 with (Z.succ 4299).
  rewrite Z.pow_succ_r by lia.
  pose proof (Z.pow_nonneg 10 4299 ltac:(lia)) as Hpos.
  set (x := 10 ^ 4299) in *. clearbody x. lia.
Qed.

Lemma catalog_two_total :
  total_weight (entry_question <$> catalog_two_entries) < 10 ^ 4300.
Proof.
  apply Z.lt_le_trans with (10 ^ 2); [vm_compute; reflexivity|].
  apply Z.pow_le_mono_r; lia.
Qed.

Lemma console_main_runs_witness :
  (∃ w', console_main (ops := ascii_str_ops) catalog_two_entries
           {| stdin := ["n"; "what?"; "yes"]; stdout := [] |} = (inr tt, w')) ∧
  (∃ w', console_main (ops := ascii_str_ops) catalog_huge_entries
           {| stdin := ["n"; "what?"; "yes"]; stdout := [] |} =
           (inl ValueError, w')).
Proof.
  split.
  - destruct (console_main_runs (ops := ascii_str_ops) catalog_two_entries
                {| stdin := ["n"; "what?"; "yes"]; stdout := [] |})
      as (_ & Hrun & _).
    + repeat constructor.
    + repeat constructor.
    + destruct Hrun as (s & ps & recs & _ & _ & Hsmall & _).
      * discriminate.
      * vm_compute. lia.
      * destruct (Hsmall catalog_two_total) as (w' & before & Hrun & _).
        by exists w'.
  - destruct (console_main_runs (ops := ascii_str_ops) catalog_huge_entries
                {| stdin := ["n"; "what?"; "yes"]; stdout := [] |})
      as (_ & Hrun & _).
    + repeat constructor.
    + exact catalog_huge_valid.
    + destruct Hrun as (s & ps & recs & _ & _ & _ & Hbig).
      * discriminate.
      * change (length catalog_huge_entries) with 2%nat. vm_compute. lia.
      * destruct (Hbig catalog_huge_total) as (w' & before & Hrun & _).
        by exists w'.
Defined.



(** ** [str.replace] *)

Lemma starts_with_spec p s :
  starts_with p s = true ↔ ∃ t, s = p ++ t.
Proof.
  revert s. induction p as [|a p IH]; intros s.
  - simpl. split; [intros _; by exists s | done].
  - destruct s as [|b s]; simpl.
    + split; [done | intros [t Ht]; done].
    + rewrite andb_true_iff, IH. split.
      * intros [Hab [t ->]]. apply Ascii.eqb_eq in Hab as ->. by exists t.
      * intros [t [= -> ->]]. split; [apply Ascii.eqb_refl | by exists t].
Qed.

Lemma occurs_nil_r p : occurs p [] ↔ p = [].
Proof.
  split.
  - intros (before & after & Heq). symmetry in Heq.
    apply app_eq_nil in Heq as [_ Heq]. by apply app_eq_nil in Heq as [-> _].
  - intros ->. by exists [], [].
Qed.

Lemma occurs_cons p c s :
  occurs p (c :: s) ↔ starts_with p (c :: s) = true ∨ occurs p s.
Proof.
  rewrite starts_with_spec. split.
  - intros ([|b before] & after & Heq).
    + left. by exists after.
    + right. injection Heq as -> ->. by exists before, after.
  - intros [[t Ht]|(before & after & ->)].
    + exists [], t. by rewrite Ht.
    + by exists (c :: before), after.
Qed.

Lemma occurs_app_r p l s : occurs p s → occurs p (l ++ s).
Proof.
  intros (before & after & ->). exists (l ++ before), after.
  by rewrite <- app_assoc.
Qed.

Lemma occurs_drop p n s : occurs p (drop n s) → occurs p s.
Proof.
  intros Ho. rewrite <- (take_drop n s). by apply occurs_app_r.
Qed.

(** A run of non-ASCII characters does not start on an ASCII one. *)
Lemma starts_with_ascii p c s :
  p ≠ [] → non_ascii_text p → is_ascii c = true →
  starts_with p (c :: s) = false.
Proof.
  intros Hp Hhigh Hc. destruct p as [|a p]; [done|].
  apply Forall_cons in Hhigh as [Ha _]. simpl.
  destruct (Ascii.eqb_spec a c) as [->|]; [congruence|done].
Qed.

Lemma occurs_after_ascii p l s :
  p ≠ [] → non_ascii_text p → ascii_text l →
  occurs p (l ++ s) → occurs p s.
Proof.
  intros Hp Hhigh Hl. induction Hl as [|c l Hc _ IH]; [done|].
  simpl. rewrite occurs_cons. intros [Hs|Ho]; [|by apply IH].
  by rewrite starts_with_ascii in Hs.
Qed.

Section replace.
Variables old new : list ascii.
Hypothesis old_nonempty : old ≠ [].

Lemma replace_from_unfold fuel c s :
  replace_from (S fuel) old new (c :: s) =
    if starts_with old (c :: s)
    then new ++ replace_from fuel old new (drop (length old) (c :: s))
    else c :: replace_from fuel old new s.
Proof. reflexivity. Qed.

Lemma length_drop_old (c : ascii) (s : list ascii) fuel :
  (length (c :: s) ≤ S fuel → length (drop (length old) (c :: s)) ≤ fuel)%nat.
Proof.
  intros Hlen. rewrite length_drop. destruct old; [done|]. simpl in *. lia.
Qed.

(** Where [old] does not occur, nothing is replaced. *)
Lemma replace_from_id fuel :
  ∀ s, ¬ occurs old s → replace_from fuel old new s = s.
Proof.
  induction fuel as [|fuel IH]; intros [|c s] Hno; try done.
  rewrite replace_from_unfold.
  rewrite occurs_cons in Hno.
  destruct (starts_with old (c :: s)); [by destruct Hno; left|].
  rewrite IH; [done|]. intros Ho. apply Hno. by right.
Qed.

Hypothesis new_nonempty : new ≠ [].
Hypothesis new_ascii : ascii_text new.

(** A run of non-ASCII characters at the start of the result was at
    the start of the text. *)
Lemma replace_from_prefix fuel :
  ∀ s p, (length s ≤ fuel)%nat → non_ascii_text p →
         starts_with p (replace_from fuel old new s) = true →
         starts_with p s = true.
Proof.
  induction fuel as [|fuel IH]; intros [|c s] p Hlen Hp; try done;
    try (simpl in Hlen; lia).
  rewrite replace_from_unfold.
  destruct (starts_with old (c :: s)) eqn:Hs.
  - destruct p as [|a p]; [done|].
    destruct new as [|n0 new']; [done|].
    apply Forall_cons in new_ascii as [Hn0 _]. simpl app.
    by rewrite starts_with_ascii.
  - destruct p as [|a p]; [done|]. simpl.
    intros Hst. apply andb_true_iff in Hst as [Hac Hst].
    rewrite Hac. simpl. apply (IH s p); [simpl in Hlen; lia| |done].
    by apply Forall_cons in Hp as [_ Hp].
Qed.

(** The replacement brings in no run of non-ASCII characters. *)
Lemma replace_from_preserves fuel :
  ∀ s p, (length s ≤ fuel)%nat → p ≠ [] → non_ascii_text p →
         occurs p (replace_from fuel old new s) → occurs p s.
Proof.
  induction fuel as [|fuel IH]; intros [|c s] p Hlen Hne Hp; try done;
    try (simpl in Hlen; lia).
  rewrite replace_from_unfold.
  destruct (starts_with old (c :: s)) eqn:Hs.
  - intros Ho. apply occurs_after_ascii in Ho; [|done..].
    apply IH in Ho; [|by apply length_drop_old|done..].
    by apply occurs_drop in Ho.
  - rewrite !occurs_cons. intros [Hst|Ho].
    + left. apply (replace_from_prefix (S fuel)); [done..|].
      by rewrite replace_from_unfold, Hs.
    + right. apply (IH s p); [simpl in Hlen; lia|done..].
Qed.

Hypothesis old_non_ascii : non_ascii_text old.

(** After the replacement [old] occurs no more. *)
Lemma replace_from_absent fuel :
  ∀ s, (length s ≤ fuel)%nat → ¬ occurs old (replace_from fuel old new s).
Proof.
  induction fuel as [|fuel IH]; intros [|c s] Hlen.
  - simpl. by rewrite occurs_nil_r.
  - simpl in Hlen. lia.
  - simpl. by rewrite occurs_nil_r.
  - rewrite replace_from_unfold.
    destruct (starts_with old (c :: s)) eqn:Hs.
    + intros Ho. apply occurs_after_ascii in Ho; [|done..].
      revert Ho. apply IH. by apply length_drop_old.
    + rewrite occurs_cons. intros [Hst|Ho].
      * assert (Hst' : starts_with old
                         (replace_from (S fuel) old new (c :: s)) = true)
          by (by rewrite replace_from_unfold, Hs).
        apply replace_from_prefix in Hst'; [congruence|done..].
      * revert Ho. apply IH. simpl in Hlen. lia.
Qed.

End replace.

(** ** From lists of characters to strings *)

Lemma chars_app a b :
  String.list_ascii_of_string (a +:+ b) =
  String.list_ascii_of_string a ++ String.list_ascii_of_string b.
Proof. induction a as [|c a IH]; simpl; [done|]. by rewrite IH. Qed.

Lemma string_of_chars_app a b :
  String.string_of_list_ascii (a ++ b) =
  String.string_of_list_ascii a +:+ String.string_of_list_ascii b.
Proof. induction a as [|c a IH]; simpl; [done|]. by rewrite IH. Qed.

Lemma occurs_in_chars p s :
  occurs_in p s ↔
  occurs (String.list_ascii_of_string p) (String.list_ascii_of_string s).
Proof.
  split.
  - intros (before & after & ->). rewrite !chars_app. by eexists _, _.
  - intros (before & after & Heq).
    exists (String.string_of_list_ascii before),
           (String.string_of_list_ascii after).
    rewrite <- (String.string_of_list_ascii_of_string s), Heq.
    rewrite !string_of_chars_app.
    by rewrite String.string_of_list_ascii_of_string.
Qed.

Lemma chars_nonempty s : s ≠ "" → String.list_ascii_of_string s ≠ [].
Proof. by destruct s. Qed.

Lemma py_replace_chars old new s :
  old ≠ "" →
  String.list_ascii_of_string (py_replace old new s) =
    replace_from (length (String.list_ascii_of_string s))
      (String.list_ascii_of_string old) (String.list_ascii_of_string new)
      (String.list_ascii_of_string s).
Proof.
  intros Hold. unfold py_replace, replace_list.
  rewrite String.list_ascii_of_string_of_list_ascii.
  by destruct old.
Qed.

Lemma to_ascii_entry_spec bad good :
  to_ascii_entry (bad, good) = true →
  bad ≠ "" ∧ non_ascii_text (String.list_ascii_of_string bad) ∧
  String.list_ascii_of_string good ≠ [] ∧
  ascii_text (String.list_ascii_of_string good).
Proof.
  unfold to_ascii_entry. cbn [fst snd].
  rewrite !andb_true_iff, !negb_true_iff, !forallb_forall.
  intros [[[Hb Hbh] Hg] Hgl]. repeat split.
  - intros ->. done.
  - apply Forall_forall. intros c Hc. apply list_elem_of_In in Hc.
    apply negb_true_iff. by apply Hbh.
  - intros Heq. by rewrite Heq in Hg.
  - apply Forall_forall. intros c Hc. apply list_elem_of_In in Hc.
    by apply Hgl.
Qed.

Lemma py_replace_id old new s :
  old ≠ "" → ¬ occurs_in old s → py_replace old new s = s.
Proof.
  intros Hold Hno.
  rewrite <- (String.string_of_list_ascii_of_string (py_replace old new s)).
  rewrite py_replace_chars by done.
  rewrite replace_from_id.
  - apply String.string_of_list_ascii_of_string.
  - by rewrite <- occurs_in_chars.
Qed.

Lemma py_replace_absent bad good s :
  to_ascii_entry (bad, good) = true → ¬ occurs_in bad (py_replace bad good s).
Proof.
  intros Hok. apply to_ascii_entry_spec in Hok as (Hb & Hbh & Hg & Hgl).
  rewrite occurs_in_chars, py_replace_chars by done.
  apply replace_from_absent; try done. by apply chars_nonempty.
Qed.

Lemma py_replace_preserves bad good p s :
  to_ascii_entry (bad, good) = true →
  p ≠ "" → non_ascii_text (String.list_ascii_of_string p) →
  occurs_in p (py_replace bad good s) → occurs_in p s.
Proof.
  intros Hok Hp Hph. apply to_ascii_entry_spec in Hok as (Hb & Hbh & Hg & Hgl).
  rewrite !occurs_in_chars, py_replace_chars by done.
  apply replace_from_preserves; try done; by apply chars_nonempty.
Qed.

Lemma replace_from_fuel (old new : list ascii) :
  old ≠ [] →
  ∀ f1 f2 s, (length s ≤ f1)%nat → (length s ≤ f2)%nat →
             replace_from f1 old new s = replace_from f2 old new s.
Proof.
  intros Hold. induction f1 as [|f1 IH]; intros [|f2] [|c s] H1 H2;
    try done; try (simpl in *; lia).
  rewrite !replace_from_unfold.
  destruct (starts_with old (c :: s)).
  - f_equal. apply IH; by apply length_drop_old.
  - f_equal. apply IH; simpl in *; lia.
Qed.

Lemma append_String c s t : String c s +:+ t = String c (s +:+ t).
Proof. reflexivity. Qed.

Lemma append_empty t : "" +:+ t = t.
Proof. reflexivity. Qed.

(** A character that does not begin [old] is copied. *)
Lemma py_replace_skip a old new c s :
  a ≠ c →
  py_replace (String a old) new (String c s) =
  String c (py_replace (String a old) new s).
Proof.
  intros Hac. unfold py_replace, replace_list.
  cbn [String.list_ascii_of_string length]. rewrite replace_from_unfold.
  cbn [starts_with]. destruct (Ascii.eqb_spec a c) as [|_]; [done|].
  reflexivity.
Qed.

(** An occurrence of [old] at the start is replaced. *)
Lemma py_replace_hit old new s :
  old ≠ "" →
  py_replace old new (old +:+ s) = new +:+ py_replace old new s.
Proof.
  intros Hold.
  rewrite <- (String.string_of_list_ascii_of_string
                (py_replace old new (old +:+ s))).
  rewrite py_replace_chars, chars_app by done.
  pose proof (chars_nonempty old Hold) as Hne.
  destruct (String.list_ascii_of_string old) as [|a l] eqn:Hchars; [done|].
  cbn [app length]. rewrite replace_from_unfold.
  assert (Hst : starts_with (a :: l) (a :: l ++ String.list_ascii_of_string s)
                = true) by (apply starts_with_spec; by eexists).
  rewrite Hst.
  change (a :: l ++ String.list_ascii_of_string s)
    with ((a :: l) ++ String.list_ascii_of_string s).
  rewrite drop_app_length, string_of_chars_app.
  rewrite String.string_of_list_ascii_of_string. f_equal.
  unfold py_replace, replace_list. rewrite Hchars. f_equal.
  apply replace_from_fuel; [done| |done].
  rewrite length_app. lia.
Qed.

(** ** A table of replacements applied in turn *)

Lemma table_preserves (table : list (string * string)) :
  Forall (λ entry, to_ascii_entry entry = true) table →
  ∀ text p,
    p ≠ "" → non_ascii_text (String.list_ascii_of_string p) →
    occurs_in p (foldl (λ text '(bad, good), py_replace bad good text)
                   text table) →
    occurs_in p text.
Proof.
  induction 1 as [|[bad good] table Hok _ IH]; intros text p Hp Hph; [done|].
  simpl. intros Ho. apply IH in Ho; [|done..].
  by eapply py_replace_preserves.
Qed.

Lemma table_absent (table : list (string * string)) :
  Forall (λ entry, to_ascii_entry entry = true) table →
  ∀ text entry,
    entry ∈ table →
    ¬ occurs_in entry.1
        (foldl (λ text '(bad, good), py_replace bad good text) text table).
Proof.
  induction 1 as [|[bad good] table Hok Hall IH]; intros text entry Hin.
  - by apply elem_of_nil in Hin.
  - simpl. apply elem_of_cons in Hin as [->|Hin]; [|by apply IH].
    intros Ho. destruct (to_ascii_entry_spec bad good Hok) as (Hb & Hbh & _).
    apply table_preserves in Ho; [|done..].
    by apply py_replace_absent in Ho.
Qed.

Lemma table_id (table : list (string * string)) :
  Forall (λ entry, to_ascii_entry entry = true) table →
  ∀ text,
    (∀ entry, entry ∈ table → ¬ occurs_in entry.1 text) →
    foldl (λ text '(bad, good), py_replace bad good text) text table = text.
Proof.
  induction 1 as [|[bad good] table Hok _ IH]; intros text Hno; [done|].
  simpl. destruct (to_ascii_entry_spec bad good Hok) as (Hb & _).
  rewrite py_replace_id; [|done|apply (Hno (bad, good)); left].
  apply IH. intros entry Hin. apply Hno. by right.
Qed.

Lemma replacements_to_ascii :
  Forall (λ entry, to_ascii_entry entry = true) replacements.
Proof. repeat constructor. Qed.

Lemma no_pattern_in_ascii p s :
  p ≠ "" → non_ascii_text (String.list_ascii_of_string p) →
  ascii_text (String.list_ascii_of_string s) → ¬ occurs_in p s.
Proof.
  intros Hp Hph Hs. rewrite occurs_in_chars.
  intros Ho. rewrite <- (app_nil_r (String.list_ascii_of_string s)) in Ho.
  apply occurs_after_ascii in Ho; [|by apply chars_nonempty|done..].
  apply occurs_nil_r in Ho. by apply chars_nonempty in Hp.
Qed.

(** X16. No character [clean_text] is there to replace is left in its
    result: none of the keys of its table occurs in the text it
    returns. *)
Theorem clean_text_leaves_no_pattern text :
  Forall (λ entry, ¬ occurs_in entry.1 (clean_text text)) replacements.
Proof.
  apply Forall_forall. intros entry Hin. unfold clean_text.
  by apply table_absent; [apply replacements_to_ascii|].
Qed.

(** X17. Cleaning a cleaned text changes nothing, and a text of ASCII
    characters only is returned as it is. *)
Theorem clean_text_idempotent text :
  clean_text (clean_text text) = clean_text text ∧
  (ascii_text (String.list_ascii_of_string text) → clean_text text = text).
Proof.
  split.
  - unfold clean_text at 1.
    apply table_id; [apply replacements_to_ascii|].
    intros entry Hin. unfold clean_text.
    by apply table_absent; [apply replacements_to_ascii|].
  - intros Hascii. unfold clean_text.
    apply table_id; [apply replacements_to_ascii|].
    intros [bad good] Hin.
    pose proof replacements_to_ascii as Hall. rewrite Forall_forall in Hall.
    destruct (to_ascii_entry_spec bad good (Hall _ Hin)) as (Hb & Hbh & _).
    by apply no_pattern_in_ascii.
Qed.

(** X18. The last entry of the table is dead: when its turn comes the
    shield emoji has been replaced already, so the key "shield emoji
    followed by U+FE0F" is never found, and the selector U+FE0F that
    followed a shield is still in the result. *)
Theorem shield_selector_entry_is_dead text :
  let cleaned :=
    foldl (λ text '(bad, good), py_replace bad good text) text
      (take 8 replacements) in
  ¬ occurs_in shield_with_selector cleaned ∧
  clean_text text = cleaned ∧
  clean_text (shield_with_selector +:+ text) =
    "[Shield]" +:+ clean_text (variation_selector +:+ text).
Proof.
  assert (Hall : Forall (λ entry, to_ascii_entry entry = true)
                   (take 8 replacements)) by (repeat constructor).
  assert (Hno : ∀ text,
            ¬ occurs_in shield_with_selector
                (foldl (λ text '(bad, good), py_replace bad good text) text
                   (take 8 replacements))).
  { intros t (before & after & Heq).
    apply (table_absent _ Hall t ("🛡", "[Shield]")).
    - unfold replacements. cbn [take]. do 7 right. left.
    - exists before, (variation_selector +:+ after). rewrite Heq.
      cbn [fst]. f_equal; reflexivity. }
  assert (Hdead : ∀ text,
            clean_text text =
            foldl (λ text '(bad, good), py_replace bad good text) text
              (take 8 replacements)).
  { intros t. unfold clean_text.
    change replacements with
      (take 8 replacements ++ [(shield_with_selector, "[Shield]")]).
    rewrite foldl_app. simpl foldl at 1.
    by apply py_replace_id. }
  split; [apply Hno|]. split; [apply Hdead|].
  rewrite !Hdead. unfold replacements. cbn [take foldl].
  unfold shield_with_selector, variation_selector, non_breaking_space.
  rewrite !append_String, !append_empty.
  repeat match goal with
         | |- context [py_replace (String ?a ?o) ?n (String ?c ?s)] =>
             rewrite (py_replace_skip a o n c s) by (vm_compute; discriminate)
         end.
  match goal with
  | |- py_replace ?o ?n (String ?c1 (String ?c2 (String ?c3 (String ?c4 ?t))))
       = _ =>
      change (String c1 (String c2 (String c3 (String c4 t)))) with (o +:+ t)
  end.
  by rewrite py_replace_hit.
Qed.

(** ** The scores as they are displayed *)

Lemma tenths_spec m e :
  -1074 ≤ e → Zval (Zpos m) e ≤ 100 * 2 ^ 1074 →
  0 ≤ tenths m e ≤ 1000 ∧
  - 2 ^ 1074 ≤ 2 * (tenths m e * 2 ^ 1074 - 10 * Zval (Zpos m) e) ≤ 2 ^ 1074.
Proof.
  intros He Hv. unfold tenths, Zval in *.
  assert (H1074 : 0 < 2 ^ 1074) by (by apply pow2_pos).
  destruct (Z.leb_spec 0 e) as [Hpos|Hneg].
  - assert (Hpe : 0 < 2 ^ e) by (by apply pow2_pos).
    rewrite Z.pow_add_r in * by lia.
    assert (Hm : Zpos m * 2 ^ e ≤ 100).
    { apply (Z.mul_le_mono_pos_r _ _ (2 ^ 1074)); [done|]. lia. }
    split; [nia|]. split; [|lia].
    replace (Z.pos m * 10 * 2 ^ e * 2 ^ 1074
             - 10 * (Z.pos m * (2 ^ e * 2 ^ 1074))) with 0 by ring.
    lia.
  - set (P := 2 ^ (- e)).
    assert (HP : 0 < P) by (apply pow2_pos; lia).
    set (U := 2 ^ (e + 1074)) in *.
    assert (HU : 0 < U) by (apply pow2_pos; lia).
    assert (HPU : P * U = 2 ^ 1074).
    { unfold P, U. rewrite <- Z.pow_add_r by lia. f_equal. lia. }
    rewrite <- HPU in *.
    assert (Hm : Zpos m ≤ 100 * P).
    { apply (Z.mul_le_mono_pos_r _ _ U); [done|]. lia. }
    split.
    + split; [apply rhe_nonneg; lia|]. apply rhe_le; [done|]. lia.
    + pose proof (rhe_err P HP (Zpos m * 10)) as Herr.
      set (N := rhe (Z.pos m * 10) P) in *.
      replace (2 * (N * (P * U) - 10 * (Z.pos m * U)))
        with (2 * (N * P - Z.pos m * 10) * U) by ring.
      replace (- (P * U)) with (- P * U) by ring.
      split; apply Z.mul_le_mono_nonneg_r; lia.
Qed.

Lemma format_1f_in_range x :
  in_range x (100 * 2 ^ 1074) →
  ∃ N, 0 ≤ N ≤ 1000 ∧
       format_1f x = str_of_int (N / 10) +:+ "." +:+ str_of_int (N mod 10) ∧
       - 2 ^ 1074 ≤ 2 * (N * 2 ^ 1074 - 10 * units x) ≤ 2 ^ 1074.
Proof.
  destruct x as [[]|[]| |[] m e]; cbn [in_range]; try (intros []; fail).
  - intros _. exists 0. split; [lia|]. split; [reflexivity|].
    cbn [units]. assert (0 < 2 ^ 1074) by (by apply pow2_pos). lia.
  - intros [Hcan Hv]. pose proof (canonical_exp m e Hcan) as He.
    destruct (tenths_spec m e ltac:(lia) Hv) as [HN Herr].
    exists (tenths m e). split; [done|]. split; [reflexivity|]. exact Herr.
Qed.

(** X19. What the front ends show for a score. On a valid catalog the
    overall score and every pillar score are displayed, by
    [f"{score:.1f}"], as a decimal with one digit after the point that
    lies between 0.0 and 100.0 and is within 0.05 of the score. *)
Theorem displayed_scores_are_nearest_tenths questions answers s ps x :
  valid_catalog questions →
  calculate_scores questions answers = Ok (s, ps) →
  x = security_score s ∨ (∃ p, (p, x) ∈ ps) →
  ∃ N, 0 ≤ N ≤ 1000 ∧
       format_1f x = str_of_int (N / 10) +:+ "." +:+ str_of_int (N mod 10) ∧
       - 2 ^ 1074 ≤ 2 * (N * 2 ^ 1074 - 10 * units x) ≤ 2 ^ 1074.
Proof.
  intros Hv Hcalc Hx. apply format_1f_in_range.
  destruct Hx as [->|[p Hpx]].
  - destruct (calculate_scores_valid questions answers Hv)
      as (rp & ps' & Hrp & Hcalc').
    rewrite Hcalc in Hcalc'.
    assert (Hs : security_score s = F64.sub (F64.of_int 100) rp)
      by (injection Hcalc' as -> _; reflexivity).
    rewrite Hs. change (F64.of_int 100) with hundred.
    by apply sub_hundred_spec.
  - destruct (pillar_scores_entries _ _ _ _ Hcalc) as [_ Hin].
    specialize (Hin p x Hpx).
    destruct (expected_pillar_score_in_range
                (pillar_risk_of answers p questions)
                (pillar_weight p questions)) as (v & Hv' & Hr).
    { apply pillar_risk_bounds. by apply valid_catalog_weights. }
    congruence.
Qed.

Lemma displayed_scores_are_nearest_tenths_witness :
  ∃ s ps,
    calculate_scores catalog_two answers_two = Ok (s, ps) ∧
    format_1f (security_score s) = "66.7" ∧
    ∃ N, 0 ≤ N ≤ 1000 ∧
         format_1f (security_score s) =
           str_of_int (N / 10) +:+ "." +:+ str_of_int (N mod 10).
Proof.
  assert (Hcalc : ∃ r, calculate_scores catalog_two answers_two = Ok r)
    by (eexists; vm_compute; reflexivity).
  destruct Hcalc as [[s ps] Hcalc]. exists s, ps.
  split; [exact Hcalc|]. split.
  - vm_compute in Hcalc. injection Hcalc as <- _. vm_compute. reflexivity.
  - destruct (displayed_scores_are_nearest_tenths catalog_two answers_two
                s ps (security_score s)) as (N & HN & Hfmt & _).
    + repeat constructor.
    + exact Hcalc.
    + by left.
    + by exists N.
Defined.

(** ** Correct rounding is monotone *)

Lemma Zdigits2_mono x y : 0 ≤ x ≤ y → Zdigits2 x ≤ Zdigits2 y.
Proof.
  intros H. apply Zdigits2_le_of_lt; [lia| |].
  - apply Zdigits2_nonneg. lia.
  - pose proof (Zdigits2_lt y ltac:(lia)). lia.
Qed.

Lemma div_lt_inv A b n : 0 < b → A / b < n → A < n * b.
Proof.
  intros Hb H. destruct (Z.lt_ge_cases A (n * b)) as [|Hge]; [done|].
  assert (n ≤ A / b) by (apply Z.div_le_lower_bound; lia). lia.
Qed.

Lemma RQ_nonneg A b : 0 < b → 0 ≤ A → 0 ≤ RQ A b.
Proof.
  intros Hb HA. unfold RQ.
  set (t := Z.max _ 0). assert (0 < 2 ^ t) by (apply pow2_pos; lia).
  apply Z.mul_nonneg_nonneg; [|lia]. apply rhe_nonneg; lia.
Qed.

Lemma RQ_mono A A' b : 0 < b → 0 ≤ A ≤ A' → RQ A b ≤ RQ A' b.
Proof.
  intros Hb HA. unfold RQ.
  assert (Hq : 0 ≤ A / b ≤ A' / b).
  { split; [apply Z.div_pos; lia | apply Z.div_le_mono; lia]. }
  pose proof (Zdigits2_mono _ _ Hq) as Hd.
  pose proof (Zdigits2_nonneg (A / b) ltac:(lia)) as Hd0.
  set (d := Zdigits2 (A / b)) in *. set (d' := Zdigits2 (A' / b)) in *.
  set (t := Z.max (d - 53) 0). set (t' := Z.max (d' - 53) 0).
  assert (Hg : 0 < 2 ^ t) by (apply pow2_pos; lia).
  assert (Hg' : 0 < 2 ^ t') by (apply pow2_pos; lia).
  destruct (Z.eq_dec t t') as [<-|Hne].
  - apply Z.mul_le_mono_nonneg_r; [lia|]. apply rhe_mono; lia.
  - assert (Ht : t < t') by lia.
    assert (Hd' : 53 < d' ∧ t' = d' - 53) by lia. destruct Hd' as [Hd53 Ht'].
    apply Z.le_trans with (2 ^ (t + 53)).
    + rewrite Z.pow_add_r by lia.
      rewrite (Z.mul_comm (2 ^ t)).
      apply Z.mul_le_mono_nonneg_r; [lia|].
      apply rhe_le; [lia|].
      assert (HAlt : A < 2 ^ (t + 53) * b).
      { apply div_lt_inv; [done|].
        pose proof (Zdigits2_lt (A / b) ltac:(lia)) as Hlt. fold d in Hlt.
        assert (2 ^ d ≤ 2 ^ (t + 53)) by (apply Z.pow_le_mono_r; lia).
        lia. }
      rewrite Z.pow_add_r in HAlt by lia. lia.
    + apply Z.le_trans with (2 ^ 52 * 2 ^ t').
      * rewrite <- Z.pow_add_r by lia. apply Z.pow_le_mono_r; lia.
      * apply Z.mul_le_mono_nonneg_r; [lia|].
        apply rhe_ge; [lia|].
        assert (Hpos : 0 < A' / b).
        { destruct (Z.eq_dec (A' / b) 0) as [E|]; [|lia].
          unfold d' in Hd53. rewrite E in Hd53. simpl in Hd53. lia. }
        pose proof (Zdigits2_le (A' / b) Hpos) as Hle. fold d' in Hle.
        assert (HA' : 2 ^ (d' - 1) * b ≤ A').
        { pose proof (Z.mul_div_le A' b Hb).
          assert (2 ^ (d' - 1) * b ≤ A' / b * b)
            by (apply Z.mul_le_mono_nonneg_r; lia).
          lia. }
        replace (d' - 1) with (52 + t') in HA' by lia.
        rewrite Z.pow_add_r in HA' by lia. lia.
Qed.

Lemma RQ_scale A b k : 0 < b → 0 < k → RQ (A * k) (b * k) = RQ A b.
Proof.
  intros Hb Hk. unfold RQ. rewrite Z.div_mul_cancel_r by lia.
  set (t := Z.max _ 0). assert (0 < 2 ^ t) by (apply pow2_pos; lia).
  replace (b * k * 2 ^ t) with (b * 2 ^ t * k) by ring.
  rewrite rhe_scale by lia. done.
Qed.

(** The rounded quotient depends on the quotient only, and grows with
    it. *)
Lemma RQ_mono_cross A b A' b' :
  0 < b → 0 < b' → 0 ≤ A → A * b' ≤ A' * b → RQ A b ≤ RQ A' b'.
Proof.
  intros Hb Hb' HA Hle.
  rewrite <- (RQ_scale A b b'), <- (RQ_scale A' b' b) by done.
  rewrite (Z.mul_comm b' b). apply RQ_mono; nia.
Qed.

Lemma RN_RQ V : RN V = RQ V 1.
Proof. unfold RN, RQ. by rewrite Z.div_1_r, Z.mul_1_l. Qed.

Lemma RN_mono V V' : 0 ≤ V ≤ V' → RN V ≤ RN V'.
Proof. intros H. rewrite !RN_RQ. apply RQ_mono; lia. Qed.

(** ** The value of a quotient of two ints *)

(** The location tells how the remainder compares with half the
    divisor. *)
Lemma new_location_compare m rem :
  0 < m → 0 ≤ rem < m →
  (rem = 0 → code (new_location m rem) = 0) ∧
  (0 < rem → 2 * rem < m → code (new_location m rem) = 1) ∧
  (2 * rem = m → code (new_location m rem) = 2) ∧
  (m < 2 * rem → code (new_location m rem) = 3).
Proof.
  intros Hm Hrem.
  unfold new_location, new_location_even, new_location_odd.
  destruct (Z.even m) eqn:Hev.
  - destruct (Z.eqb_spec rem 0) as [->|Hne]; simpl; [lia|].
    destruct (Z.compare_spec (2 * rem) m); simpl; lia.
  - assert (Hodd : 2 * rem ≠ m).
    { intros <-. rewrite Z.even_mul in Hev. discriminate. }
    destruct (Z.eqb_spec rem 0) as [->|Hne]; simpl; [lia|].
    destruct (Z.compare_spec (2 * rem + 1) m); simpl; lia.
Qed.

(** A quotient with its location, cut to a coarser grid, rounds like
    the exact quotient. *)
Lemma rhe_sticky q0 b rem c k :
  0 < b → 0 ≤ rem < b → 0 ≤ q0 → 0 ≤ k →
  (rem = 0 → c = 0) → (0 < rem → 2 * rem < b → c = 1) →
  (2 * rem = b → c = 2) → (b < 2 * rem → c = 3) →
  rhe (4 * q0 + c) (4 * 2 ^ k) = rhe (q0 * b + rem) (b * 2 ^ k).
Proof.
  intros Hb Hrem Hq0 Hk H0 H1 H2 H3.
  assert (Hc : 0 ≤ c ≤ 3) by lia.
  assert (Hp : 0 < 2 ^ k) by (by apply pow2_pos).
  set (Q := q0 / 2 ^ k). set (R := q0 mod 2 ^ k).
  assert (HQR : q0 = 2 ^ k * Q + R) by (apply Z.div_mod; lia).
  assert (HR : 0 ≤ R < 2 ^ k) by (apply Z.mod_pos_bound; lia).
  assert (HQ : 0 ≤ Q) by (apply Z.div_pos; lia).
  assert (Hd1 : (4 * q0 + c) / (4 * 2 ^ k) = Q).
  { symmetry. apply (Z.div_unique_pos _ _ Q (4 * R + c)); lia. }
  assert (Hm1 : (4 * q0 + c) mod (4 * 2 ^ k) = 4 * R + c).
  { symmetry. apply (Z.mod_unique_pos _ _ Q (4 * R + c)); lia. }
  assert (Hd2 : (q0 * b + rem) / (b * 2 ^ k) = Q).
  { symmetry. apply (Z.div_unique_pos _ _ Q (R * b + rem)); nia. }
  assert (Hm2 : (q0 * b + rem) mod (b * 2 ^ k) = R * b + rem).
  { symmetry. apply (Z.mod_unique_pos _ _ Q (R * b + rem)); nia. }
  unfold rhe. rewrite Hd1, Hm1, Hd2, Hm2.
  destruct (Z.eq_dec k 0) as [->|Hk0].
  - change (2 ^ 0) with 1 in *. assert (R = 0) as -> by lia.
    rewrite !Z.mul_1_r, Z.mul_0_r, Z.mul_0_l, !Z.add_0_l.
    destruct (Z.ltb_spec (2 * c) 4); destruct (Z.ltb_spec (2 * rem) b);
      try lia; try done.
    destruct (Z.ltb_spec 4 (2 * c)); destruct (Z.ltb_spec b (2 * rem));
      try lia; done.
  - assert (Hpk : 2 ^ k = 2 * 2 ^ (k - 1)).
    { rewrite <- Z.pow_succ_r by lia. f_equal. lia. }
    assert (Hh : 0 < 2 ^ (k - 1)) by (apply pow2_pos; lia).
    set (h := 2 ^ (k - 1)) in *. rewrite Hpk in *.
    destruct (Z.ltb_spec (2 * (4 * R + c)) (4 * (2 * h)));
      destruct (Z.ltb_spec (2 * (R * b + rem)) (b * (2 * h)));
      try nia; try done.
    destruct (Z.ltb_spec (4 * (2 * h)) (2 * (4 * R + c)));
      destruct (Z.ltb_spec (b * (2 * h)) (2 * (R * b + rem)));
      try nia; done.
Qed.

Lemma Zdigits2_div_shift A b s :
  0 < b → 0 ≤ s → 0 < A / b →
  Zdigits2 (A * 2 ^ s / b) = Zdigits2 (A / b) + s.
Proof.
  intros Hb Hs Hq.
  assert (Hp : 0 < 2 ^ s) by (by apply pow2_pos).
  assert (HA : 0 ≤ A).
  { destruct (Z.lt_ge_cases A 0) as [Hneg|]; [|done].
    assert (A / b < 0) by (apply Z.div_lt_upper_bound; lia). lia. }
  pose proof (Zdigits2_le (A / b) Hq) as Hle.
  pose proof (Zdigits2_lt (A / b) ltac:(lia)) as Hlt.
  pose proof (Zdigits2_nonneg (A / b) ltac:(lia)) as Hd.
  set (d := Zdigits2 (A / b)) in *.
  assert (Hd1 : 0 < d).
  { apply (Zdigits2_gt_of_le (A / b) 0); [lia|]. simpl. lia. }
  assert (Hlo : 2 ^ (d - 1 + s) ≤ A * 2 ^ s / b).
  { apply Z.div_le_lower_bound; [done|].
    rewrite Z.pow_add_r by lia.
    pose proof (Z.mul_div_le A b Hb).
    assert (2 ^ (d - 1) * b ≤ A) by nia. nia. }
  assert (Hhi : A * 2 ^ s / b < 2 ^ (d + s)).
  { apply Z.div_lt_upper_bound; [done|].
    rewrite Z.pow_add_r by lia.
    assert (A < 2 ^ d * b) by (apply div_lt_inv; lia). nia. }
  apply Z.le_antisymm.
  - apply Zdigits2_le_of_lt; lia.
  - assert (d - 1 + s < Zdigits2 (A * 2 ^ s / b)); [|lia].
    apply Zdigits2_gt_of_le; lia.
Qed.

(** The division core, with its location spelled out. *)
Lemma div_core_location m1 m2 :
  0 < m1 → 0 < m2 →
  ∃ q e' rem,
    SFdiv_core_binary 53 1024 m1 0 m2 0 = (q, e', new_location m2 rem) ∧
    m1 * 2 ^ (- e') = q * m2 + rem ∧ 0 ≤ rem < m2.
Proof.
  intros H1 H2. unfold SFdiv_core_binary.
  change (fexp 53 1024) with fexp53.
  set (e' := Z.min (fexp53 (Zdigits2 m1 + 0 - (Zdigits2 m2 + 0))) (0 - 0)).
  assert (He' : -1074 ≤ e' ≤ 0) by (unfold e', fexp53; lia).
  set (sh := 0 - 0 - e').
  set (m' := match sh with Z.pos _ => Z.shiftl m1 sh | 0 => m1 | Z.neg _ => 0 end).
  assert (Hm' : m' = m1 * 2 ^ (- e')).
  { unfold m'. replace (- e') with sh by (unfold sh; lia).
    destruct sh eqn:E; [simpl; lia | | lia].
    rewrite Z.shiftl_mul_pow2 by lia. done. }
  assert (Hdm := Z_div_mod m' m2 ltac:(lia)).
  destruct (Z.div_eucl m' m2) as [q rem]. destruct Hdm as [Heq Hrem].
  exists q, e', rem. split; [done|]. split; lia.
Qed.

Lemma in_range_finite x B : in_range x B → is_finite x = true.
Proof. destruct x as [[]|[]| |[] m e]; simpl; done. Qed.

Lemma pack_units m e :
  0 ≤ m → is_finite (pack false m e) = true → units (pack false m e) = Zval m e.
Proof.
  intros Hm. destruct m as [|p|p]; [done| |lia].
  unfold pack. destruct (e <=? 971); [done|discriminate].
Qed.

Lemma rhe_zero P : 0 < P → rhe 0 P = 0.
Proof. intros HP. exact (rhe_grid P HP 0). Qed.

Lemma RQ_zero b : 0 < b → RQ 0 b = 0.
Proof.
  intros Hb. unfold RQ. rewrite Z.div_0_l by lia. simpl Zdigits2.
  change (Z.max (0 - 53) 0) with 0. rewrite rhe_zero by lia. done.
Qed.

(** The quotient of two ints [0 ≤ a ≤ b] is the binary64 number
    nearest to [a / b]. *)
Lemma int_true_divide_value a b :
  0 ≤ a ≤ b → 0 < b →
  ∃ q, F64.int_true_divide a b = Ok q ∧ in_range q (2 ^ 1074) ∧
       units q = RQ (a * 2 ^ 1074) b.
Proof.
  intros Ha Hb.
  destruct (int_true_divide_unit a b Ha Hb) as (q & Hq & Hr).
  exists q. split; [done|]. split; [done|].
  pose proof (in_range_finite _ _ Hr) as Hfin.
  unfold F64.int_true_divide in Hq.
  destruct (Z.eqb_spec b 0); [lia|].
  destruct a as [|pa|pa], b as [|pb|pb]; try lia.
  { simpl in Hq. injection Hq as <-. rewrite Z.mul_0_l, RQ_zero by lia. done. }
  simpl in Hq. unfold F64.prec, F64.emax in Hq.
  destruct (div_core_spec (Zpos pa) (Zpos pb) ltac:(lia) ltac:(lia))
    as (mq & e' & l & rem & Hcore & He' & Hmq & Hfe & Hdiv & Hrem & _ & _).
  destruct (div_core_location (Zpos pa) (Zpos pb) ltac:(lia) ltac:(lia))
    as (mq' & e'' & rem' & Hcore' & Hdiv' & Hrem').
  rewrite Hcore in Hcore'. injection Hcore' as <- <- ->.
  assert (rem' = rem) as -> by lia. clear Hdiv' Hrem'.
  rewrite Hcore in Hq. cbv beta iota in Hq.
  destruct (binary_round_aux_spec false mq e' (new_location (Zpos pb) rem)
              Hmq Hfe) as (m2 & e2 & Hpack & Hm2 & He2 & Hval & Hcan).
  rewrite Hpack in Hq.
  assert (Hqp : q = pack false m2 e2).
  { destruct (pack false m2 e2); congruence. }
  subst q. rewrite (pack_units m2 e2 Hm2 Hfin).
  set (e1 := fexp53 (Zdigits2 mq + e')) in *.
  assert (He1 : -1074 ≤ e1) by (unfold e1, fexp53; lia).
  rewrite (Zval_split m2 e2 e1) by lia. rewrite Hval.
  set (k := e1 - e') in *.
  destruct (new_location_compare (Zpos pb) rem ltac:(lia) Hrem)
    as (C0 & C1 & C2 & C3).
  rewrite (rhe_sticky mq (Zpos pb) rem _ k ltac:(lia) Hrem Hmq ltac:(lia)
             C0 C1 C2 C3).
  rewrite <- Hdiv.
  set (s := 1074 + e').
  assert (Hps : 0 < 2 ^ s) by (apply pow2_pos; lia).
  assert (Hpk : 0 < 2 ^ k) by (apply pow2_pos; lia).
  assert (Hshift : Zpos pa * 2 ^ 1074 = Zpos pa * 2 ^ (- e') * 2 ^ s).
  { rewrite <- Z.mul_assoc, <- Z.pow_add_r by lia. do 2 f_equal. lia. }
  set (A := Zpos pa * 2 ^ (- e')) in *.
  assert (HAq : A / Zpos pb = mq).
  { symmetry. apply (Z.div_unique_pos _ _ mq rem); lia. }
  unfold RQ. rewrite Hshift.
  assert (Hd : Z.max (Zdigits2 (A * 2 ^ s / Zpos pb) - 53) 0 = e1 + 1074).
  { destruct (Z.eq_dec mq 0) as [Hz|Hnz].
    - assert (He1z : e1 = fexp53 (0 + e')) by (unfold e1; by rewrite Hz).
      assert (e' = -1074) by (unfold fexp53 in He1z; lia).
      assert (Hs0 : s = 0) by (unfold s; lia). rewrite Hs0.
      change (2 ^ 0) with 1. rewrite Z.mul_1_r, HAq, Hz. simpl Zdigits2.
      unfold fexp53 in He1z. lia.
    - rewrite Zdigits2_div_shift by lia. rewrite HAq.
      unfold e1, fexp53, s. lia. }
  rewrite Hd.
  assert (Hg : 2 ^ (e1 + 1074) = 2 ^ k * 2 ^ s).
  { rewrite <- Z.pow_add_r by lia. f_equal. unfold k, s. lia. }
  rewrite Hg.
  replace (Zpos pb * (2 ^ k * 2 ^ s)) with (Zpos pb * 2 ^ k * 2 ^ s) by ring.
  rewrite rhe_scale by lia. done.
Qed.

(** ** The values of the product and of the difference *)

Lemma RN_zero : RN 0 = 0.
Proof. rewrite RN_RQ. apply RQ_zero. lia. Qed.

Lemma RN_hundred : RN (100 * 2 ^ 1074) = 100 * 2 ^ 1074.
Proof.
  apply RN_near_hundred.
  assert (0 < 2 ^ 1028) by (by apply pow2_pos). lia.
Qed.

(** The product of a ratio and 100.0 is the binary64 number nearest to
    the exact product. *)
Lemma mul_hundred_value q :
  in_range q (2 ^ 1074) → units (F64.mul q hundred) = RN (100 * units q).
Proof.
  intros Hq. pose proof (mul_hundred_range q Hq) as Hr.
  pose proof (in_range_finite _ _ Hr) as Hfin. clear Hr.
  destruct q as [[]|[]|  |[] mq eq]; cbn [in_range] in Hq;
    try (destruct Hq; fail).
  { cbn [units]. by rewrite Z.mul_0_r, RN_zero. }
  destruct Hq as [Hcan Hv].
  assert (Heq := canonical_exp mq eq Hcan).
  revert Hfin.
  unfold F64.mul, F64.prec, F64.emax, hundred, SFmul. simpl xorb.
  set (M := 7036874417766400).
  change (Z.pos (mq * 7036874417766400)) with (Z.pos mq * M).
  set (N := Z.pos mq * M). set (e := eq + -46).
  assert (HM : M = 100 * 2 ^ 46) by reflexivity.
  assert (HM52 : 2 ^ 52 ≤ M) by (unfold M; simpl; lia).
  assert (HN : 0 < N) by (unfold N, M; lia).
  assert (HdN : 52 < Zdigits2 N).
  { apply Zdigits2_gt_of_le; [lia|]. unfold N. nia. }
  assert (Hfe : e ≤ fexp53 (Zdigits2 N + e)) by (unfold fexp53; lia).
  destruct (binary_round_aux_spec false N e loc_Exact ltac:(lia) Hfe)
    as (m2 & e2 & -> & Hm2 & He2 & Hval & _).
  intros Hfin. rewrite (pack_units m2 e2 Hm2 Hfin).
  set (e1 := fexp53 (Zdigits2 N + e)) in *. simpl code in Hval.
  assert (He1 : -1074 ≤ e1) by (unfold e1, fexp53; lia).
  rewrite (Zval_split m2 e2 e1) by lia. rewrite Hval.
  assert (Hp1 : 0 < 2 ^ (e1 - e)) by (apply pow2_pos; lia).
  replace (4 * N + 0) with (N * 4) by lia.
  replace (4 * 2 ^ (e1 - e)) with (2 ^ (e1 - e) * 4) by lia.
  rewrite rhe_scale by lia.
  (* the exact product *)
  cbn [units]. unfold Zval.
  set (V := 100 * (Z.pos mq * 2 ^ (eq + 1074))).
  assert (Hpq : 0 < 2 ^ (eq + 1074)) by (apply pow2_pos; lia).
  assert (HV : 0 < V) by (unfold V; lia).
  assert (HVN : V * 2 ^ 46 = N * 2 ^ (eq + 1074)).
  { unfold V, N. rewrite HM. ring. }
  assert (HdV : Zdigits2 V + 46 = Zdigits2 N + (eq + 1074)).
  { rewrite <- !Zdigits2_mul_pow2 by lia. by rewrite HVN. }
  unfold RN.
  replace (Z.max (Zdigits2 V - 53) 0) with (e1 + 1074)
    by (unfold e1, fexp53, e; lia).
  assert (Hg : 0 < 2 ^ (e1 + 1074)) by (apply pow2_pos; lia).
  f_equal.
  rewrite <- (rhe_scale (2 ^ (e1 + 1074)) Hg V (2 ^ 46)) by lia.
  rewrite HVN.
  replace (2 ^ (e1 + 1074) * 2 ^ 46) with (2 ^ (e1 - e) * 2 ^ (eq + 1074)).
  2:{ rewrite <- !Z.pow_add_r by lia. f_equal. unfold e. lia. }
  by rewrite rhe_scale by lia.
Qed.

(** The difference of 100.0 and a percentage is the binary64 number
    nearest to the exact difference. *)
Lemma sub_hundred_value x :
  in_range x (100 * 2 ^ 1074) →
  units (F64.sub hundred x) = RN (100 * 2 ^ 1074 - units x).
Proof.
  intros Hx. destruct (sub_hundred_spec x Hx) as [Hr _].
  pose proof (in_range_finite _ _ Hr) as Hfin. clear Hr.
  destruct x as [[]|[]| |[] m e]; cbn [in_range] in Hx;
    try (destruct Hx; fail).
  { cbn [units]. rewrite Z.sub_0_r, RN_hundred.
    change (F64.sub hundred (S754_zero false)) with hundred.
    cbn [units hundred]. apply Zval_hundred. }
  destruct Hx as [Hcan Hv].
  assert (He := canonical_exp m e Hcan).
  cbn [units]. rewrite <- Zval_hundred. rewrite <- Zval_hundred in Hv.
  revert Hfin. unfold hundred.
  destruct (sub_pos_spec 7036874417766400 (-46) m e ltac:(lia) ltac:(lia) Hv)
    as [[Hz ->]|(m2 & e2 & -> & _ & Hval)].
  - intros _. cbn [units]. by rewrite Hz, RN_zero.
  - intros Hfin. rewrite (pack_units (Zpos m2) e2 ltac:(lia) Hfin). exact Hval.
Qed.

(** ** Comparing scores by their values *)

Lemma Zval_pos m e : -1074 ≤ e → 0 < Zval (Zpos m) e.
Proof.
  intros He. unfold Zval.
  assert (0 < 2 ^ (e + 1074)) by (apply pow2_pos; lia). lia.
Qed.

(** Of two canonical mantissas, the one with the larger exponent has
    the larger value. *)
Lemma canonical_exp_lt m e m' e' :
  canonical m e → canonical m' e' → e < e' →
  Zval (Zpos m) e < Zval (Zpos m') e'.
Proof.
  intros [Hc He] [Hc' He'] Hlt.
  assert (Hlo : -1074 ≤ e) by (unfold fexp53 in Hc; lia).
  assert (Hd' : Zpos (digits2_pos m') = 53).
  { unfold fexp53 in Hc'. lia. }
  assert (Hd : Zpos (digits2_pos m) ≤ 53) by (unfold fexp53 in Hc; lia).
  pose proof (digits2_pos_bounds m) as [_ Hm].
  pose proof (digits2_pos_bounds m') as [Hm' _].
  rewrite Hd' in Hm'. change (53 - 1) with 52 in Hm'.
  assert (Hm53 : Zpos m < 2 ^ 53).
  { assert (2 ^ Zpos (digits2_pos m) ≤ 2 ^ 53)
      by (apply Z.pow_le_mono_r; lia). lia. }
  unfold Zval.
  assert (Hp : 0 < 2 ^ (e + 1074)) by (apply pow2_pos; lia).
  replace (e' + 1074) with (e' - e + (e + 1074)) by lia.
  rewrite (Z.pow_add_r 2 (e' - e) (e + 1074)) by lia.
  assert (2 ^ 1 ≤ 2 ^ (e' - e)) by (apply Z.pow_le_mono_r; lia).
  change (2 ^ 1) with 2 in *.
  assert (Zpos m < Zpos m' * 2 ^ (e' - e)) by nia.
  nia.
Qed.

Lemma compare_units_finite m e m' e' :
  canonical m e → canonical m' e' →
  SFcompare (S754_finite false m e) (S754_finite false m' e') =
    Some (Zval (Zpos m) e ?= Zval (Zpos m') e').
Proof.
  intros Hc Hc'. cbv beta iota delta [SFcompare]. f_equal. symmetry.
  destruct (Z.compare_spec e e') as [->|Hlt|Hgt].
  - pose proof (canonical_exp m' e' Hc') as He.
    assert (Hp : 0 < 2 ^ (e' + 1074)) by (apply pow2_pos; lia).
    unfold Zval.
    destruct (PosDef.Pos.compare_cont Eq m m') eqn:E.
    + apply Pos.compare_eq_iff in E as ->. apply Z.compare_refl.
    + assert (Hlt : (m < m')%positive) by exact E.
      apply Z.compare_lt_iff.
      apply Z.mul_lt_mono_pos_r; [done|]. lia.
    + assert (Hgt : (m > m')%positive) by exact E.
      apply Z.compare_gt_iff.
      apply Z.mul_lt_mono_pos_r; [done|]. lia.
  - apply Z.compare_lt_iff. by apply canonical_exp_lt.
  - apply Z.compare_gt_iff. by apply canonical_exp_lt.
Qed.

(** Scores compare as their values do. *)
Lemma compare_units x y B B' :
  in_range x B → in_range y B' →
  SFcompare x y = Some (units x ?= units y).
Proof.
  destruct x as [[]|[]| |[] m e]; cbn [in_range]; try done;
    destruct y as [[]|[]| |[] m' e']; cbn [in_range]; try done.
  - intros _ [Hc _]. cbn [units].
    pose proof (Zval_pos m' e' ltac:(apply (canonical_exp m' e' Hc))) as Hp.
    cbv beta iota delta [SFcompare]. f_equal. symmetry.
    by apply Z.compare_lt_iff.
  - intros [Hc _] _. cbn [units].
    pose proof (Zval_pos m e ltac:(apply (canonical_exp m e Hc))) as Hp.
    cbv beta iota delta [SFcompare]. f_equal. symmetry.
    by apply Z.compare_gt_iff.
  - intros [Hc _] [Hc' _]. cbn [units]. by apply compare_units_finite.
Qed.

Lemma leb_units x y B B' :
  in_range x B → in_range y B' →
  F64.leb x y = true ↔ units x ≤ units y.
Proof.
  intros Hx Hy. unfold F64.leb, SFleb.
  rewrite (compare_units x y B B' Hx Hy).
  destruct (Z.compare_spec (units x) (units y)); split; (lia || done).
Qed.

Lemma in_range_units_inj x y B B' :
  in_range x B → in_range y B' → units x = units y → x = y.
Proof.
  destruct x as [[]|[]| |[] m e]; cbn [in_range]; try done;
    destruct y as [[]|[]| |[] m' e']; cbn [in_range]; try done.
  - intros _ [Hc _]. cbn [units].
    pose proof (Zval_pos m' e' ltac:(apply (canonical_exp m' e' Hc))). lia.
  - intros [Hc _] _. cbn [units].
    pose proof (Zval_pos m e ltac:(apply (canonical_exp m e Hc))). lia.
  - intros [[Hc _] _] [[Hc' _] _]. cbn [units]. intros Hv.
    by destruct (canonical_unique m e m' e' Hc Hc' Hv) as [-> ->].
Qed.

(** ** The score as a function of the exact ratio *)

Lemma units_one : units one = 2 ^ 1074.
Proof.
  cbn [units one]. unfold Zval. change 4503599627370496 with (2 ^ 52).
  rewrite <- Z.pow_add_r by lia. reflexivity.
Qed.

Lemma RQ_one m : 0 < m → RQ (m * 2 ^ 1074) m = 2 ^ 1074.
Proof.
  intros Hm.
  destruct (int_true_divide_value m m ltac:(lia) Hm) as (q & Hq & _ & Hu).
  rewrite int_true_divide_self in Hq by done.
  assert (q = one) as -> by congruence.
  rewrite <- Hu. apply units_one.
Qed.

Lemma ratio_units_bound r m :
  0 ≤ r ≤ m → 0 < m → 0 ≤ RQ (r * 2 ^ 1074) m ≤ 2 ^ 1074.
Proof.
  intros Hr Hm. assert (HU : 0 < 2 ^ 1074) by (by apply pow2_pos).
  split; [apply RQ_nonneg; lia|].
  rewrite <- (RQ_one m Hm) at 2. apply RQ_mono; [done|]. split; [lia|].
  apply Z.mul_le_mono_nonneg_r; lia.
Qed.

Lemma percent_units_bound r m :
  0 ≤ r ≤ m → 0 < m →
  0 ≤ RN (100 * RQ (r * 2 ^ 1074) m) ≤ 100 * 2 ^ 1074.
Proof.
  intros Hr Hm. pose proof (ratio_units_bound r m Hr Hm) as Hq.
  split.
  - rewrite RN_RQ. apply RQ_nonneg; lia.
  - rewrite <- RN_hundred. apply RN_mono. lia.
Qed.

(** A larger ratio of risk gives a smaller score, or the same. *)
Lemma score_units_antitone r m r' m' :
  0 ≤ r ≤ m → 0 ≤ r' ≤ m' → 0 < m → 0 < m' →
  r * m' ≤ r' * m → score_units r' m' ≤ score_units r m.
Proof.
  intros Hr Hr' Hm Hm' Hle. unfold score_units.
  destruct (Z.eqb_spec m 0); [lia|]. destruct (Z.eqb_spec m' 0); [lia|].
  assert (HU : 0 < 2 ^ 1074) by (by apply pow2_pos).
  pose proof (percent_units_bound r m Hr Hm) as Hp.
  pose proof (percent_units_bound r' m' Hr' Hm') as Hp'.
  pose proof (ratio_units_bound r m Hr Hm) as Hq.
  assert (Hqq : RQ (r * 2 ^ 1074) m ≤ RQ (r' * 2 ^ 1074) m').
  { apply RQ_mono_cross; [done|done|lia|].
    replace (r * 2 ^ 1074 * m') with (r * m' * 2 ^ 1074) by ring.
    replace (r' * 2 ^ 1074 * m) with (r' * m * 2 ^ 1074) by ring.
    apply Z.mul_le_mono_nonneg_r; lia. }
  assert (Hpp : RN (100 * RQ (r * 2 ^ 1074) m)
                ≤ RN (100 * RQ (r' * 2 ^ 1074) m')).
  { apply RN_mono. lia. }
  apply RN_mono. lia.
Qed.

Lemma score_units_equal r m r' m' :
  0 ≤ r ≤ m → 0 ≤ r' ≤ m' → 0 < m → 0 < m' →
  r * m' = r' * m → score_units r' m' = score_units r m.
Proof.
  intros Hr Hr' Hm Hm' Heq. apply Z.le_antisymm.
  - apply score_units_antitone; try done. lia.
  - apply score_units_antitone; try done. lia.
Qed.

(** The score [calculate_scores] computes for [risk] out of [max] is
    the one the three correctly rounded operations give. *)
Lemma expected_score_value r m :
  0 ≤ r ≤ m →
  ∃ v, expected_pillar_score r m = Ok v ∧
       in_range v (100 * 2 ^ 1074) ∧ units v = score_units r m.
Proof.
  intros Hr. unfold expected_pillar_score, score_units.
  destruct (Z.eqb_spec m 0) as [->|Hne].
  - exists hundred. split; [done|]. split.
    + unfold hundred. cbn [in_range]. split; [split; [reflexivity|lia]|].
      rewrite Zval_hundred. lia.
    + cbn [units hundred]. apply Zval_hundred.
  - destruct (int_true_divide_value r m Hr ltac:(lia)) as (q & -> & Hq & Hu).
    rewrite bind_Ok. eexists. split; [reflexivity|].
    change (F64.of_int 100) with hundred.
    pose proof (mul_hundred_range q Hq) as Hp.
    split; [by apply sub_hundred_spec|].
    by rewrite (sub_hundred_value _ Hp), (mul_hundred_value q Hq), Hu.
Qed.

Lemma security_score_expected questions answers s ps :
  calculate_scores questions answers = Ok (s, ps) →
  expected_pillar_score (total_risk answers questions)
                        (total_weight questions) = Ok (security_score s).
Proof.
  intros Hcalc. destruct (summary_shape _ _ _ _ Hcalc) as (rp & Hrp & ->).
  cbn [security_score]. unfold expected_pillar_score.
  unfold risk_percentage_of in Hrp.
  destruct (total_weight questions =? 0).
  - assert (rp = F64.zero) as -> by congruence. reflexivity.
  - destruct (F64.int_true_divide _ _) as [ratio|]; [|done].
    rewrite bind_Ok in *. congruence.
Qed.

Lemma total_risk_mono answers answers' questions :
  Forall (λ q, 0 ≤ weight_of q) questions →
  (∀ q, q ∈ questions → answered_unsafely answers q = true →
        answered_unsafely answers' q = true) →
  total_risk answers questions ≤ total_risk answers' questions.
Proof.
  induction 1 as [|q qs Hq _ IH]; intros Hall; [done|].
  rewrite !total_risk_cons.
  assert (risk_of answers q ≤ risk_of answers' q).
  { unfold risk_of. specialize (Hall q ltac:(left)).
    destruct (answered_unsafely answers q).
    - by rewrite Hall.
    - destruct (answered_unsafely answers' q); lia. }
  assert (total_risk answers qs ≤ total_risk answers' qs).
  { apply IH. intros q' Hq'. apply Hall. by right. }
  lia.
Qed.

Lemma pillar_risk_mono answers answers' p questions :
  Forall (λ q, 0 ≤ weight_of q) questions →
  (∀ q, q ∈ questions → answered_unsafely answers q = true →
        answered_unsafely answers' q = true) →
  pillar_risk_of answers p questions ≤ pillar_risk_of answers' p questions.
Proof.
  intros Hw Hall. unfold pillar_risk_of. apply total_risk_mono.
  - rewrite Forall_forall in *. intros q Hq.
    apply list_elem_of_filter in Hq as [_ Hq]. by apply Hw.
  - intros q Hq. apply list_elem_of_filter in Hq as [_ Hq]. by apply Hall.
Qed.

(** On risks out of the same maximum. *)
Lemma expected_score_antitone r r' m v v' :
  0 ≤ r ≤ r' → r' ≤ m →
  expected_pillar_score r m = Ok v → expected_pillar_score r' m = Ok v' →
  F64.leb v' v = true.
Proof.
  intros Hr Hr' Hv Hv'.
  destruct (expected_score_value r m ltac:(lia)) as (w & Hw & Hin & Hu).
  destruct (expected_score_value r' m ltac:(lia)) as (w' & Hw' & Hin' & Hu').
  assert (w = v) as -> by congruence. assert (w' = v') as -> by congruence.
  apply (leb_units _ _ _ _ Hin' Hin). rewrite Hu, Hu'.
  destruct (Z.eq_dec m 0) as [->|Hne].
  - unfold score_units. simpl. lia.
  - apply score_units_antitone; try lia. nia.
Qed.

(** X20. More unsafe answers never raise a score. On a valid catalog,
    if every question answered unsafely under one answer mapping is
    answered unsafely under another, then under the other the risk
    points are at least as many, and the overall score and the score
    of every pillar are at most what they were: the two roundings of
    the percentage and the one of the difference never turn the order
    around. *)
Theorem more_unsafe_answers_never_raise_a_score
    questions answers answers' s ps s' ps' :
  valid_catalog questions →
  (∀ q, q ∈ questions → answered_unsafely answers q = true →
        answered_unsafely answers' q = true) →
  calculate_scores questions answers = Ok (s, ps) →
  calculate_scores questions answers' = Ok (s', ps') →
  risk_points s ≤ risk_points s' ∧
  F64.leb (security_score s') (security_score s) = true ∧
  ∀ p v v', (p, v) ∈ ps → (p, v') ∈ ps' → F64.leb v' v = true.
Proof.
  intros Hv Hall Hcalc Hcalc'.
  pose proof (valid_catalog_weights questions Hv) as Hw.
  pose proof (total_risk_mono answers answers' questions Hw Hall) as Hrisk.
  split; [|split].
  - destruct (summary_shape _ _ _ _ Hcalc) as (rp & _ & ->).
    destruct (summary_shape _ _ _ _ Hcalc') as (rp' & _ & ->). done.
  - apply (expected_score_antitone (total_risk answers questions)
             (total_risk answers' questions) (total_weight questions)).
    + pose proof (total_risk_bounds answers questions Hw). lia.
    + pose proof (total_risk_bounds answers' questions Hw). lia.
    + by eapply security_score_expected.
    + by eapply security_score_expected.
  - intros p v v' Hpv Hpv'.
    destruct (pillar_scores_entries _ _ _ _ Hcalc) as [_ Hin].
    destruct (pillar_scores_entries _ _ _ _ Hcalc') as [_ Hin'].
    apply (expected_score_antitone (pillar_risk_of answers p questions)
             (pillar_risk_of answers' p questions)
             (pillar_weight p questions)).
    + pose proof (pillar_risk_bounds answers p questions Hw).
      pose proof (pillar_risk_mono answers answers' p questions Hw Hall). lia.
    + pose proof (pillar_risk_bounds answers' p questions Hw). lia.
    + by apply Hin.
    + by apply Hin'.
Qed.

Lemma more_unsafe_answers_never_raise_a_score_witness :
  ∃ s ps s' ps',
    calculate_scores catalog_two answers_two = Ok (s, ps) ∧
    calculate_scores catalog_two (<["Q1" := "no"]> (<["Q2" := "no"]> ∅))
      = Ok (s', ps') ∧
    F64.leb (security_score s') (security_score s) = true.
Proof.
  assert (H1 : ∃ r, calculate_scores catalog_two answers_two = Ok r)
    by (eexists; vm_compute; reflexivity).
  assert (H2 : ∃ r, calculate_scores catalog_two
                      (<["Q1" := "no"]> (<["Q2" := "no"]> ∅)) = Ok r)
    by (eexists; vm_compute; reflexivity).
  destruct H1 as [[s ps] H1]. destruct H2 as [[s' ps'] H2].
  exists s, ps, s', ps'. split; [exact H1|]. split; [exact H2|].
  destruct (more_unsafe_answers_never_raise_a_score catalog_two answers_two
              (<["Q1" := "no"]> (<["Q2" := "no"]> ∅)) s ps s' ps')
    as (_ & Hle & _).
  - repeat constructor.
  - intros q Hq _.
    apply elem_of_cons in Hq as [->|Hq]; [reflexivity|].
    apply elem_of_cons in Hq as [->|Hq]; [reflexivity|].
    by apply elem_of_nil in Hq.
  - exact H1.
  - exact H2.
  - exact Hle.
Defined.

(** ** The risk levels in terms of the risk points *)

Lemma ltb_units x y B B' :
  in_range x B → in_range y B' →
  F64.ltb x y = true ↔ units x < units y.
Proof.
  intros Hx Hy. unfold F64.ltb, SFltb.
  rewrite (compare_units x y B B' Hx Hy).
  destruct (Z.compare_spec (units x) (units y)); split; (lia || done).
Qed.

Lemma in_range_eighty : in_range (F64.of_int 80) (100 * 2 ^ 1074) ∧
                        units (F64.of_int 80) = 80 * 2 ^ 1074.
Proof.
  change (F64.of_int 80) with (S754_finite false 5629499534213120 (-46)).
  assert (Hu : Zval 5629499534213120 (-46) = 80 * 2 ^ 1074).
  { unfold Zval. change 5629499534213120 with (80 * 2 ^ 46).
    rewrite <- Z.mul_assoc, <- Z.pow_add_r by lia. reflexivity. }
  cbn [in_range units]. rewrite Hu.
  assert (0 < 2 ^ 1074) by (by apply pow2_pos).
  split; [|done]. split; [split; [reflexivity|lia]|lia].
Qed.

Lemma in_range_fifty : in_range (F64.of_int 50) (100 * 2 ^ 1074) ∧
                       units (F64.of_int 50) = 50 * 2 ^ 1074.
Proof.
  change (F64.of_int 50) with (S754_finite false 7036874417766400 (-47)).
  assert (Hu : Zval 7036874417766400 (-47) = 50 * 2 ^ 1074).
  { unfold Zval. change 7036874417766400 with (50 * 2 ^ 47).
    rewrite <- Z.mul_assoc, <- Z.pow_add_r by lia. reflexivity. }
  cbn [in_range units]. rewrite Hu.
  assert (0 < 2 ^ 1074) by (by apply pow2_pos).
  split; [|done]. split; [split; [reflexivity|lia]|lia].
Qed.

Lemma score_units_marks :
  score_units 1 5 = 80 * 2 ^ 1074 ∧
  score_units 1 2 = 50 * 2 ^ 1074 ∧
  score_units (2 ^ 51 + 1) (5 * 2 ^ 51) < 80 * 2 ^ 1074 ∧
  score_units (2 ^ 51 + 1) (2 * 2 ^ 51) < 50 * 2 ^ 1074.
Proof.
  split; [vm_compute; reflexivity|]. split; [vm_compute; reflexivity|].
  split; apply Z.ltb_lt; vm_compute; reflexivity.
Qed.

(** For a maximum of at most [2^51], the score stays at or above [100 - 100/n]
    exactly when the risk is at most the n-th part of the maximum, for
    the two marks [n = 5] and [n = 2]. *)
Lemma score_units_mark n mark r m :
  0 < n →
  score_units 1 n = mark →
  score_units (2 ^ 51 + 1) (n * 2 ^ 51) < mark →
  mark ≤ 100 * 2 ^ 1074 →
  0 ≤ r ≤ m → m ≤ 2 ^ 51 →
  mark ≤ score_units r m ↔ n * r ≤ m.
Proof.
  intros Hn Hat Habove Hmark Hr Hm.
  assert (HB : 0 < 2 ^ 51) by (by apply pow2_pos).
  set (B := 2 ^ 51) in *.
  destruct (Z.eq_dec m 0) as [->|Hne].
  { assert (r = 0) as -> by lia. unfold score_units. simpl Z.eqb. cbv iota.
    split; lia. }
  split.
  - intros Hge. destruct (Z.le_gt_cases (n * r) m) as [|Hgt]; [done|].
    exfalso.
    assert (score_units r m ≤ score_units (B + 1) (n * B)); [|lia].
    apply score_units_antitone; try nia.
  - intros Hle. rewrite <- Hat.
    apply score_units_antitone; try lia.
Qed.

(** X21. The risk level in terms of the risk points alone. On a valid
    catalog whose weights sum to at most [2^51], the level is "LOW"
    exactly when the risk points are at most a fifth of the maximum,
    "HIGH" exactly when they are more than half of it, and "MEDIUM"
    in between: the rounding of the floating-point score moves no
    result across a boundary. *)
Theorem risk_level_by_risk_points questions answers s ps :
  valid_catalog questions →
  calculate_scores questions answers = Ok (s, ps) →
  max_risk s ≤ 2 ^ 51 →
  (risk_level s = "LOW" ↔ 5 * risk_points s ≤ max_risk s) ∧
  (risk_level s = "MEDIUM" ↔
     max_risk s < 5 * risk_points s ∧ 2 * risk_points s ≤ max_risk s) ∧
  (risk_level s = "HIGH" ↔ max_risk s < 2 * risk_points s).
Proof.
  intros Hv Hcalc Hmax.
  pose proof (valid_catalog_weights questions Hv) as Hw.
  pose proof (total_risk_bounds answers questions Hw) as Hr.
  pose proof (security_score_expected _ _ _ _ Hcalc) as Hss.
  destruct (expected_score_value _ _ Hr) as (v & Hv' & Hin & Hu).
  assert (v = security_score s) as -> by congruence. clear Hv'.
  destruct (summary_shape _ _ _ _ Hcalc) as (rp & _ & Hs).
  assert (Hlevel : risk_level s = risk_level_of (security_score s))
    by (rewrite Hs; reflexivity).
  assert (Hrp : risk_points s = total_risk answers questions)
    by (rewrite Hs; reflexivity).
  assert (Hmr : max_risk s = total_weight questions)
    by (rewrite Hs; reflexivity).
  rewrite Hlevel, Hrp, Hmr in *. clear Hs Hlevel Hrp Hmr.
  set (ss := security_score s) in *.
  set (r := total_risk answers questions) in *.
  set (m := total_weight questions) in *.
  assert (Hnan : is_nan ss = false).
  { pose proof (in_range_finite _ _ Hin). by destruct ss. }
  destruct (risk_level_of_spec ss Hnan) as (HL & HM & HH).
  destruct in_range_eighty as [H80 U80]. destruct in_range_fifty as [H50 U50].
  destruct score_units_marks as (M80 & M50 & A80 & A50).
  assert (HU : 0 < 2 ^ 1074) by (by apply pow2_pos).
  pose proof (score_units_mark 5 (80 * 2 ^ 1074) r m ltac:(lia) M80 A80
                ltac:(lia) Hr Hmax) as E80.
  pose proof (score_units_mark 2 (50 * 2 ^ 1074) r m ltac:(lia) M50 A50
                ltac:(lia) Hr Hmax) as E50.
  rewrite <- Hu in E80, E50. rewrite <- U80 in E80. rewrite <- U50 in E50.
  rewrite <- (leb_units _ _ _ _ H80 Hin) in E80.
  rewrite <- (leb_units _ _ _ _ H50 Hin) in E50.
  assert (L80 : F64.ltb ss (F64.of_int 80) = true ↔ m < 5 * r).
  { rewrite (ltb_units _ _ _ _ Hin H80).
    rewrite <- Z.nle_gt, <- (leb_units _ _ _ _ H80 Hin), E80. lia. }
  assert (L50 : F64.ltb ss (F64.of_int 50) = true ↔ m < 2 * r).
  { rewrite (ltb_units _ _ _ _ Hin H50).
    rewrite <- Z.nle_gt, <- (leb_units _ _ _ _ H50 Hin), E50. lia. }
  rewrite HL, HM, HH, E80, E50, L80, L50.
  clearbody r m. clear. lia.
Qed.

Lemma risk_level_by_risk_points_witness :
  ∃ s ps,
    calculate_scores catalog_eighty answers_two = Ok (s, ps) ∧
    (risk_level s = "LOW" ↔ 5 * risk_points s ≤ max_risk s) ∧
    risk_level s = "LOW".
Proof.
  assert (H1 : ∃ r, calculate_scores catalog_eighty answers_two = Ok r)
    by (eexists; vm_compute; reflexivity).
  destruct H1 as [[s ps] H1]. exists s, ps. split; [exact H1|].
  destruct (risk_level_by_risk_points catalog_eighty answers_two s ps)
    as (HL & _ & _).
  - repeat constructor.
  - exact H1.
  - vm_compute in H1. injection H1 as <- _. vm_compute. discriminate.
  - split; [exact HL|].
    vm_compute in H1. injection H1 as <- _. reflexivity.
Defined.

(** Beyond that bound the boundary does move: with a maximum of
    [5 * 2^52] and one risk point more than a fifth of it, the score
    is still 80.0 and the level "LOW". *)
Example heavy_catalog_is_still_low :
  ∃ s ps,
    calculate_scores catalog_heavy (<["Q1" := "no"]> ∅) = Ok (s, ps) ∧
    max_risk s < 5 * risk_points s ∧
    security_score s = F64.of_int 80 ∧ risk_level s = "LOW".
Proof. eexists _, _. split; [vm_compute; reflexivity|]. by vm_compute. Qed.

(** ** Weights are relative *)

Lemma int_true_divide_scale r m k :
  0 ≤ r ≤ m → 0 < m → 0 < k →
  F64.int_true_divide (r * k) (m * k) = F64.int_true_divide r m.
Proof.
  intros Hr Hm Hk.
  destruct (int_true_divide_value r m Hr Hm) as (q & Hq & Hin & Hu).
  destruct (int_true_divide_value (r * k) (m * k) ltac:(nia) ltac:(nia))
    as (q' & Hq' & Hin' & Hu').
  rewrite Hq, Hq'. f_equal.
  apply (in_range_units_inj _ _ _ _ Hin' Hin).
  rewrite Hu, Hu'.
  replace (r * k * 2 ^ 1074) with (r * 2 ^ 1074 * k) by ring.
  by apply RQ_scale.
Qed.

Lemma expected_pillar_score_scale r m k :
  0 ≤ r ≤ m → 0 < k →
  expected_pillar_score (r * k) (m * k) = expected_pillar_score r m.
Proof.
  intros Hr Hk. unfold expected_pillar_score.
  destruct (Z.eqb_spec m 0) as [->|Hne]; [done|].
  destruct (Z.eqb_spec (m * k) 0); [nia|].
  by rewrite int_true_divide_scale by lia.
Qed.

Lemma risk_percentage_of_scale r m k :
  0 ≤ r ≤ m → 0 < k →
  risk_percentage_of (r * k) (m * k) = risk_percentage_of r m.
Proof.
  intros Hr Hk. unfold risk_percentage_of.
  destruct (Z.eqb_spec m 0) as [->|Hne]; [done|].
  destruct (Z.eqb_spec (m * k) 0); [nia|].
  by rewrite int_true_divide_scale by lia.
Qed.

Lemma has_fields_scale k q : has_fields (scale_weight k q) = has_fields q.
Proof. unfold has_fields. simpl. by destruct (q_weight q). Qed.

Lemma weight_of_scale k q : weight_of (scale_weight k q) = weight_of q * k.
Proof. unfold weight_of. simpl. by destruct (q_weight q). Qed.

Lemma risk_of_scale answers k q :
  risk_of answers (scale_weight k q) = risk_of answers q * k.
Proof.
  unfold risk_of. rewrite weight_of_scale.
  change (answered_unsafely answers (scale_weight k q))
    with (answered_unsafely answers q).
  destruct (answered_unsafely answers q); lia.
Qed.

Lemma total_weight_scale k questions :
  total_weight (scale_weight k <$> questions) = total_weight questions * k.
Proof.
  induction questions as [|q qs IH]; [done|].
  rewrite fmap_cons, !total_weight_cons, IH, weight_of_scale. lia.
Qed.

Lemma total_risk_scale answers k questions :
  total_risk answers (scale_weight k <$> questions) =
  total_risk answers questions * k.
Proof.
  induction questions as [|q qs IH]; [done|].
  rewrite fmap_cons, !total_risk_cons, IH, risk_of_scale. lia.
Qed.

Lemma pillar_weight_scale p k questions :
  pillar_weight p (scale_weight k <$> questions) =
  pillar_weight p questions * k.
Proof.
  induction questions as [|q qs IH]; [done|].
  rewrite fmap_cons, !pillar_weight_cons, IH, weight_of_scale.
  change (in_pillar p (scale_weight k q)) with (in_pillar p q).
  destruct (in_pillar p q); lia.
Qed.

Lemma pillar_risk_scale answers p k questions :
  pillar_risk_of answers p (scale_weight k <$> questions) =
  pillar_risk_of answers p questions * k.
Proof.
  induction questions as [|q qs IH]; [done|].
  rewrite fmap_cons, !pillar_risk_of_cons, IH, risk_of_scale.
  change (in_pillar p (scale_weight k q)) with (in_pillar p q).
  destruct (in_pillar p q); lia.
Qed.

Lemma pillars_scale k questions :
  pillars (scale_weight k <$> questions) = pillars questions.
Proof.
  induction questions as [|q qs IH]; [done|].
  rewrite fmap_cons. unfold pillars in *. simpl.
  destruct (q_pillar q); [f_equal|]; exact IH.
Qed.

Lemma rec_loop_scale answers k questions :
  ∀ recs, rec_loop answers recs (scale_weight k <$> questions) =
          rec_loop answers recs questions.
Proof.
  induction questions as [|q qs IH]; intros recs; [done|].
  rewrite fmap_cons. cbn [rec_loop].
  change (rec_step answers recs (scale_weight k q))
    with (rec_step answers recs q).
  destruct (rec_step answers recs q); simpl; [apply IH|done].
Qed.

(** Two dicts with the same keys in the same order and the same value
    for every key are the same. *)
Lemma od_ext {V} (d d' : OrderedDict.t V) :
  OrderedDict.keys d = OrderedDict.keys d' →
  (∀ k v v', (k, v) ∈ d → (k, v') ∈ d' → v = v') →
  d = d'.
Proof.
  revert d'. induction d as [|[k v] d IH]; intros [|[k' v'] d'] Hk Hv;
    try done.
  injection Hk as -> Hk.
  rewrite (Hv k' v v') by left. f_equal.
  apply IH; [done|]. intros k v1 v2 H1 H2. apply (Hv k); by right.
Qed.

(** X22. Only the proportions of the weights matter. On a valid
    catalog, multiplying every weight by the same positive integer
    multiplies [risk_points] and [max_risk] by it and changes nothing
    else: the risk percentage, the security score, the risk level and
    every pillar score are bit for bit the same, and so are the
    recommendations. *)
Theorem weights_are_relative k questions answers s ps :
  0 < k →
  valid_catalog questions →
  calculate_scores questions answers = Ok (s, ps) →
  calculate_scores (scale_weight k <$> questions) answers =
    Ok ({| risk_points := risk_points s * k;
           max_risk := max_risk s * k;
           risk_percentage := risk_percentage s;
           security_score := security_score s;
           risk_level := risk_level s |}, ps) ∧
  generate_recommendations (scale_weight k <$> questions) answers =
    generate_recommendations questions answers.
Proof.
  intros Hk Hv Hcalc. split; [|apply rec_loop_scale].
  pose proof (valid_catalog_weights questions Hv) as Hw.
  pose proof (valid_catalog_fields questions Hv) as Hf.
  pose proof (total_risk_bounds answers questions Hw) as Hr.
  destruct (summary_shape _ _ _ _ Hcalc) as (rp & Hrp & Hs).
  destruct (calculate_scores_intro (scale_weight k <$> questions) answers rp)
    as [ps' Hcalc'].
  - apply Forall_fmap. eapply Forall_impl; [exact Hf|].
    intros q Hq. simpl. by rewrite has_fields_scale.
  - rewrite total_risk_scale, total_weight_scale.
    by rewrite risk_percentage_of_scale.
  - intros p Hp. rewrite pillars_scale in Hp.
    rewrite pillar_risk_scale, pillar_weight_scale.
    rewrite expected_pillar_score_scale
      by (done || by apply pillar_risk_bounds).
    destruct (pillar_scores_complete _ _ _ _ p Hcalc Hp) as (v & _ & Hv').
    by exists v.
  - assert (ps' = ps) as ->.
    { destruct (pillar_scores_entries _ _ _ _ Hcalc) as [Hkeys Hin].
      destruct (pillar_scores_entries _ _ _ _ Hcalc') as [Hkeys' Hin'].
      apply od_ext.
      - by rewrite Hkeys, Hkeys', pillars_scale.
      - intros p v' v Hpv' Hpv.
        specialize (Hin p v Hpv). specialize (Hin' p v' Hpv').
        rewrite pillar_risk_scale, pillar_weight_scale in Hin'.
        rewrite expected_pillar_score_scale in Hin'
          by (done || by apply pillar_risk_bounds).
        congruence. }
    rewrite Hcalc', total_risk_scale, total_weight_scale, Hs. reflexivity.
Qed.

Lemma weights_are_relative_witness :
  ∃ s ps,
    calculate_scores catalog_two answers_two = Ok (s, ps) ∧
    calculate_scores (scale_weight 7 <$> catalog_two) answers_two =
      Ok ({| risk_points := risk_points s * 7;
             max_risk := max_risk s * 7;
             risk_percentage := risk_percentage s;
             security_score := security_score s;
             risk_level := risk_level s |}, ps).
Proof.
  assert (H1 : ∃ r, calculate_scores catalog_two answers_two = Ok r)
    by (eexists; vm_compute; reflexivity).
  destruct H1 as [[s ps] H1]. exists s, ps. split; [exact H1|].
  destruct (weights_are_relative 7 catalog_two answers_two s ps) as [H _].
  - lia.
  - repeat constructor.
  - exact H1.
  - exact H.
Defined.

(** ** Catalogs with ids of their own *)

Lemma omap_advice_unmapped answers questions :
  (∀ q qid, q ∈ questions → q_id q = Some qid →
            OrderedDict.get recommendation_map qid = None) →
  omap (advice answers) questions = [].
Proof.
  induction questions as [|q qs IH]; intros Hun; [done|].
  simpl. assert (Ha : advice answers q = None).
  { unfold advice. destruct (q_id q) as [qid|] eqn:Hid; [|done].
    rewrite (Hun q qid ltac:(left) Hid). by destruct (is_unsafe _ _). }
  rewrite Ha. apply IH. intros q' qid Hq'. apply Hun. by right.
Qed.

(** X23. Recommendations exist for the ids "Q1" to "Q20" only. On a
    catalog none of whose ids is among them, [generate_recommendations]
    returns the empty list whatever the answers. So it does when such a
    catalog is valid, weighs more than 0 and every question was
    answered unsafely: [calculate_scores] then gives the score 0.0 and
    the level "HIGH", and no recommendation comes with them. *)
Theorem unmapped_ids_get_no_advice questions answers :
  Forall (λ q, present (q_id q) = true) questions →
  (∀ q qid, q ∈ questions → q_id q = Some qid →
            OrderedDict.get recommendation_map qid = None) →
  generate_recommendations questions answers = Ok [] ∧
  (valid_catalog questions →
   0 < total_weight questions →
   Forall (λ q, answered_unsafely answers q = true) questions →
   ∃ s ps,
     calculate_scores questions answers = Ok (s, ps) ∧
     risk_points s = max_risk s ∧
     security_score s = F64.zero ∧
     risk_level s = "HIGH").
Proof.
  intros Hids Hun. split.
  - rewrite generate_recommendations_cases.
    assert (Hall : forallb (λ q, present (q_id q)) questions = true).
    { apply forallb_forall. intros q Hq. apply list_elem_of_In in Hq.
      rewrite Forall_forall in Hids. by apply Hids. }
    by rewrite Hall, omap_advice_unmapped.
  - intros Hv Hpos Hall.
    destruct (calculate_scores_valid questions answers Hv)
      as (rp & ps & _ & Hcalc).
    eexists _, ps. split; [exact Hcalc|].
    destruct (summary_shape _ _ _ _ Hcalc) as (rp' & Hrp & Hs).
    assert (rp' = rp) as -> by congruence. clear Hs.
    cbn [risk_points max_risk security_score risk_level].
    rewrite (total_risk_all answers questions Hall) in *.
    split; [done|]. unfold risk_percentage_of in Hrp.
    destruct (Z.eqb_spec (total_weight questions) 0); [lia|].
    rewrite int_true_divide_self, bind_Ok in Hrp by done.
    assert (rp = F64.mul one (F64.of_int 100)) as -> by congruence.
    split; vm_compute; reflexivity.
Qed.

Lemma unmapped_ids_get_no_advice_witness :
  generate_recommendations catalog_own_ids answers_own_ids = Ok [] ∧
  ∃ s ps,
    calculate_scores catalog_own_ids answers_own_ids = Ok (s, ps) ∧
    risk_points s = max_risk s ∧
    security_score s = F64.zero ∧
    risk_level s = "HIGH".
Proof.
  destruct (unmapped_ids_get_no_advice catalog_own_ids answers_own_ids)
    as [Hrec Hscore].
  - repeat constructor.
  - intros q qid Hq Hid.
    apply elem_of_cons in Hq as [->|Hq]; [by injection Hid as <-|].
    apply elem_of_cons in Hq as [->|Hq]; [by injection Hid as <-|].
    by apply elem_of_nil in Hq.
  - split; [exact Hrec|]. apply Hscore.
    + repeat constructor.
    + vm_compute. reflexivity.
    + repeat constructor.
Defined.
